(** * Large-loss threshold search: a shallow embedding of
      [ll_threshold_experiment.ipynb]

    The notebook aggregates paid and outstanding (OCR) claim transactions
    into one row per claim, then for every segment sweeps over the share of
    largest claims removed, fits a Mack chain ladder on what is left, and
    picks the share at which the summed Mack standard error moves most.

    Conventions of the embedding.
    - A pandas DataFrame is a list of rows (records), in row order.
    - Monetary amounts are integers (a fixed minor unit) and never null;
      the Mack standard errors and the claims percentages are exact
      rationals [Q].
    - The row cut [int(len(attritional_claims) * increment*i)] is evaluated
      in binary64 arithmetic, as Python does: products are rounded to 53
      significant bits, ties to even ([F64.round53]); [Binary64] holds the
      same product in the floating-point numbers of the kernel.
    - [sort_values] sorts on [gross_amount] alone with pandas' default sort
      kind, which keeps no order among equal amounts: it is a parameter of
      the sweep, bound by [sort_contract] where a statement needs it.
    - The [chainladder] package is outside the notebook: it is the class
      [ChainLadder], whose operations may raise.
    - A Python exception is the [Raise] case of [result].
    - Printing and plotting are left out.

    The cells around the segment loop follow the aggregation and the sweep:
    the cut of the whole frame at half a percent ([ordered_df]), the
    reading of the claim sheets ([Ingest]: segment labels in title case,
    ASCII text; the loss date of a claim's earliest transaction; the check
    on blank loss dates) and the premium sheets ([Premiums]).  The cells
    that work on [sample_df], a frame the notebook never builds, and on
    [cleaned_df] made from it, are not embedded. *)

From Stdlib Require Import QArith Qabs Qround.
From Stdlib Require Uint63 PrimFloat.
From stdpp Require Import base option list sorting gmap strings pretty.

Local Open Scope Z_scope.

(** ** Exceptions *)

Inductive exn : Type :=
  | ValueError (msg : string)
  | KeyError (msg : string)
  | LibraryError (msg : string).

Inductive result (A : Type) : Type :=
  | Ok (a : A)
  | Raise (e : exn).
Arguments Ok {A} a.
Arguments Raise {A} e.

#[global] Instance result_ret : MRet result := λ A a, Ok a.
#[global] Instance result_bind : MBind result := λ A B k m,
  match m with
  | Ok a => k a
  | Raise e => Raise e
  end.

#[global] Instance result_fmap : FMap result := λ A B f m,
  match m with
  | Ok a => Ok (f a)
  | Raise e => Raise e
  end.

(** ** The drop detector

    [mack_df['mack_mse_diff'] = mack_df['mack_mse'].diff().abs()]
    [max_drop_index = mack_df['mack_mse_diff'][1:].idxmax()]
    [threshold_percentage[...] = mack_df.loc[max_drop_index, 'claims_percentage']] *)

Module Detector.

(** A pandas Series: rows of (index label, value); [None] is NaN. *)
Definition Series : Type := list (nat * option Q).

(** A column of a frame built from a Python list, with its RangeIndex. *)
Definition column (l : list Q) : Series := imap (λ i x, (i, Some x)) l.

(** [Series.diff()]: each value minus the one in the row before, NaN in the
    first row. *)
Fixpoint diff_from (prev : option Q) (s : Series) : Series :=
  match s with
  | [] => []
  | (i, x) :: r =>
      (i, match x, prev with
          | Some a, Some b => Some (a - b)%Q
          | _, _ => None
          end) :: diff_from x r
  end.

Definition diff (s : Series) : Series := diff_from None s.

(** [Series.abs()] *)
Definition abs (s : Series) : Series :=
  (λ r : nat * option Q, (r.1, Qabs <$> r.2)) <$> s.

(** [s[1:]]: positional slice, the labels stay. *)
Definition from_1 (s : Series) : Series := drop 1 s.

(** [Series.idxmax()]: label of the first occurrence of the maximum, NaN
    skipped; an empty (or all-NaN) series raises ValueError. *)
Fixpoint idxmax_from (best : nat) (bestv : Q) (s : Series) : nat :=
  match s with
  | [] => best
  | (i, Some x) :: r =>
      match (bestv ?= x)%Q with
      | Lt => idxmax_from i x r
      | _ => idxmax_from best bestv r
      end
  | (_, None) :: r => idxmax_from best bestv r
  end.

Fixpoint idxmax (s : Series) : result nat :=
  match s with
  | [] => Raise (ValueError "attempt to get argmax of an empty sequence")
  | (i, Some x) :: r => Ok (idxmax_from i x r)
  | (_, None) :: r => idxmax r
  end.

(** [mack_df.loc[label, column]] on a frame with a RangeIndex. *)
Definition loc (label : nat) (col : list Q) : result Q :=
  match col !! label with
  | Some v => Ok v
  | None => Raise (KeyError "label not in index")
  end.

Definition mack_mse_diff (mack_mse : list Q) : Series :=
  abs (diff (column mack_mse)).

Definition max_drop_index (mack_mse : list Q) : result nat :=
  idxmax (from_1 (mack_mse_diff mack_mse)).

(** The value stored in [threshold_percentage] for the segment. *)
Definition selected (claims_percentage mack_mse : list Q) : result Q :=
  k ← max_drop_index mack_mse;
  loc k claims_percentage.

(** The change of the metric at sweep point [k], as the contract writes it. *)
Definition delta (metric : list Q) (k : nat) : Q :=
  Qabs (nth k metric 0%Q - nth (k - 1) metric 0%Q)%Q.

End Detector.

(** ** Data model *)

(** A row of [paid_data] or of [ocr_data]: columns [claim_id], [segment],
    [loss_date], [transaction_date] and the two value columns
    ([gross_paid], [net_paid] in the paid frame, [gross_ocr], [net_ocr] in
    the OCR frame).  Dates are day numbers; a blank loss date is [None]. *)
Record Transaction : Type := mkTransaction {
  t_claim_id : string;
  t_segment : string;
  t_loss_date : option Z;
  t_transaction_date : Z;
  t_gross : Z;
  t_net : Z
}.

(** A row of [ocr_claims], [paid_claims] and [combined_df]. *)
Record ClaimRecord : Type := mkClaim {
  claim_id : string;
  segment : string;
  loss_date : option Z;
  gross_amount : Z;
  net_amount : Z
}.

#[global] Instance Transaction_eq_dec : EqDecision Transaction.
Proof. solve_decision. Defined.
#[global] Instance ClaimRecord_eq_dec : EqDecision ClaimRecord.
Proof. solve_decision. Defined.

(** ** The claim aggregator (SQL [GROUP BY], [dropna], [concat], [groupby]) *)

Module Aggregator.

(** The grouping columns [claim_id, segment, loss_date]. *)
Definition key : Type := string * string * option Z.

Definition txn_key (t : Transaction) : key :=
  (t_claim_id t, t_segment t, t_loss_date t).

Definition claim_key (c : ClaimRecord) : key :=
  (claim_id c, segment c, loss_date c).

(** Order of the group rows: by the grouping columns, left to right, a
    blank date first. *)
Definition date_leb (a b : option Z) : bool :=
  match a, b with
  | None, _ => true
  | Some _, None => false
  | Some x, Some y => x <=? y
  end.

Definition key_leb (a b : key) : bool :=
  if decide (a.1.1 = b.1.1)
  then if decide (a.1.2 = b.1.2) then date_leb a.2 b.2
       else String.leb a.1.2 b.1.2
  else String.leb a.1.1 b.1.1.

Definition key_le (a b : key) : Prop := key_leb a b = true.

#[global] Instance key_le_dec : RelDecision key_le.
Proof. intros a b. unfold key_le. apply _. Defined.

(** Distinct values in order of first appearance ([Series.unique()]). *)
Fixpoint unique {A : Type} `{EqDecision A} (l : list A) : list A :=
  match l with
  | [] => []
  | x :: r => x :: filter (λ y, y ≠ x) (unique r)
  end.

(** The distinct keys, one per group, in key order. *)
Definition group_keys (ks : list key) : list key :=
  merge_sort key_le (unique ks).

(** SQL aggregates over the values of one group (a group is never empty;
    on no value both are 0 here). *)
Definition SUM (l : list Z) : Z := foldr Z.add 0 l.

Definition MAX (l : list Z) : Z :=
  match l with
  | [] => 0
  | x :: r => foldr Z.max x r
  end.

(** [SELECT claim_id, segment, loss_date, AGG(gross) as gross_amount,
     AGG(net) as net_amount FROM rows GROUP BY claim_id, segment, loss_date]:
    one row per key, built from the rows that have the key. *)
Definition group_row (AGG : list Z → Z) (rows : list Transaction) (k : key)
  : ClaimRecord :=
  let g := filter (λ t, txn_key t = k) rows in
  {| claim_id := k.1.1; segment := k.1.2; loss_date := k.2;
     gross_amount := AGG (t_gross <$> g);
     net_amount := AGG (t_net <$> g) |}.

Definition sql_group_by (AGG : list Z → Z) (rows : list Transaction)
  : list ClaimRecord :=
  group_row AGG rows <$> group_keys (txn_key <$> rows).

(** [.dropna(subset=["loss_date"])] *)
Definition dropna (rows : list ClaimRecord) : list ClaimRecord :=
  filter (λ c, is_Some (loss_date c)) rows.

Definition ocr_claims (ocr_data : list Transaction) : list ClaimRecord :=
  dropna (sql_group_by MAX ocr_data).

Definition paid_claims (paid_data : list Transaction) : list ClaimRecord :=
  dropna (sql_group_by SUM paid_data).

(** [df.groupby(['claim_id','segment','loss_date']).agg(sum, sum).reset_index()];
    pandas leaves rows with a null key out of the groups. *)
Definition sum_row (rows : list ClaimRecord) (k : key) : ClaimRecord :=
  let g := filter (λ c, claim_key c = k) rows in
  {| claim_id := k.1.1; segment := k.1.2; loss_date := k.2;
     gross_amount := SUM (gross_amount <$> g);
     net_amount := SUM (net_amount <$> g) |}.

Definition groupby_sum (rows : list ClaimRecord) : list ClaimRecord :=
  let rows := dropna rows in
  sum_row rows <$> group_keys (claim_key <$> rows).

(** [combined_df = pd.concat([ocr_claims, paid_claims]).groupby(...)...] *)
Definition combined_df (ocr_data paid_data : list Transaction)
  : list ClaimRecord :=
  groupby_sum (ocr_claims ocr_data ++ paid_claims paid_data).

End Aggregator.

(** ** Binary64 products and the row cut *)

Module F64.

(** The rounding decision on the bits dropped: [q] is what is kept, [r]
    what is dropped, [half] half a unit of the last place kept. *)
Definition nearest_even (q r half : Z) : Z :=
  if r <? half then q
  else if half <? r then q + 1
  else if Z.even q then q else q + 1.

(** Round a non-negative integer to 53 significant bits, to nearest, ties
    to even: the rounding of a binary64 result whose exponent stays in
    range. *)
Definition round53 (m : Z) : Z :=
  let k := Z.log2 m - 52 in
  if k <=? 0 then m
  else nearest_even (m / 2 ^ k) (m mod 2 ^ k) (2 ^ (k - 1)) * 2 ^ k.

(** A finite non-negative double, [mant * 2 ^ expo]. *)
Record t : Type := mk { mant : Z; expo : Z }.

(** [float(n)] for a Python int [n >= 0]. *)
Definition of_int (n : Z) : t := mk (round53 n) 0.

(** [x * y] *)
Definition mul (x y : t) : t :=
  mk (round53 (mant x * mant y)) (expo x + expo y).

(** [int(x)]: truncation. *)
Definition to_int (x : t) : Z :=
  if 0 <=? expo x then mant x * 2 ^ expo x
  else mant x / 2 ^ (- expo x).

(** The literal [0.01]: 0x1.47ae147ae147bp-7. *)
Definition lit_0_01 : t := mk 5764607523034235 (-59).

End F64.

(** ** Sweep configuration (the constants of the segment loop) *)

(** [increment = 0.01] *)
Definition increment : F64.t := F64.lit_0_01.

(** [interval = int(round((start_point-end_point)/increment,0))] with
    [start_point = 1], [end_point = 0.7]: the quotient is
    30.000000000000004 and rounds to 30. *)
Definition interval : nat := 30.

(** [int(len(attritional_claims) * increment*i)] *)
Definition cut_index (len : nat) (i : nat) : Z :=
  F64.to_int (F64.mul (F64.mul (F64.of_int (Z.of_nat len)) increment)
                      (F64.of_int (Z.of_nat i))).

(** The same product in the binary64 numbers of the kernel, and the test
    that a double truncates to the integer [c]. *)
Module Binary64.
Import PrimFloat.

Definition lit_0_01 : float := 0x1.47ae147ae147bp-7%float.

Definition of_nat (n : nat) : float :=
  PrimFloat.of_uint63 (Uint63.of_Z (Z.of_nat n)).

Definition product (len i : nat) : float :=
  PrimFloat.mul (PrimFloat.mul (of_nat len) lit_0_01) (of_nat i).

Definition truncates_to (x : float) (c : nat) : bool :=
  PrimFloat.leb (of_nat c) x && PrimFloat.ltb x (of_nat (S c)).

End Binary64.

(** [start_point-increment*i], read as a decimal. *)
Definition percentage_at (i : nat) : Q :=
  (1 - (1 # 100) * inject_Z (Z.of_nat i))%Q.

(** Python slices [l[k:]] and [l[:k]]; a negative [k] counts from the end. *)
Definition iloc_from {A : Type} (k : Z) (l : list A) : list A :=
  if 0 <=? k then drop (Z.to_nat k) l
  else drop (Z.to_nat (Z.of_nat (length l) + k)) l.

Definition iloc_to {A : Type} (k : Z) (l : list A) : list A :=
  if 0 <=? k then take (Z.to_nat k) l
  else take (Z.to_nat (Z.of_nat (length l) + k)) l.

(** ** The chainladder package, at its boundary *)

Class ChainLadder : Type := {
  (** a [cl.Triangle] *)
  Triangle : Type;
  (** a fitted [cl.MackChainladder] *)
  Mack : Type;
  (** [cl.Triangle(data=, origin=, development=, columns=, cumulative=)] *)
  cl_Triangle : list Transaction → string → string → list string → bool
                → result Triangle;
  (** [triangle.grain(g)] *)
  grain : Triangle → string → result Triangle;
  (** [triangle.incr_to_cum()] *)
  incr_to_cum : Triangle → result Triangle;
  (** [triangle + triangle] *)
  tri_add : Triangle → Triangle → result Triangle;
  (** [cl.Development(average=a).fit_transform(triangle)] *)
  Development_fit_transform : string → Triangle → result Triangle;
  (** [cl.MackChainladder().fit(triangle)] *)
  MackChainladder_fit : Triangle → result Mack;
  (** column ["Mack Std Err"] of [mack.summary_.to_frame(...)], one value
      per origin period, [None] for NaN *)
  summary_Mack_Std_Err : Mack → result (list (option Q))
}.

(** [DataFrame.sum()] of one column: NaN is skipped. *)
Definition sum_skipna (col : list (option Q)) : Q :=
  foldr (λ x acc, match x with Some v => (v + acc)%Q | None => acc end) 0%Q col.

(** ** The percentage sweep of one segment *)

(** [left.merge(right["claim_id"], on="claim_id")]: inner join of the rows
    of [left] with a one-column frame; a left row is repeated once per right
    row with its claim id, left order kept. *)
Definition matches (right : list string) (c : string) : nat :=
  length (filter (λ r, r = c) right).

Definition merge_on_claim_id (left : list Transaction) (right : list string)
  : list Transaction :=
  t ← left; replicate (matches right (t_claim_id t)) t.

(** The variables of the loop body that outlive an iteration. *)
Record loop_state : Type := mkState {
  segment_paid : list Transaction;
  segment_ocr : list Transaction;
  claims_percentage : list Q;
  mack_mse : list Q;
  one_percent_index : Z;
  attritional_claims : list ClaimRecord
}.

(** [for x in xs: st = body(x, st)] where the body may raise. *)
Fixpoint for_each {X S : Type} (body : X → S → result S) (xs : list X)
    (st : S) : result S :=
  match xs with
  | [] => Ok st
  | x :: r => st' ← body x st; for_each body r st'
  end.

Section Sweep.

Context `{CL : ChainLadder}.

(** [df.sort_values(by='gross_amount', ascending=False)]: the order of rows
    with equal [gross_amount] is left to the sorting routine. *)
Variable sort_values : list ClaimRecord → list ClaimRecord.

(** The body of the loop from the two triangles to the metric. *)
Definition adapt (paid ocr : list Transaction) : result Q :=
  t ← cl_Triangle paid "loss_date" "transaction_date" ["gross_paid"] false;
  t ← grain t "OQDQ";
  paid_triangle ← incr_to_cum t;
  t ← cl_Triangle ocr "loss_date" "transaction_date" ["gross_ocr"] true;
  ocr_triangle ← grain t "OQDQ";
  combined_triangle ← tri_add paid_triangle ocr_triangle;
  dev ← Development_fit_transform "volume" combined_triangle;
  mack ← MackChainladder_fit dev;
  plot_data ← summary_Mack_Std_Err mack;
  mret (sum_skipna plot_data).

(** The first lines of the loop body: the cut and the two merges. *)
Definition retained (segment_df : list ClaimRecord) (i : nat)
  : list ClaimRecord :=
  let attritional_claims := sort_values segment_df in
  iloc_from (cut_index (length attritional_claims) i) attritional_claims.

Definition filter_step (segment_df : list ClaimRecord) (i : nat)
    (sets : list Transaction * list Transaction)
  : list Transaction * list Transaction :=
  let attritional_claims := sort_values segment_df in
  let one_percent_index := cut_index (length attritional_claims) i in
  let attritional_claims := iloc_from one_percent_index attritional_claims in
  if 0 <? one_percent_index
  then (merge_on_claim_id sets.1 (claim_id <$> attritional_claims),
        merge_on_claim_id sets.2 (claim_id <$> attritional_claims))
  else sets.

Definition sweep_body (segment_df : list ClaimRecord) (i : nat)
    (st : loop_state) : result loop_state :=
  let sets := filter_step segment_df i (segment_paid st, segment_ocr st) in
  m ← adapt sets.1 sets.2;
  mret {| segment_paid := sets.1;
          segment_ocr := sets.2;
          claims_percentage := claims_percentage st ++ [percentage_at i];
          mack_mse := mack_mse st ++ [m];
          one_percent_index :=
            cut_index (length (sort_values segment_df)) i;
          attritional_claims := retained segment_df i |}.

(** What one pass of the segment loop leaves behind. *)
Record segment_run : Type := mkRun {
  run_state : loop_state;
  max_drop_index : nat;
  largest_drop : option Q;
  threshold : Q;
  large_claims : list ClaimRecord
}.

Definition segment_rows {A : Type} (seg_of : A → string) (seg : string)
    (rows : list A) : list A :=
  filter (λ r, seg_of r = seg) rows.

Definition run_segment (combined_df : list ClaimRecord)
    (paid_data ocr_data : list Transaction) (seg : string)
  : result segment_run :=
  let segment_df := segment_rows segment seg combined_df in
  let init := {| segment_paid := segment_rows t_segment seg paid_data;
                 segment_ocr := segment_rows t_segment seg ocr_data;
                 claims_percentage := [];
                 mack_mse := [];
                 one_percent_index := 0;
                 attritional_claims := [] |} in
  st ← for_each (sweep_body segment_df) (seq 0 (interval + 1)) init;
  k ← Detector.max_drop_index (mack_mse st);
  drop ← match Detector.mack_mse_diff (mack_mse st) !! k with
         | Some r => Ok r.2
         | None => Raise (KeyError "label not in index")
         end;
  v ← Detector.loc k (claims_percentage st);
  mret {| run_state := st;
          max_drop_index := k;
          largest_drop := drop;
          threshold := v;
          large_claims :=
            iloc_to (one_percent_index st) (sort_values segment_df) |}.

(** ** The loop over the segments *)

(** [for segment in segment_list[:4]: ...] with the dictionary
    [threshold_percentage] it fills; an exception ends the loop and leaves
    the dictionary as it stands. *)
Fixpoint segment_loop (combined_df : list ClaimRecord)
    (paid_data ocr_data : list Transaction) (segs : list string)
    (threshold_percentage : gmap string Q) : gmap string Q * option exn :=
  match segs with
  | [] => (threshold_percentage, None)
  | seg :: rest =>
      match run_segment combined_df paid_data ocr_data seg with
      | Ok r =>
          segment_loop combined_df paid_data ocr_data rest
            (<["Rwanda " +:+ seg := threshold r]> threshold_percentage)
      | Raise e => (threshold_percentage, Some e)
      end
  end.

(** [segment_list = ocr_claims["segment"].unique()] *)
Definition segment_list (ocr_data : list Transaction) : list string :=
  Aggregator.unique (segment <$> Aggregator.ocr_claims ocr_data).

Definition notebook (paid_data ocr_data : list Transaction)
  : gmap string Q * option exn :=
  segment_loop (Aggregator.combined_df ocr_data paid_data) paid_data ocr_data
    (take 4 (segment_list ocr_data)) ∅.

End Sweep.

(** ** What [sort_values] promises, and two routines that keep it *)

(** The same rows, by descending [gross_amount]. *)
Definition ge_gross (a b : ClaimRecord) : Prop :=
  gross_amount b ≤ gross_amount a.

Record sort_contract (sort : list ClaimRecord → list ClaimRecord) : Prop := {
  sort_perm : ∀ l, sort l ≡ₚ l;
  sort_sorted : ∀ l, Sorted ge_gross (sort l)
}.

#[global] Instance ge_gross_dec : RelDecision ge_gross.
Proof. intros a b. unfold ge_gross. apply _. Defined.

(** A stable sorting routine, and one that meets equal amounts in the
    opposite order. *)
Definition sort_merge (l : list ClaimRecord) : list ClaimRecord :=
  merge_sort ge_gross l.

Definition sort_reversing (l : list ClaimRecord) : list ClaimRecord :=
  merge_sort ge_gross (reverse l).

(** ** A stand-in for chainladder

    A triangle is the total of the value column over the rows that have a
    loss date, building one from no such row fails, and the only standard
    error reported is the combined total. *)
Definition stub_total (data : list Transaction) : Z :=
  Aggregator.SUM (t_gross <$> filter (λ t, is_Some (t_loss_date t)) data).

#[global] Instance stub : ChainLadder := {|
  Triangle := Z;
  Mack := Z;
  cl_Triangle data _ _ _ _ :=
    if decide (filter (λ t, is_Some (t_loss_date t)) data = [])
    then Raise (LibraryError "empty triangle")
    else Ok (stub_total data);
  grain t _ := Ok t;
  incr_to_cum t := Ok t;
  tri_add a b := Ok (a + b);
  Development_fit_transform _ t := Ok t;
  MackChainladder_fit t := Ok t;
  summary_Mack_Std_Err m := Ok [Some (inject_Z m)]
|}.

(** ** Sample frames *)

(** Ten motor claims, one paid row each but the first, reserves on two of
    them. *)
Definition motor_paid : list Transaction :=
  [mkTransaction "C01" "Motor" (Some 1) 5 600 600;
   mkTransaction "C01" "Motor" (Some 1) 95 400 400;
   mkTransaction "C02" "Motor" (Some 1) 7 100 100;
   mkTransaction "C03" "Motor" (Some 2) 100 90 90;
   mkTransaction "C04" "Motor" (Some 95) 100 80 80;
   mkTransaction "C05" "Motor" (Some 95) 190 70 70;
   mkTransaction "C06" "Motor" (Some 100) 190 60 60;
   mkTransaction "C07" "Motor" (Some 185) 190 50 50;
   mkTransaction "C08" "Motor" (Some 185) 280 40 40;
   mkTransaction "C09" "Motor" (Some 190) 280 30 30;
   mkTransaction "C10" "Motor" (Some 275) 280 20 20].

Definition motor_ocr : list Transaction :=
  [mkTransaction "C01" "Motor" (Some 1) 5 0 0;
   mkTransaction "C10" "Motor" (Some 275) 280 5 5;
   mkTransaction "C10" "Motor" (Some 275) 281 3 3].

(** Four fire claims; claim [X] was paid under two loss dates, so it has
    two aggregated rows.  In [fire_paid] both rows stay below the largest
    claim, in [fire_paid_top] one of them is the largest claim. *)
Definition fire_paid : list Transaction :=
  [mkTransaction "X" "Fire" (Some 10) 20 100 100;
   mkTransaction "X" "Fire" (Some 11) 25 90 90;
   mkTransaction "Y" "Fire" (Some 12) 30 500 500;
   mkTransaction "Z" "Fire" (Some 13) 40 80 80].

Definition fire_paid_top : list Transaction :=
  [mkTransaction "X" "Fire" (Some 10) 20 500 500;
   mkTransaction "X" "Fire" (Some 11) 25 90 90;
   mkTransaction "Y" "Fire" (Some 12) 30 100 100;
   mkTransaction "Z" "Fire" (Some 13) 40 80 80].

Definition fire_ocr : list Transaction :=
  [mkTransaction "Z" "Fire" (Some 13) 41 1 1].

(** The motor segment with a reserve on the largest claim only. *)
Definition motor_ocr_top : list Transaction :=
  [mkTransaction "C01" "Motor" (Some 1) 5 0 0].

(** [n] claims of one segment, amounts [n], [n - 1], ..., 1. *)
Definition numbered_claims (n : nat) : list ClaimRecord :=
  (λ k, mkClaim ("K" +:+ pretty k) "Motor" (Some 0) (Z.of_nat (n - k)) 0)
  <$> seq 0 n.

(** The motor segment with one more paid row, of a claim whose loss date
    is blank. *)
Definition motor_paid_blank : list Transaction :=
  mkTransaction "C99" "Motor" None 7 5000 5000 :: motor_paid.

(** Four cargo claims; [A] and [B] have the same gross amount, 100. *)
Definition cargo_paid : list Transaction :=
  [mkTransaction "A" "Cargo" (Some 1) 5 93 93;
   mkTransaction "B" "Cargo" (Some 2) 6 100 100;
   mkTransaction "C" "Cargo" (Some 3) 7 50 50;
   mkTransaction "D" "Cargo" (Some 4) 8 50 50].

Definition cargo_ocr : list Transaction :=
  [mkTransaction "A" "Cargo" (Some 1) 9 7 7;
   mkTransaction "A" "Cargo" (Some 1) 40 5 5;
   mkTransaction "C" "Cargo" (Some 3) 9 1 1].

(** Five segments, one claim each, with a paid and a reserve row. *)
Definition five_paid : list Transaction :=
  [mkTransaction "M1" "Motor" (Some 1) 5 10 10;
   mkTransaction "F1" "Fire" (Some 1) 5 20 20;
   mkTransaction "C1" "Cargo" (Some 1) 5 30 30;
   mkTransaction "H1" "Health" (Some 1) 5 40 40;
   mkTransaction "T1" "Travel" (Some 1) 5 50 50].

Definition five_ocr : list Transaction :=
  [mkTransaction "M1" "Motor" (Some 1) 6 1 1;
   mkTransaction "F1" "Fire" (Some 1) 6 2 2;
   mkTransaction "C1" "Cargo" (Some 1) 6 3 3;
   mkTransaction "H1" "Health" (Some 1) 6 4 4;
   mkTransaction "T1" "Travel" (Some 1) 6 5 5].

(** ** Vocabulary of the statements *)

(** A row with a usable loss date. *)
Definition has_loss_date (t : Transaction) : Prop := is_Some (t_loss_date t).

(** Total paid and largest reserve seen under one grouping key; both are
    0 when no row has the key. *)
Definition paid_total (k : Aggregator.key) (paid_data : list Transaction)
  : Z :=
  Aggregator.SUM (t_gross <$> filter (λ t, Aggregator.txn_key t = k) paid_data).

Definition max_reserve (k : Aggregator.key) (ocr_data : list Transaction)
  : Z :=
  Aggregator.MAX (t_gross <$> filter (λ t, Aggregator.txn_key t = k) ocr_data).

(** A triangle builder that leaves out the rows whose origin date is
    blank: what the notebook reports of chainladder ("instances where a
    loss date was blank resulted in the data being removed from the
    triangle"). *)
Definition drops_blank_origin `{CL : ChainLadder} : Prop :=
  ∀ data origin development columns cumulative,
    cl_Triangle data origin development columns cumulative
    = cl_Triangle (filter has_loss_date data) origin development columns
        cumulative.

(** A triangle builder for which the order of the data rows is
    immaterial. *)
Definition order_insensitive `{CL : ChainLadder} : Prop :=
  ∀ data data' origin development columns cumulative,
    data ≡ₚ data' →
    cl_Triangle data origin development columns cumulative
    = cl_Triangle data' origin development columns cumulative.

(** Two loop states that differ in the row order of their frames only. *)
Definition same_rows (st st' : loop_state) : Prop :=
  segment_paid st ≡ₚ segment_paid st'
  ∧ segment_ocr st ≡ₚ segment_ocr st'
  ∧ claims_percentage st = claims_percentage st'
  ∧ mack_mse st = mack_mse st'
  ∧ one_percent_index st = one_percent_index st'
  ∧ attritional_claims st = attritional_claims st'.

(** Two outcomes of a pass that agree on all but the row order of the
    frames. *)
Definition same_outcome (o o' : result segment_run) : Prop :=
  match o, o' with
  | Ok r, Ok r' =>
      same_rows (run_state r) (run_state r')
      ∧ max_drop_index r = max_drop_index r'
      ∧ largest_drop r = largest_drop r'
      ∧ threshold r = threshold r'
      ∧ large_claims r = large_claims r'
  | Raise e, Raise e' => e = e'
  | _, _ => False
  end.

(** A loop state, and the record of a pass, with the rows without a loss
    date taken out of the two frames. *)
Definition without_blank (st : loop_state) : loop_state :=
  {| segment_paid := filter has_loss_date (segment_paid st);
     segment_ocr := filter has_loss_date (segment_ocr st);
     claims_percentage := claims_percentage st;
     mack_mse := mack_mse st;
     one_percent_index := one_percent_index st;
     attritional_claims := attritional_claims st |}.

Definition run_without_blank (r : segment_run) : segment_run :=
  {| run_state := without_blank (run_state r);
     max_drop_index := max_drop_index r;
     largest_drop := largest_drop r;
     threshold := threshold r;
     large_claims := large_claims r |}.

(** The paid and OCR frames handed to the triangles at step [i]: the
    frames of the segment after the merges of steps [0 .. i]. *)
Definition sets_at (sort_values : list ClaimRecord → list ClaimRecord)
    (segment_df : list ClaimRecord)
    (sets0 : list Transaction * list Transaction) (i : nat)
  : list Transaction * list Transaction :=
  foldl (λ s j, filter_step sort_values segment_df j s) sets0 (seq 0 (S i)).

(** Each row repeated as often as [m] says for its claim id. *)
Definition repeat_rows (m : string → nat) (rows : list Transaction)
  : list Transaction :=
  t ← rows; replicate (m (t_claim_id t)) t.

(** Number of copies of a row of claim [c] that the merge of step [j]
    makes (one when the step does not merge). *)
Definition step_factor (sort_values : list ClaimRecord → list ClaimRecord)
    (segment_df : list ClaimRecord) (j : nat) (c : string) : nat :=
  if 0 <? cut_index (length (sort_values segment_df)) j
  then matches (claim_id <$> retained sort_values segment_df j) c
  else 1%nat.

(** Product of the factors of steps [0 .. i]. *)
Fixpoint copies (sort_values : list ClaimRecord → list ClaimRecord)
    (segment_df : list ClaimRecord) (i : nat) (c : string) : nat :=
  match i with
  | O => step_factor sort_values segment_df 0 c
  | S i' => (copies sort_values segment_df i' c
             * step_factor sort_values segment_df i c)%nat
  end.

(** The boundary adapter as the contract lists it: a paid triangle built
    from incremental values and made cumulative at quarterly grain, an OCR
    triangle built from cumulative values at the same grain, their sum, a
    volume-weighted development fit, the Mack fit, and the total of the
    standard-error column. *)
Definition adapter_spec `{CL : ChainLadder} (paid ocr : list Transaction)
    (metric : Q) : Prop :=
  ∃ (raw_paid quarterly_paid paid_triangle raw_ocr ocr_triangle
       combined developed : Triangle) (mack : Mack)
    (std_err : list (option Q)),
    cl_Triangle paid "loss_date" "transaction_date" ["gross_paid"] false
      = Ok raw_paid
    ∧ grain raw_paid "OQDQ" = Ok quarterly_paid
    ∧ incr_to_cum quarterly_paid = Ok paid_triangle
    ∧ cl_Triangle ocr "loss_date" "transaction_date" ["gross_ocr"] true
      = Ok raw_ocr
    ∧ grain raw_ocr "OQDQ" = Ok ocr_triangle
    ∧ tri_add paid_triangle ocr_triangle = Ok combined
    ∧ Development_fit_transform "volume" combined = Ok developed
    ∧ MackChainladder_fit developed = Ok mack
    ∧ summary_Mack_Std_Err mack = Ok std_err
    ∧ metric = sum_skipna std_err.

(** ** The half-percent cut of the whole frame

    The cell after the segment loop sorts [combined_df] and leaves out its
    first half percent of rows. *)

(** The literal [0.005]: 0x1.47ae147ae147bp-8. *)
Definition lit_0_005 : F64.t := F64.mk 5764607523034235 (-60).

(** [int(len(ordered_df) * 0.005)] *)
Definition half_percent_index (len : nat) : Z :=
  F64.to_int (F64.mul (F64.of_int (Z.of_nat len)) lit_0_005).

(** [ordered_df = combined_df.sort_values(by='gross_amount', ascending=False)]
    [ordered_df = ordered_df.iloc[one_percent_index:]] *)
Definition ordered_df (sort_values : list ClaimRecord → list ClaimRecord)
    (combined_df : list ClaimRecord) : list ClaimRecord :=
  let ordered_df := sort_values combined_df in
  iloc_from (half_percent_index (length ordered_df)) ordered_df.

(** ** Ingestion of the claim sheets

    The cells that read the paid and the OCR sheet rename the columns by
    position, put the segment labels in title case and, for the OCR sheet,
    give every claim the loss date of its earliest transaction. *)

Module Ingest.

(** *** [Series.str.title()]

    Python's [str.title]: a cased character is made upper case when the
    character before it is not cased (or there is none), lower case
    otherwise.  Written for ASCII text, where the cased characters are the
    letters [a-z] and [A-Z]. *)

(** Text within ASCII. *)
Fixpoint is_ascii (s : string) : bool :=
  match s with
  | EmptyString => true
  | String c r => (Ascii.N_of_ascii c <? 128)%N && is_ascii r
  end.

Definition is_lower (c : Ascii.ascii) : bool :=
  ((97 <=? Ascii.N_of_ascii c) && (Ascii.N_of_ascii c <=? 122))%N.

Definition is_upper (c : Ascii.ascii) : bool :=
  ((65 <=? Ascii.N_of_ascii c) && (Ascii.N_of_ascii c <=? 90))%N.

Definition is_cased (c : Ascii.ascii) : bool := is_lower c || is_upper c.

Definition to_upper (c : Ascii.ascii) : Ascii.ascii :=
  if is_lower c then Ascii.ascii_of_N (Ascii.N_of_ascii c - 32) else c.

Definition to_lower (c : Ascii.ascii) : Ascii.ascii :=
  if is_upper c then Ascii.ascii_of_N (Ascii.N_of_ascii c + 32) else c.

Fixpoint title_from (previous_is_cased : bool) (s : string) : string :=
  match s with
  | EmptyString => EmptyString
  | String c r =>
      String (if previous_is_cased then to_lower c else to_upper c)
        (title_from (is_cased c) r)
  end.

Definition title (s : string) : string := title_from false s.

(** [str.lower()], ASCII. *)
Fixpoint lower (s : string) : string :=
  match s with
  | EmptyString => EmptyString
  | String c r => String (to_lower c) (lower r)
  end.

Definition set_segment (s : string) (t : Transaction) : Transaction :=
  mkTransaction (t_claim_id t) s (t_loss_date t) (t_transaction_date t)
    (t_gross t) (t_net t).

(** [df['segment'] = df['segment'].str.title()] *)
Definition title_segments (rows : list Transaction) : list Transaction :=
  (λ t, set_segment (title (t_segment t)) t) <$> rows.

(** *** The loss date of the earliest transaction *)

(** Row order of [sort_values(by=['claim_id', 'transaction_date'])]. *)
Definition claim_date_leb (a b : Transaction) : bool :=
  if decide (t_claim_id a = t_claim_id b)
  then t_transaction_date a <=? t_transaction_date b
  else String.leb (t_claim_id a) (t_claim_id b).

Definition claim_date_le (a b : Transaction) : Prop :=
  claim_date_leb a b = true.

#[global] Instance claim_date_le_dec : RelDecision claim_date_le.
Proof. intros a b. unfold claim_date_le. apply _. Defined.

(** [df.drop_duplicates(subset=[key], keep='first')] *)
Fixpoint drop_duplicates {A K : Type} `{EqDecision K} (key : A → K)
    (l : list A) : list A :=
  match l with
  | [] => []
  | x :: r => x :: filter (λ y, key y ≠ key x) (drop_duplicates key r)
  end.

Definition set_loss_date (d : option Z) (t : Transaction) : Transaction :=
  mkTransaction (t_claim_id t) (t_segment t) d (t_transaction_date t)
    (t_gross t) (t_net t).

(** [left.drop(columns=["loss_date"]).merge(right, how="left",
    on=["claim_id"])]: each left row, in order, once per right row with its
    claim id and with the loss date of that row; a left row without a match
    is kept with a blank loss date. *)
Definition merge_left (left : list Transaction)
    (right : list (string * option Z)) : list Transaction :=
  t ← left;
  match filter (λ r, r.1 = t_claim_id t) right with
  | [] => [set_loss_date None t]
  | ms => (λ r, set_loss_date r.2 t) <$> ms
  end.

Section LossDates.

(** The sort on the two columns; its contract is [rows_sort_contract]. *)
Variable sort_rows : list Transaction → list Transaction.

(** [ocr_data.sort_values(by=['claim_id', 'transaction_date'])
      .drop_duplicates(subset=['claim_id'], keep='first')
      [["claim_id", "loss_date"]]] *)
Definition ocr_data_sorted (ocr_data : list Transaction)
  : list (string * option Z) :=
  (λ t, (t_claim_id t, t_loss_date t))
  <$> drop_duplicates t_claim_id (sort_rows ocr_data).

(** [ocr_data = ocr_data.drop(columns=["loss_date"])
      .merge(ocr_data_sorted, how="left", on=["claim_id"])] *)
Definition correct_loss_dates (ocr_data : list Transaction)
  : list Transaction :=
  merge_left ocr_data (ocr_data_sorted ocr_data).

End LossDates.

(** The same rows, by claim id and then transaction date. *)
Record rows_sort_contract (sort : list Transaction → list Transaction)
  : Prop := {
  rows_sort_perm : ∀ l, sort l ≡ₚ l;
  rows_sort_sorted : ∀ l, Sorted claim_date_le (sort l)
}.

Definition sort_rows_merge (l : list Transaction) : list Transaction :=
  merge_sort claim_date_le l.

(** The loss date the correction gives to claim [c]: that of the first row
    of the claim in the sorted frame. *)
Definition earliest_loss_date
    (sort_rows : list Transaction → list Transaction)
    (ocr_data : list Transaction) (c : string) : option Z :=
  t ← head (filter (λ t, t_claim_id t = c) (sort_rows ocr_data));
  t_loss_date t.

(** *** The check on blank loss dates

    [SELECT segment,
       SUM(CASE WHEN loss_date IS NULL THEN gross_ocr ELSE 0 END),
       SUM(CASE WHEN loss_date IS NOT NULL THEN gross_ocr ELSE 0 END),
       SUM(CASE WHEN loss_date IS NULL THEN gross_ocr ELSE 0 END) * 1.0
         / SUM(gross_ocr)
     FROM ocr_claims GROUP BY segment];
    a division by zero is NULL in SQLite; the quotient is read as an exact
    rational. *)
Record blank_row : Type := mkBlankRow {
  blank_segment : string;
  ocr_amount_blank_loss_date : Z;
  ocr_amount_non_blank_loss_date : Z;
  proportion_blank_to_all : option Q
}.

Definition string_le (a b : string) : Prop := String.leb a b = true.

#[global] Instance string_le_dec : RelDecision string_le.
Proof. intros a b. unfold string_le. apply _. Defined.

Definition blank_row_of (ocr_data : list Transaction) (seg : string)
  : blank_row :=
  let g := filter (λ t, t_segment t = seg) ocr_data in
  let blank :=
    Aggregator.SUM
      ((λ t, match t_loss_date t with None => t_gross t | Some _ => 0 end)
       <$> g) in
  let non_blank :=
    Aggregator.SUM
      ((λ t, match t_loss_date t with Some _ => t_gross t | None => 0 end)
       <$> g) in
  let total := Aggregator.SUM (t_gross <$> g) in
  {| blank_segment := seg;
     ocr_amount_blank_loss_date := blank;
     ocr_amount_non_blank_loss_date := non_blank;
     proportion_blank_to_all :=
       if decide (total = 0) then None
       else Some (inject_Z blank * 1 / inject_Z total)%Q |}.

Definition blank_loss_date_report (ocr_data : list Transaction)
  : list blank_row :=
  blank_row_of ocr_data
  <$> merge_sort string_le (Aggregator.unique (t_segment <$> ocr_data)).

End Ingest.

(** ** From the sheets to the thresholds

    The cells from the reading of the two claim sheets to the segment
    loop, on the rows as read. *)
Definition pipeline `{CL : ChainLadder}
    (sort_rows : list Transaction → list Transaction)
    (sort_values : list ClaimRecord → list ClaimRecord)
    (paid_sheet ocr_sheet : list Transaction)
  : gmap string Q * option exn :=
  let paid_data := Ingest.title_segments paid_sheet in
  let ocr_data :=
    Ingest.correct_loss_dates sort_rows (Ingest.title_segments ocr_sheet) in
  notebook sort_values paid_data ocr_data.

(** Two sheets that differ in the letter case of their segment labels
    only. *)
Definition same_up_to_case (rows rows' : list Transaction) : Prop :=
  Forall2 (λ t t',
    Ingest.set_segment EmptyString t = Ingest.set_segment EmptyString t'
    ∧ Ingest.lower (t_segment t) = Ingest.lower (t_segment t')) rows rows'.

(** An OCR sheet as read: claim [L1] has a later loss date on its later
    rows, the earliest row of claim [L2] has no loss date, and the labels
    come in several letter cases. *)
Definition ocr_sheet : list Transaction :=
  [mkTransaction "L1" "MOTOR" (Some 12) 40 70 70;
   mkTransaction "L1" "motor" (Some 10) 20 100 100;
   mkTransaction "L2" "Fire" None 25 30 30;
   mkTransaction "L1" "Motor" (Some 12) 30 90 90;
   mkTransaction "L2" "fire" (Some 7) 26 20 20].

(** A paid sheet as read, and a sheet with its labels in lower case. *)
Definition paid_sheet : list Transaction :=
  [mkTransaction "L1" "motor" (Some 10) 25 50 50;
   mkTransaction "L2" "FIRE" (Some 7) 30 20 20;
   mkTransaction "L3" "Motor" (Some 11) 28 400 400].

Definition lower_segments (rows : list Transaction) : list Transaction :=
  (λ t, Ingest.set_segment (Ingest.lower (t_segment t)) t) <$> rows.

(** ** The earned premium sheets

    The two premium sheets are read wide (a column of accident periods and
    one column per segment), melted to one row per period and segment,
    their segment labels put in title case, and merged on period and
    segment; two assertions compare the row counts. *)

Module Premiums.

(** A sheet as read, without the two unnamed columns: the column
    [Accident Period] and the segment columns, each with its header; an
    empty cell is [None]. *)
Record sheet : Type := mkSheet {
  accident_period : list Z;
  segment_columns : list (string * list (option Z))
}.

(** A row of [gep_data] or [nep_data]: [loss_date], [segment] and the
    premium ([gep] or [nep]). *)
Record premium : Type := mkPremium {
  p_loss_date : Z;
  p_segment : string;
  p_amount : option Z
}.

(** A row of [combined_ep]. *)
Record combined_premium : Type := mkCombined {
  ep_loss_date : Z;
  ep_segment : string;
  gep : option Z;
  nep : option Z
}.

(** [pd.melt(df, id_vars=["Accident Period"], var_name="Segment",
    value_name=...)]: the segment columns one after the other, each paired
    with the accident periods. *)
Definition melt (s : sheet) : list premium :=
  col ← segment_columns s;
  imap (λ i p, mkPremium p col.1 (mjoin (col.2 !! i))) (accident_period s).

(** [df['Segment'] = df['Segment'].str.title()] and the renaming of the
    columns. *)
Definition ep_data (s : sheet) : list premium :=
  (λ p, mkPremium (p_loss_date p) (Ingest.title (p_segment p)) (p_amount p))
  <$> melt s.

Definition ep_key (p : premium) : Z * string := (p_loss_date p, p_segment p).

(** [gep_data.merge(nep_data, on=["loss_date", "segment"])]: inner join,
    left order kept. *)
Definition merge_ep (gep_data nep_data : list premium)
  : list combined_premium :=
  g ← gep_data;
  (λ n, mkCombined (p_loss_date g) (p_segment g) (p_amount g) (p_amount n))
  <$> filter (λ n, ep_key n = ep_key g) nep_data.

(** The cell that combines the two frames; [None] stands for the
    [AssertionError] of either assertion.
    [assert gep_data.shape == nep_data.shape]
    [assert gep_data.shape[0] == combined_ep.shape[0]] *)
Definition combined_ep (gep_data nep_data : list premium)
  : option (list combined_premium) :=
  let combined_ep := merge_ep gep_data nep_data in
  if decide (length gep_data = length nep_data)
  then if decide (length gep_data = length combined_ep)
       then Some combined_ep else None
  else None.

(** The gross and the net sheet of two periods and two segments. *)
Definition gep_sheet : sheet :=
  mkSheet [202301; 202302]
    [("MOTOR", [Some 100; Some 110]); ("fire", [Some 40; None])].

Definition nep_sheet : sheet :=
  mkSheet [202302; 202301]
    [("Fire", [Some 3; Some 35]); ("Motor", [Some 90; Some 80])].

End Premiums.

(** * Properties *)

(** ** The drop detector *)

Module DetectorFacts.
Import Detector.

Lemma abs_cons (i : nat) (x : option Q) (s : Series) :
  abs ((i, x) :: s) = (i, Qabs <$> x) :: abs s.
Proof. reflexivity. Qed.

Lemma diff_from_cons (prev : option Q) (i : nat) (x : Q) (s : Series) :
  diff_from prev ((i, Some x) :: s)
  = (i, (λ b, (x - b)%Q) <$> prev) :: diff_from (Some x) s.
Proof. by destruct prev. Qed.

(** The series searched by [idxmax]: labels [1 .. n-1], each with the
    absolute change of the metric at that label. *)
Lemma diff_tail (pre : list Q) (p : Q) (l : list Q) :
  abs (diff_from (Some p)
         (imap (λ i x, (length pre + 1 + i, Some x)%nat) l))
  = (λ k, (k, Some (delta (pre ++ p :: l) k)))
      <$> seq (length pre + 1) (length l).
Proof.
  revert pre p. induction l as [|x l IH]; intros pre p; [done|].
  rewrite imap_cons, diff_from_cons, abs_cons.
  cbn [length seq]. rewrite fmap_cons. f_equal.
  - rewrite Nat.add_0_r. f_equal. cbn [fmap option_fmap option_map].
    f_equal. unfold delta.
    rewrite (app_nth2 pre) by lia.
    replace (length pre + 1 - length pre)%nat with 1%nat by lia.
    replace (length pre + 1 - 1)%nat with (length pre) by lia.
    rewrite (app_nth2 pre) by lia. by rewrite Nat.sub_diag.
  - specialize (IH (pre ++ [p]) x).
    rewrite length_app in IH. cbn [length] in IH.
    rewrite <- (assoc_L (++)) in IH. cbn [app] in IH.
    replace (S (length pre + 1)) with (length pre + 1 + 1)%nat by lia.
    rewrite <- IH. f_equal. f_equal.
    apply imap_ext. intros i y _. cbn. f_equal. lia.
Qed.

Lemma searched_series (m : Q) (l : list Q) :
  from_1 (mack_mse_diff (m :: l))
  = (λ k, (k, Some (delta (m :: l) k))) <$> seq 1 (length l).
Proof.
  unfold from_1, mack_mse_diff, diff, column.
  rewrite imap_cons, diff_from_cons, abs_cons. cbn [drop].
  apply (diff_tail [] m l).
Qed.

(** [idxmax_from] returns the first label whose value is not exceeded. *)
Lemma idxmax_from_split (d : nat → Q) (ks : list nat) (best r : nat) :
  idxmax_from best (d best) ((λ k, (k, Some (d k))) <$> ks) = r →
  ∃ pre post,
    best :: ks = pre ++ r :: post
    ∧ (∀ k, k ∈ pre → (d k < d r)%Q)
    ∧ (∀ k, k ∈ post → (d k <= d r)%Q).
Proof.
  revert best r. induction ks as [|i ks IH]; intros best r Hr.
  - cbn in Hr. subst r. exists [], [].
    split; [done|]. split; intros k Hk; inv Hk.
  - rewrite fmap_cons in Hr. cbn [idxmax_from] in Hr.
    destruct (d best ?= d i)%Q eqn:Hc.
    + apply Qeq_alt in Hc.
      destruct (IH best r Hr) as (pre & post & Heq & Hpre & Hpost); clear Hr.
      destruct pre as [|b pre]; cbn [app] in Heq;
        injection Heq as Hb Hks.
      * exists [], (i :: ks). subst r. split; [done|].
        split; [intros k Hk; inv Hk|].
        intros k Hk. apply elem_of_cons in Hk as [->|Hk].
        -- rewrite Hc. apply Qle_refl.
        -- apply Hpost. by rewrite <- Hks.
      * exists (b :: i :: pre), post. subst b.
        split; [cbn; by rewrite Hks|]. split; [|done].
        intros k Hk. apply elem_of_cons in Hk as [->|Hk]; [apply Hpre; left|].
        apply elem_of_cons in Hk as [->|Hk]; [|apply Hpre; by right].
        rewrite <- Hc. apply Hpre. left.
    + apply Qlt_alt in Hc.
      destruct (IH i r Hr) as (pre & post & Heq & Hpre & Hpost); clear Hr.
      exists (best :: pre), post. split; [cbn; by rewrite Heq|].
      split; [|done].
      intros k Hk. apply elem_of_cons in Hk as [->|Hk]; [|by apply Hpre].
      destruct pre as [|b pre]; cbn [app] in Heq;
        injection Heq as Hb Hks.
      * by subst r.
      * subst b. eapply Qlt_trans; [exact Hc|]. apply Hpre. left.
    + apply Qgt_alt in Hc.
      destruct (IH best r Hr) as (pre & post & Heq & Hpre & Hpost); clear Hr.
      destruct pre as [|b pre]; cbn [app] in Heq;
        injection Heq as Hb Hks.
      * exists [], (i :: ks). subst r. split; [done|].
        split; [intros k Hk; inv Hk|].
        intros k Hk. apply elem_of_cons in Hk as [->|Hk].
        -- by apply Qlt_le_weak.
        -- apply Hpost. by rewrite <- Hks.
      * exists (b :: i :: pre), post. subst b.
        split; [cbn; by rewrite Hks|]. split; [|done].
        intros k Hk. apply elem_of_cons in Hk as [->|Hk]; [apply Hpre; left|].
        apply elem_of_cons in Hk as [->|Hk]; [|apply Hpre; by right].
        eapply Qlt_trans; [exact Hc|]. apply Hpre. left.
Qed.

(** A split of [seq] fixes both halves. *)
Lemma seq_split (a n : nat) (pre post : list nat) (k : nat) :
  seq a n = pre ++ k :: post →
  (a ≤ k < a + n)%nat
  ∧ (∀ j, (a ≤ j < k)%nat → j ∈ pre)
  ∧ (∀ j, (k < j < a + n)%nat → j ∈ post).
Proof.
  intros Heq.
  assert (Hk : k ∈ seq a n) by (rewrite Heq; set_solver).
  apply elem_of_seq in Hk.
  assert (Hnd : NoDup (pre ++ k :: post)) by (rewrite <- Heq; apply NoDup_seq).
  assert (Hs : StronglySorted lt (seq a n)).
  { clear. revert a. induction n; intros a; simpl; constructor; auto.
    apply Forall_forall. intros x Hx. apply elem_of_seq in Hx. lia. }
  rewrite Heq in Hs.
  apply StronglySorted_app in Hs as (Hs3 & Hs1 & Hs2).
  apply StronglySorted_inv in Hs2 as [_ Hs2]. rewrite Forall_forall in Hs2.
  split; [lia|]. split; intros j Hj.
  - assert (Hin : j ∈ pre ++ k :: post)
      by (rewrite <- Heq; apply elem_of_seq; lia).
    apply elem_of_app in Hin as [|Hin]; [done|].
    inv Hin; [lia|]. specialize (Hs2 _ H1). lia.
  - assert (Hin : j ∈ pre ++ k :: post)
      by (rewrite <- Heq; apply elem_of_seq; lia).
    apply elem_of_app in Hin as [Hin|Hin].
    + assert (Hkk : k ∈ k :: post) by left.
      specialize (Hs3 _ _ Hin Hkk). lia.
    + inv Hin; [lia|done].
Qed.

(** The index chosen: it exists for two points or more, is never the first
    point, and is the first at which the change is largest. *)
Lemma max_drop_index_spec (mack_mse : list Q) :
  (2 ≤ length mack_mse)%nat →
  ∃ k,
    max_drop_index mack_mse = Ok k
    ∧ (1 ≤ k < length mack_mse)%nat
    ∧ (∀ j, (1 ≤ j < length mack_mse)%nat →
         (delta mack_mse j <= delta mack_mse k)%Q)
    ∧ (∀ j, (1 ≤ j < k)%nat → (delta mack_mse j < delta mack_mse k)%Q).
Proof.
  intros Hn.
  destruct mack_mse as [|m [|m1 l]]; cbn [length] in Hn; try lia.
  set (mm := m :: m1 :: l) in *.
  set (r := idxmax_from 1 (delta mm 1)
              ((λ k, (k, Some (delta mm k))) <$> seq 2 (length l))).
  assert (Hidx : max_drop_index mm = Ok r).
  { unfold max_drop_index, mm. rewrite searched_series. reflexivity. }
  destruct (idxmax_from_split (delta mm) (seq 2 (length l)) 1 r eq_refl)
    as (pre & post & Heq & Hpre & Hpost).
  change (1%nat :: seq 2 (length l)) with (seq 1 (S (length l))) in Heq.
  apply seq_split in Heq as (Hr & Hbefore & Hafter).
  assert (Hlen' : length mm = S (S (length l))) by reflexivity.
  exists r. split; [done|]. split; [lia|]. split.
  - intros j Hj. destruct (decide (j < r)%nat) as [Hlt|Hge].
    + apply Qlt_le_weak, Hpre, Hbefore. lia.
    + destruct (decide (j = r)) as [->|Hne]; [apply Qle_refl|].
      apply Hpost, Hafter. lia.
  - intros j Hj. apply Hpre, Hbefore. lia.
Qed.

End DetectorFacts.



(** ** The sweep loop *)

Lemma bind_Ok {A B : Type} (m : result A) (k : A → result B) (b : B) :
  (m ≫= k) = Ok b ↔ ∃ a, m = Ok a ∧ k a = Ok b.
Proof.
  destruct m as [a|e]; cbn; split.
  - intros H. by exists a.
  - by intros (a' & [= ->] & H).
  - done.
  - by intros (a' & [=] & H).
Qed.

Lemma foldl_seq_cons {S : Type} (f : S → nat → S) (s : S) (a n : nat) :
  foldl f s (seq a (Datatypes.S n)) = foldl f (f s a) (seq (Datatypes.S a) n).
Proof. reflexivity. Qed.

Lemma foldl_seq_nil {S : Type} (f : S → nat → S) (s : S) (a : nat) :
  foldl f s (seq a 0) = s.
Proof. reflexivity. Qed.

Section SweepFacts.

Context `{CL : ChainLadder}.
Variable sort_values : list ClaimRecord → list ClaimRecord.
Variable segment_df : list ClaimRecord.

#[local] Abbreviation step := (filter_step sort_values segment_df).
#[local] Abbreviation body := (sweep_body sort_values segment_df).

Lemma adapt_spec (paid ocr : list Transaction) (m : Q) :
  adapt paid ocr = Ok m ↔ adapter_spec paid ocr m.
Proof.
  unfold adapt, adapter_spec. split.
  - intros H.
    apply bind_Ok in H as (t1 & H1 & H). apply bind_Ok in H as (t2 & H2 & H).
    apply bind_Ok in H as (t3 & H3 & H). apply bind_Ok in H as (t4 & H4 & H).
    apply bind_Ok in H as (t5 & H5 & H). apply bind_Ok in H as (t6 & H6 & H).
    apply bind_Ok in H as (t7 & H7 & H). apply bind_Ok in H as (t8 & H8 & H).
    apply bind_Ok in H as (t9 & H9 & H). injection H as <-.
    exists t1, t2, t3, t4, t5, t6, t7, t8, t9. done.
  - intros (t1 & t2 & t3 & t4 & t5 & t6 & t7 & t8 & t9
            & H1 & H2 & H3 & H4 & H5 & H6 & H7 & H8 & H9 & ->).
    rewrite H1. cbn. rewrite H2. cbn. rewrite H3. cbn. rewrite H4. cbn.
    rewrite H5. cbn. rewrite H6. cbn. rewrite H7. cbn. rewrite H8. cbn.
    rewrite H9. reflexivity.
Qed.

Lemma sets_at_0 (sets0 : list Transaction * list Transaction) :
  sets_at sort_values segment_df sets0 0 = step 0%nat sets0.
Proof. reflexivity. Qed.

Lemma sets_at_S (sets0 : list Transaction * list Transaction) (i : nat) :
  sets_at sort_values segment_df sets0 (S i)
  = step (S i) (sets_at sort_values segment_df sets0 i).
Proof.
  unfold sets_at. rewrite (seq_S (S i)), foldl_app. reflexivity.
Qed.

Lemma sweep_body_eq (i : nat) (st : loop_state) :
  body i st
  = m ← adapt (step i (segment_paid st, segment_ocr st)).1
              (step i (segment_paid st, segment_ocr st)).2;
    Ok {| segment_paid := (step i (segment_paid st, segment_ocr st)).1;
          segment_ocr := (step i (segment_paid st, segment_ocr st)).2;
          claims_percentage := claims_percentage st ++ [percentage_at i];
          mack_mse := mack_mse st ++ [m];
          one_percent_index :=
            cut_index (length (sort_values segment_df)) i;
          attritional_claims := retained sort_values segment_df i |}.
Proof. reflexivity. Qed.

Lemma sweep_body_inv (i : nat) (st st1 : loop_state) :
  body i st = Ok st1 →
  ∃ m,
    adapt (step i (segment_paid st, segment_ocr st)).1
          (step i (segment_paid st, segment_ocr st)).2 = Ok m
    ∧ (segment_paid st1, segment_ocr st1)
      = step i (segment_paid st, segment_ocr st)
    ∧ claims_percentage st1 = claims_percentage st ++ [percentage_at i]
    ∧ mack_mse st1 = mack_mse st ++ [m].
Proof.
  rewrite sweep_body_eq. intros H.
  destruct (adapt _ _) as [m|e]; [|done].
  cbn [mbind result_bind] in H. injection H as <-. exists m.
  cbn [segment_paid segment_ocr claims_percentage mack_mse].
  by rewrite <- surjective_pairing.
Qed.

(** One run of the loop from index [a]: what the state holds when the
    loop ends without an exception. *)
Lemma for_each_body_Ok (n a : nat) (st0 st : loop_state) :
  for_each body (seq a n) st0 = Ok st →
  (segment_paid st, segment_ocr st)
    = foldl (λ s j, step j s) (segment_paid st0, segment_ocr st0) (seq a n)
  ∧ claims_percentage st
    = claims_percentage st0 ++ (percentage_at <$> seq a n)
  ∧ ∃ ms, mack_mse st = mack_mse st0 ++ ms
      ∧ length ms = n
      ∧ ∀ j, (j < n)%nat → ∃ m,
          ms !! j = Some m
          ∧ adapt
              (foldl (λ s j, step j s) (segment_paid st0, segment_ocr st0)
                 (seq a (S j))).1
              (foldl (λ s j, step j s) (segment_paid st0, segment_ocr st0)
                 (seq a (S j))).2 = Ok m.
Proof.
  revert a st0. induction n as [|n IH]; intros a st0 H.
  - cbn [seq for_each] in H. injection H as <-.
    rewrite foldl_seq_nil. cbn [seq fmap list_fmap]. rewrite !app_nil_r.
    split; [done|]. split; [done|]. exists []. rewrite app_nil_r.
    split; [done|]. split; [done|]. intros j Hj. lia.
  - cbn [seq for_each] in H. apply bind_Ok in H as (st1 & H1 & H).
    apply sweep_body_inv in H1 as (m & Hm & Hst1 & Hcp1 & Hms1).
    apply IH in H as (Hsets & Hcp & ms & Hms & Hlen & Hstep).
    rewrite Hst1 in Hsets, Hstep. rewrite Hcp1 in Hcp. rewrite Hms1 in Hms.
    split; [by rewrite foldl_seq_cons|]. split.
    { rewrite Hcp, <- (assoc_L (++)). reflexivity. }
    exists (m :: ms). split; [by rewrite Hms, <- (assoc_L (++))|].
    split; [cbn [length]; by rewrite Hlen|].
    intros [|j] Hj.
    + exists m. split; [done|].
      by rewrite foldl_seq_cons, foldl_seq_nil.
    + destruct (Hstep j) as (m' & Hl & Ha); [lia|].
      exists m'. split; [done|]. by rewrite foldl_seq_cons.
Qed.

Lemma sweep_body_Raise (i : nat) (st : loop_state) (e : exn) :
  adapt (step i (segment_paid st, segment_ocr st)).1
        (step i (segment_paid st, segment_ocr st)).2 = Raise e →
  body i st = Raise e.
Proof. intros H. by rewrite sweep_body_eq, H. Qed.

Lemma sweep_body_Ok (i : nat) (st : loop_state) (m : Q) :
  adapt (step i (segment_paid st, segment_ocr st)).1
        (step i (segment_paid st, segment_ocr st)).2 = Ok m →
  ∃ st', body i st = Ok st'
    ∧ (segment_paid st', segment_ocr st')
      = step i (segment_paid st, segment_ocr st).
Proof.
  intros H. rewrite sweep_body_eq, H. cbn [mbind result_bind].
  eexists. split; [reflexivity|].
  cbn [segment_paid segment_ocr]. by rewrite <- surjective_pairing.
Qed.

(** The loop stops at the first step whose triangles or fit raise. *)
Lemma for_each_body_Raise (n a i : nat) (st0 : loop_state) (e : exn) :
  (i < n)%nat →
  (∀ j, (j < i)%nat → ∃ m,
     adapt
       (foldl (λ s j, step j s) (segment_paid st0, segment_ocr st0)
          (seq a (S j))).1
       (foldl (λ s j, step j s) (segment_paid st0, segment_ocr st0)
          (seq a (S j))).2 = Ok m) →
  adapt
    (foldl (λ s j, step j s) (segment_paid st0, segment_ocr st0)
       (seq a (S i))).1
    (foldl (λ s j, step j s) (segment_paid st0, segment_ocr st0)
       (seq a (S i))).2 = Raise e →
  for_each body (seq a n) st0 = Raise e.
Proof.
  revert a i st0. induction n as [|n IH]; intros a i st0 Hi Hok Hbad; [lia|].
  cbn [seq for_each].
  destruct i as [|i].
  - rewrite foldl_seq_cons, foldl_seq_nil in Hbad.
    by rewrite (sweep_body_Raise _ _ _ Hbad).
  - destruct (Hok 0%nat) as (m & Hm); [lia|].
    rewrite foldl_seq_cons, foldl_seq_nil in Hm.
    destruct (sweep_body_Ok _ _ _ Hm) as (st' & -> & Hst').
    cbn [mbind result_bind].
    apply (IH (S a) i); [lia| |]; rewrite Hst'.
    + intros j Hj. destruct (Hok (S j)) as (m' & Hm'); [lia|].
      exists m'. by rewrite foldl_seq_cons in Hm'.
    + by rewrite foldl_seq_cons in Hbad.
Qed.

End SweepFacts.



(** ** Binary64 rounding and the row cut *)

Module F64Facts.
Import F64.

Lemma round53_small (m : Z) : m < 2 ^ 53 → round53 m = m.
Proof.
  intros H. unfold round53.
  destruct (decide (0 < m)) as [Hpos|Hneg].
  - assert (Z.log2 m < 53) by (apply Z.log2_lt_pow2; lia).
    case_match; [done|]. lia.
  - rewrite (Z.log2_nonpos m) by lia. reflexivity.
Qed.

Lemma nearest_even_range (q r half : Z) :
  q ≤ nearest_even q r half ≤ q + 1.
Proof. unfold nearest_even. repeat case_match; lia. Qed.

Lemma nearest_even_mono (q r r' half : Z) :
  r ≤ r' → nearest_even q r half ≤ nearest_even q r' half.
Proof. unfold nearest_even. intros H. repeat case_match; lia. Qed.

Lemma round53_big (m : Z) :
  2 ^ 53 ≤ m →
  let k := Z.log2 m - 52 in
  1 ≤ k
  ∧ 2 ^ 52 ≤ m / 2 ^ k < 2 ^ 53
  ∧ round53 m
    = nearest_even (m / 2 ^ k) (m mod 2 ^ k) (2 ^ (k - 1)) * 2 ^ k.
Proof.
  intros H k.
  assert (Hlog : 53 ≤ Z.log2 m) by (apply Z.log2_le_pow2; lia).
  assert (Hk : 1 ≤ k) by (unfold k; lia).
  destruct (Z.log2_spec m) as [Hlo Hhi]; [lia|].
  replace (Z.log2 m) with (52 + k) in Hlo by (unfold k; lia).
  replace (Z.succ (Z.log2 m)) with (53 + k) in Hhi by (unfold k; lia).
  rewrite Z.pow_add_r in Hlo, Hhi by lia.
  assert (HP : 0 < 2 ^ k) by (apply Z.pow_pos_nonneg; lia).
  split; [done|]. split.
  - split.
    + apply Z.div_le_lower_bound; lia.
    + apply Z.div_lt_upper_bound; lia.
  - unfold round53. fold k. case_match; [lia|]. reflexivity.
Qed.

Lemma round53_nonneg (m : Z) : 0 ≤ m → 0 ≤ round53 m.
Proof.
  intros H. destruct (decide (m < 2 ^ 53)) as [Hs|Hb].
  - by rewrite round53_small.
  - destruct (round53_big m) as (Hk & Hq & ->); [lia|].
    pose proof (nearest_even_range (m / 2 ^ (Z.log2 m - 52))
                  (m mod 2 ^ (Z.log2 m - 52)) (2 ^ (Z.log2 m - 52 - 1))).
    assert (0 < 2 ^ (Z.log2 m - 52)) by (apply Z.pow_pos_nonneg; lia).
    nia.
Qed.

(** Rounding to nearest is monotone. *)
Lemma round53_mono (m m' : Z) : 0 ≤ m → m ≤ m' → round53 m ≤ round53 m'.
Proof.
  intros H0 Hle.
  destruct (decide (m' < 2 ^ 53)) as [Hs'|Hb'].
  { rewrite !round53_small by lia. done. }
  destruct (round53_big m') as (Hk' & Hq' & E'); [lia|].
  set (k' := Z.log2 m' - 52) in *.
  pose proof (nearest_even_range (m' / 2 ^ k') (m' mod 2 ^ k')
                (2 ^ (k' - 1))) as Hn'.
  assert (HP' : 0 < 2 ^ k') by (apply Z.pow_pos_nonneg; lia).
  assert (Hlow' : 2 ^ 52 * 2 ^ k' ≤ round53 m') by (rewrite E'; nia).
  destruct (decide (m < 2 ^ 53)) as [Hs|Hb].
  { rewrite (round53_small m) by lia.
    assert (2 ^ 1 ≤ 2 ^ k') by (apply Z.pow_le_mono_r; lia). lia. }
  destruct (round53_big m) as (Hk & Hq & E); [lia|].
  set (k := Z.log2 m - 52) in *.
  pose proof (nearest_even_range (m / 2 ^ k) (m mod 2 ^ k)
                (2 ^ (k - 1))) as Hn.
  assert (HP : 0 < 2 ^ k) by (apply Z.pow_pos_nonneg; lia).
  assert (Hkk : k ≤ k').
  { unfold k, k'. pose proof (Z.log2_le_mono m m' Hle). lia. }
  destruct (decide (k = k')) as [Heq|Hne].
  - rewrite E, E'. rewrite <- Heq in *.
    pose proof (Z.div_le_mono m m' (2 ^ k) HP Hle) as Hdiv.
    destruct (decide (m / 2 ^ k = m' / 2 ^ k)) as [Hqq|Hqq].
    + rewrite <- Hqq.
      assert (m mod 2 ^ k ≤ m' mod 2 ^ k).
      { rewrite (Z.mod_eq m), (Z.mod_eq m') by lia. rewrite <- Hqq. lia. }
      pose proof (nearest_even_mono (m / 2 ^ k) _ _ (2 ^ (k - 1)) H).
      nia.
    + nia.
  - assert (Hup : round53 m ≤ 2 ^ 53 * 2 ^ k) by (rewrite E; nia).
    assert (2 ^ (k + 1) ≤ 2 ^ k') by (apply Z.pow_le_mono_r; lia).
    rewrite Z.pow_add_r in H by lia. lia.
Qed.

End F64Facts.

Lemma cut_index_eq (len i : nat) :
  cut_index len i
  = F64.round53
      (F64.round53 (F64.round53 (Z.of_nat len) * 5764607523034235)
       * F64.round53 (Z.of_nat i)) / 2 ^ 59.
Proof. reflexivity. Qed.

Lemma cut_index_0 (len : nat) : cut_index len 0 = 0.
Proof.
  rewrite cut_index_eq. change (F64.round53 (Z.of_nat 0)) with 0.
  rewrite Z.mul_0_r. reflexivity.
Qed.

Lemma cut_index_nonneg (len i : nat) : 0 ≤ cut_index len i.
Proof.
  rewrite cut_index_eq. apply Z.div_pos; [|done].
  apply F64Facts.round53_nonneg.
  apply Z.mul_nonneg_nonneg; apply F64Facts.round53_nonneg; [|lia].
  apply Z.mul_nonneg_nonneg; [|done]. apply F64Facts.round53_nonneg. lia.
Qed.

(** The cut never moves back as the sweep goes on. *)
Lemma cut_index_mono (len i j : nat) :
  (i ≤ j)%nat → cut_index len i ≤ cut_index len j.
Proof.
  intros Hij. rewrite !cut_index_eq. apply Z.div_le_mono; [done|].
  assert (Ha : 0 ≤ F64.round53
                     (F64.round53 (Z.of_nat len) * 5764607523034235)).
  { apply F64Facts.round53_nonneg.
    apply Z.mul_nonneg_nonneg; [|done]. apply F64Facts.round53_nonneg. lia. }
  assert (Hi : 0 ≤ F64.round53 (Z.of_nat i))
    by (apply F64Facts.round53_nonneg; lia).
  assert (Hm : F64.round53 (Z.of_nat i) ≤ F64.round53 (Z.of_nat j))
    by (apply F64Facts.round53_mono; lia).
  apply F64Facts.round53_mono; nia.
Qed.

(** ** The merges of the sweep *)

Section MergeFacts.

Lemma repeat_rows_cons (m : string → nat) (t : Transaction)
    (l : list Transaction) :
  repeat_rows m (t :: l) = replicate (m (t_claim_id t)) t ++ repeat_rows m l.
Proof. reflexivity. Qed.

Lemma repeat_rows_app (m : string → nat) (l1 l2 : list Transaction) :
  repeat_rows m (l1 ++ l2) = repeat_rows m l1 ++ repeat_rows m l2.
Proof. unfold repeat_rows. apply bind_app. Qed.

Lemma repeat_rows_replicate (m : string → nat) (n : nat) (t : Transaction) :
  repeat_rows m (replicate n t) = replicate (n * m (t_claim_id t)) t.
Proof.
  induction n as [|n IH]; [done|].
  cbn [replicate]. rewrite repeat_rows_cons, IH, <- replicate_add.
  f_equal.
Qed.

(** Two merges in a row multiply the numbers of copies. *)
Lemma repeat_rows_compose (m1 m2 : string → nat) (l : list Transaction) :
  repeat_rows m2 (repeat_rows m1 l) = repeat_rows (λ c, m1 c * m2 c)%nat l.
Proof.
  induction l as [|t l IH]; [done|].
  rewrite !repeat_rows_cons, repeat_rows_app, repeat_rows_replicate, IH.
  reflexivity.
Qed.

Lemma repeat_rows_ext (m1 m2 : string → nat) (l : list Transaction) :
  (∀ t, t ∈ l → m1 (t_claim_id t) = m2 (t_claim_id t)) →
  repeat_rows m1 l = repeat_rows m2 l.
Proof.
  induction l as [|t l IH]; intros H; [done|].
  rewrite !repeat_rows_cons, IH, (H t) by set_solver. reflexivity.
Qed.

Lemma repeat_rows_one (l : list Transaction) :
  repeat_rows (λ _, 1%nat) l = l.
Proof.
  induction l as [|t l IH]; [done|].
  rewrite repeat_rows_cons, IH. reflexivity.
Qed.

Lemma elem_of_repeat_rows (m : string → nat) (l : list Transaction)
    (t : Transaction) :
  t ∈ repeat_rows m l ↔ t ∈ l ∧ (0 < m (t_claim_id t))%nat.
Proof.
  unfold repeat_rows. rewrite list_elem_of_bind. split.
  - intros (u & Hu & Hin). apply elem_of_replicate in Hu as [-> Hn].
    split; [done|lia].
  - intros [Hin Hn]. exists t. split; [|done].
    apply elem_of_replicate. split; [done|lia].
Qed.

(** Rows kept once or not at all: a plain restriction. *)
Lemma repeat_rows_restrict (m : string → nat) (ids : list string)
    (l : list Transaction) :
  (∀ t, t ∈ l →
     m (t_claim_id t) = if decide (t_claim_id t ∈ ids) then 1 else 0)%nat →
  repeat_rows m l = filter (λ t, t_claim_id t ∈ ids) l.
Proof.
  induction l as [|t l IH]; intros H; [done|].
  rewrite repeat_rows_cons, IH, filter_cons, (H t) by set_solver.
  by destruct (decide (t_claim_id t ∈ ids)).
Qed.

Lemma filter_replicate {A : Type} (P : A → Prop) `{∀ x, Decision (P x)}
    (n : nat) (x : A) :
  filter P (replicate n x) = if decide (P x) then replicate n x else [].
Proof.
  induction n as [|n IH]; [by destruct (decide (P x))|].
  cbn [replicate]. rewrite filter_cons, IH.
  by destruct (decide (P x)).
Qed.

(** Occurrences of a row after the merges. *)
Lemma count_repeat_rows (m : string → nat) (l : list Transaction)
    (t : Transaction) :
  length (filter (λ u, u = t) (repeat_rows m l))
  = (length (filter (λ u, u = t) l) * m (t_claim_id t))%nat.
Proof.
  induction l as [|u l IH]; [done|].
  rewrite repeat_rows_cons, filter_app, length_app, IH, filter_cons,
    filter_replicate.
  destruct (decide (u = t)) as [->|Hne].
  - rewrite length_replicate. cbn [length]. lia.
  - reflexivity.
Qed.

End MergeFacts.

Section FilterFacts.

Variable sort_values : list ClaimRecord → list ClaimRecord.
Variable segment_df : list ClaimRecord.

Lemma filter_step_repeat (j : nat)
    (sets : list Transaction * list Transaction) :
  filter_step sort_values segment_df j sets
  = (repeat_rows (step_factor sort_values segment_df j) sets.1,
     repeat_rows (step_factor sort_values segment_df j) sets.2).
Proof.
  unfold filter_step, step_factor, retained. cbn zeta.
  destruct (0 <? cut_index (length (sort_values segment_df)) j).
  - reflexivity.
  - rewrite !repeat_rows_one. by destruct sets.
Qed.

(** The frames of step [i] are the frames of the segment with each row
    repeated [copies i] times. *)
Lemma sets_at_copies (sets0 : list Transaction * list Transaction)
    (i : nat) :
  sets_at sort_values segment_df sets0 i
  = (repeat_rows (copies sort_values segment_df i) sets0.1,
     repeat_rows (copies sort_values segment_df i) sets0.2).
Proof.
  induction i as [|i IH].
  - rewrite sets_at_0. apply filter_step_repeat.
  - rewrite sets_at_S, IH, filter_step_repeat. cbn [fst snd copies].
    by rewrite !repeat_rows_compose.
Qed.

(** A merging step works on the frames the step before left. *)
Lemma sets_at_merge (sets0 : list Transaction * list Transaction)
    (i : nat) :
  0 < cut_index (length (sort_values segment_df)) i →
  ∃ i', i = S i'
    ∧ sets_at sort_values segment_df sets0 i
      = (merge_on_claim_id (sets_at sort_values segment_df sets0 i').1
           (claim_id <$> retained sort_values segment_df i),
         merge_on_claim_id (sets_at sort_values segment_df sets0 i').2
           (claim_id <$> retained sort_values segment_df i)).
Proof.
  intros Hcut. destruct i as [|i']; [rewrite cut_index_0 in Hcut; lia|].
  exists i'. split; [done|]. rewrite sets_at_S.
  unfold filter_step, retained. cbn zeta.
  apply Z.ltb_lt in Hcut. by rewrite Hcut.
Qed.

End FilterFacts.

(** C5.  At every sweep step and for every claim id, either all rows of
    that claim in the segment's paid frame and all its rows in the
    segment's OCR frame are in the frames of the step, or the frames of the
    step hold no row of that claim at all; the frames of a step hold rows
    of the segment only. *)
Theorem retained_in_both_or_neither `{CL : ChainLadder}
    (sort_values : list ClaimRecord → list ClaimRecord)
    (segment_df : list ClaimRecord) (st0 st : loop_state) (i : nat)
    (c : string) :
  for_each (sweep_body sort_values segment_df) (seq 0 (S i)) st0 = Ok st →
  (((∀ t, t ∈ segment_paid st0 → t_claim_id t = c → t ∈ segment_paid st)
    ∧ (∀ t, t ∈ segment_ocr st0 → t_claim_id t = c → t ∈ segment_ocr st))
   ∨ ((∀ t, t ∈ segment_paid st → t_claim_id t ≠ c)
      ∧ (∀ t, t ∈ segment_ocr st → t_claim_id t ≠ c)))
  ∧ (∀ t, t ∈ segment_paid st → t ∈ segment_paid st0)
  ∧ (∀ t, t ∈ segment_ocr st → t ∈ segment_ocr st0).
Proof.
  intros H. apply for_each_body_Ok in H as (Hsets & _).
  change (foldl _ ?s (seq 0 (S i)))
    with (sets_at sort_values segment_df s i) in Hsets.
  rewrite sets_at_copies in Hsets. cbn [fst snd] in Hsets.
  injection Hsets as -> ->.
  split; [|split; intros t Ht; by apply elem_of_repeat_rows in Ht as [? _]].
  destruct (decide (0 < copies sort_values segment_df i c)%nat) as [Hc|Hc].
  - left. split; intros t Ht <-; apply elem_of_repeat_rows; done.
  - right. split; intros t Ht Heq; subst c;
      apply elem_of_repeat_rows in Ht as [_ Ht]; lia.
Qed.

Lemma retained_in_both_or_neither_witness :
  ∃ st,
    for_each (sweep_body sort_merge
                (Aggregator.combined_df motor_ocr motor_paid))
      (seq 0 11) (mkState motor_paid motor_ocr [] [] 0 []) = Ok st
    ∧ (∀ t, t ∈ segment_paid st → t ∈ motor_paid).
Proof.
  destruct (for_each (sweep_body sort_merge
                        (Aggregator.combined_df motor_ocr motor_paid))
              (seq 0 11) (mkState motor_paid motor_ocr [] [] 0 []))
    as [st|e] eqn:E.
  - exists st. split; [reflexivity|].
    exact (proj1 (proj2 (retained_in_both_or_neither _ _ _ st 10 "C01" E))).
  - vm_compute in E. discriminate E.
Defined.

Section SingleRowFacts.

Variable sort_values : list ClaimRecord → list ClaimRecord.
Variable segment_df : list ClaimRecord.
Hypothesis sort_values_perm : sort_values segment_df ≡ₚ segment_df.
Hypothesis single_rows : NoDup (claim_id <$> segment_df).

Lemma retained_drop (i : nat) :
  retained sort_values segment_df i
  = drop (Z.to_nat (cut_index (length (sort_values segment_df)) i))
      (sort_values segment_df).
Proof.
  unfold retained, iloc_from. cbn zeta.
  pose proof (cut_index_nonneg (length (sort_values segment_df)) i).
  case_match; [done|lia].
Qed.

Lemma retained_nested (i j : nat) (c : ClaimRecord) :
  (j ≤ i)%nat →
  c ∈ retained sort_values segment_df i →
  c ∈ retained sort_values segment_df j.
Proof using Type.
  intros Hji. rewrite !retained_drop.
  pose proof (cut_index_mono (length (sort_values segment_df)) j i Hji).
  pose proof (cut_index_nonneg (length (sort_values segment_df)) j).
  set (a := Z.to_nat (cut_index (length (sort_values segment_df)) j)).
  set (b := Z.to_nat (cut_index (length (sort_values segment_df)) i)).
  replace b with (a + (b - a))%nat by lia.
  rewrite <- drop_drop. intros Hc.
  by apply (subseteq_drop (b - a)).
Qed.

Lemma retained_ids_NoDup (i : nat) :
  NoDup (claim_id <$> retained sort_values segment_df i).
Proof using sort_values_perm single_rows.
  rewrite retained_drop, fmap_drop.
  eapply sublist_NoDup; [|apply sublist_drop].
  by rewrite sort_values_perm.
Qed.

Lemma matches_NoDup (l : list string) (c : string) :
  NoDup l → matches l c = if decide (c ∈ l) then 1%nat else 0%nat.
Proof using Type.
  unfold matches. induction 1 as [|x l Hx Hl IH]; [done|].
  rewrite filter_cons. destruct (decide (x = c)) as [->|Hne].
  - rewrite decide_True by left. cbn [length]. rewrite IH.
    by rewrite decide_False.
  - rewrite IH. destruct (decide (c ∈ l)) as [Hin|Hin].
    + rewrite decide_True by (by right). done.
    + rewrite decide_False; [done|]. intros Hc.
      apply elem_of_cons in Hc as [->|]; done.
Qed.

(** With one aggregated row per claim id, a merging step keeps one copy of
    the rows of the claims it retains and none of the others. *)
Lemma copies_single (i : nat) (c : string) :
  0 < cut_index (length (sort_values segment_df)) i →
  copies sort_values segment_df i c
  = if decide (c ∈ claim_id <$> retained sort_values segment_df i)
    then 1%nat else 0%nat.
Proof using sort_values_perm single_rows.
  intros Hcut.
  assert (Hfac : ∀ j,
    step_factor sort_values segment_df j c
    = if decide (0 < cut_index (length (sort_values segment_df)) j)
      then if decide (c ∈ claim_id <$> retained sort_values segment_df j)
           then 1%nat else 0%nat
      else 1%nat).
  { intros j. unfold step_factor.
    destruct (decide (0 < cut_index (length (sort_values segment_df)) j))
      as [Hj|Hj].
    - apply Z.ltb_lt in Hj. rewrite Hj.
      apply matches_NoDup, retained_ids_NoDup.
    - apply Z.ltb_nlt in Hj. by rewrite Hj. }
  destruct (decide (c ∈ claim_id <$> retained sort_values segment_df i))
    as [Hin|Hout].
  - assert (Hall : ∀ j, (j ≤ i)%nat →
              step_factor sort_values segment_df j c = 1%nat).
    { intros j Hj. rewrite Hfac. case_decide; [|done].
      rewrite decide_True; [done|].
      apply list_elem_of_fmap in Hin as (r & -> & Hr).
      apply list_elem_of_fmap. exists r. split; [done|].
      by apply (retained_nested i j). }
    clear Hcut Hin. induction i as [|i IH]; cbn [copies].
    + apply Hall. lia.
    + rewrite IH, Hall by (intros; try apply Hall; lia). done.
  - assert (Hz : step_factor sort_values segment_df i c = 0%nat).
    { rewrite Hfac, decide_True, decide_False by done. done. }
    destruct i; cbn [copies]; rewrite Hz; lia.
Qed.

End SingleRowFacts.

(** C10, as the code has it.  At a step whose cut is positive the paid and
    OCR frames are the inner merge, on [claim_id] alone, of the frames the
    step before left with the retained claim rows; a row of the segment
    then occurs as often as the product, over the steps so far, of the
    number of retained claim rows with its claim id at each merging step;
    and when every claim id has one aggregated row the frames are the
    segment's frames restricted to the claims retained at the step. *)
Theorem merges_compound
    (sort_values : list ClaimRecord → list ClaimRecord)
    (segment_df : list ClaimRecord)
    (sets0 : list Transaction * list Transaction) (i : nat) :
  0 < cut_index (length (sort_values segment_df)) i →
  (∃ i', i = S i'
     ∧ sets_at sort_values segment_df sets0 i
       = (merge_on_claim_id (sets_at sort_values segment_df sets0 i').1
            (claim_id <$> retained sort_values segment_df i),
          merge_on_claim_id (sets_at sort_values segment_df sets0 i').2
            (claim_id <$> retained sort_values segment_df i)))
  ∧ (∀ t, length (filter (λ u, u = t)
                    (sets_at sort_values segment_df sets0 i).1)
          = (length (filter (λ u, u = t) sets0.1)
             * copies sort_values segment_df i (t_claim_id t))%nat)
  ∧ (∀ t, length (filter (λ u, u = t)
                    (sets_at sort_values segment_df sets0 i).2)
          = (length (filter (λ u, u = t) sets0.2)
             * copies sort_values segment_df i (t_claim_id t))%nat)
  ∧ (sort_values segment_df ≡ₚ segment_df →
     NoDup (claim_id <$> segment_df) →
     sets_at sort_values segment_df sets0 i
     = (filter (λ t, t_claim_id t
                     ∈ claim_id <$> retained sort_values segment_df i)
          sets0.1,
        filter (λ t, t_claim_id t
                     ∈ claim_id <$> retained sort_values segment_df i)
          sets0.2)).
Proof.
  intros Hcut. split; [by apply sets_at_merge|].
  rewrite sets_at_copies. cbn [fst snd].
  split; [intros t; apply count_repeat_rows|].
  split; [intros t; apply count_repeat_rows|].
  intros Hperm Hnd.
  f_equal; apply repeat_rows_restrict; intros t _; by apply copies_single.
Qed.

Lemma merges_compound_witness :
  ∃ i',
    26%nat = S i'
    ∧ sets_at sort_merge (Aggregator.combined_df fire_ocr fire_paid)
        (fire_paid, fire_ocr) 26
      = (merge_on_claim_id
           (sets_at sort_merge (Aggregator.combined_df fire_ocr fire_paid)
              (fire_paid, fire_ocr) i').1
           (claim_id <$> retained sort_merge
                           (Aggregator.combined_df fire_ocr fire_paid) 26),
         merge_on_claim_id
           (sets_at sort_merge (Aggregator.combined_df fire_ocr fire_paid)
              (fire_paid, fire_ocr) i').2
           (claim_id <$> retained sort_merge
                           (Aggregator.combined_df fire_ocr fire_paid) 26)).
Proof.
  apply (merges_compound sort_merge
           (Aggregator.combined_df fire_ocr fire_paid)
           (fire_paid, fire_ocr) 26).
  vm_compute. reflexivity.
Defined.

(** C10 as stated fails twice: at the second merging step a row of claim
    [X] occurs four times although two retained claim rows carry its id;
    and frames can equal the plain restriction although a claim id has two
    aggregated rows. *)
Lemma merge_multiplicity_counterexample :
  (0 < cut_index
         (length (sort_merge (Aggregator.combined_df fire_ocr fire_paid)))
         26
   ∧ length (filter (λ u, u = mkTransaction "X" "Fire" (Some 10) 20 100 100)
               (sets_at sort_merge
                  (Aggregator.combined_df fire_ocr fire_paid)
                  (fire_paid, fire_ocr) 26).1) = 4%nat
   ∧ length (filter (λ u, u = mkTransaction "X" "Fire" (Some 10) 20 100 100)
               fire_paid) = 1%nat
   ∧ matches (claim_id <$> retained sort_merge
                (Aggregator.combined_df fire_ocr fire_paid) 26) "X" = 2%nat)
  ∧ (0 < cut_index
           (length (sort_merge
                      (Aggregator.combined_df fire_ocr fire_paid_top)))
           26
     ∧ (sets_at sort_merge (Aggregator.combined_df fire_ocr fire_paid_top)
          (fire_paid_top, fire_ocr) 26).1
       = filter (λ t, t_claim_id t
                      ∈ claim_id <$> retained sort_merge
                          (Aggregator.combined_df fire_ocr fire_paid_top) 26)
           fire_paid_top
     ∧ ¬ NoDup (claim_id <$> Aggregator.combined_df fire_ocr fire_paid_top)).
Proof.
  split.
  - vm_compute. done.
  - split; [by vm_compute|]. split; [by vm_compute|].
    apply (bool_decide_eq_false_1 (NoDup _)). by vm_compute.
Qed.

(** ** The cut and the claims it leaves *)

Lemma retained_count (sort_values : list ClaimRecord → list ClaimRecord)
    (segment_df : list ClaimRecord) (i : nat) :
  sort_values segment_df ≡ₚ segment_df →
  sort_values segment_df
  = iloc_to (cut_index (length (sort_values segment_df)) i)
      (sort_values segment_df)
    ++ retained sort_values segment_df i
  ∧ length (retained sort_values segment_df i)
    = (length segment_df
       - Z.to_nat (cut_index (length segment_df) i))%nat.
Proof.
  intros Hperm. rewrite retained_drop. unfold iloc_to.
  pose proof (cut_index_nonneg (length (sort_values segment_df)) i).
  case_match; [|lia]. rewrite take_drop. split; [done|].
  by rewrite length_drop, Hperm.
Qed.

(** The rounding written out in [F64] is the kernel's: on frames of up to
    300 claims the cut is what the binary64 product truncates to, at
    every step of the sweep. *)
Lemma cut_index_binary64 :
  forallb (λ len,
    forallb (λ i, Binary64.truncates_to (Binary64.product len i)
                    (Z.to_nat (cut_index len i)))
      (seq 0 (interval + 1)))
    (seq 0 301) = true.
Proof. vm_compute. reflexivity. Qed.

(** C3, at a segment of 116 claims and the step of 25 percent.  The code
    evaluates [int(116 * 0.01 * 25)] in binary64: [116 * 0.01] rounds to
    1.1600000000000001, its product with 25 to 28.999999999999996, and
    the cut is 28, where [floor(116 * 0.25)] is 29; 88 claims are retained,
    not 87. *)
Theorem cut_one_short_at_116 :
  cut_index 116 25 = 28
  ∧ Binary64.truncates_to (Binary64.product 116 25) 28 = true
  ∧ Qfloor (inject_Z 116 * (25 # 100)) = 29
  ∧ length (numbered_claims 116) = 116%nat
  ∧ length (retained sort_merge (numbered_claims 116) 25) = 88%nat
  ∧ length (iloc_to (cut_index (length (sort_merge (numbered_claims 116))) 25)
              (sort_merge (numbered_claims 116))) = 28%nat.
Proof. by vm_compute. Qed.

(** ** What a segment's pass stores *)

Lemma StronglySorted_lookup_le {A : Type} (R : relation A)
    `{!Reflexive R} (l : list A) (i j : nat) (a b : A) :
  StronglySorted R l → (i ≤ j)%nat →
  l !! i = Some a → l !! j = Some b → R a b.
Proof.
  intros Hs. revert i j. induction Hs as [|x l Hs IH Hx]; intros i j Hij Ha Hb.
  - by rewrite lookup_nil in Ha.
  - destruct i as [|i], j as [|j]; cbn in Ha, Hb; try lia.
    + by simplify_eq.
    + injection Ha as <-. rewrite Forall_forall in Hx.
      apply Hx. by eapply list_elem_of_lookup_2.
    + apply (IH i j); [lia|done..].
Qed.

#[global] Instance ge_gross_refl : Reflexive ge_gross.
Proof. intros a. unfold ge_gross. lia. Qed.

#[global] Instance ge_gross_trans : Transitive ge_gross.
Proof. intros a b c. unfold ge_gross. lia. Qed.

#[global] Instance ge_gross_total : Total ge_gross.
Proof. intros a b. unfold ge_gross. lia. Qed.

Lemma sort_merge_contract : sort_contract sort_merge.
Proof.
  split; intros l.
  - apply merge_sort_Permutation.
  - apply (Sorted_merge_sort ge_gross).
Qed.

Lemma sort_reversing_contract : sort_contract sort_reversing.
Proof.
  split; intros l; unfold sort_reversing.
  - rewrite merge_sort_Permutation. apply reverse_Permutation.
  - apply (Sorted_merge_sort ge_gross).
Qed.

Lemma run_segment_Ok `{CL : ChainLadder}
    (sort_values : list ClaimRecord → list ClaimRecord)
    (combined_df : list ClaimRecord) (paid_data ocr_data : list Transaction)
    (seg : string) (r : segment_run) :
  run_segment sort_values combined_df paid_data ocr_data seg = Ok r →
  claims_percentage (run_state r) = percentage_at <$> seq 0 (interval + 1)
  ∧ length (mack_mse (run_state r)) = (interval + 1)%nat
  ∧ Detector.max_drop_index (mack_mse (run_state r)) = Ok (max_drop_index r)
  ∧ (1 ≤ max_drop_index r ≤ interval)%nat
  ∧ threshold r = percentage_at (max_drop_index r).
Proof.
  intros H. unfold run_segment in H. cbn zeta in H.
  apply bind_Ok in H as (st & Hloop & H).
  apply bind_Ok in H as (k & Hk & H). apply bind_Ok in H as (d & _ & H).
  apply bind_Ok in H as (v & Hv & H). injection H as <-.
  cbn [run_state max_drop_index threshold].
  apply for_each_body_Ok in Hloop as (_ & Hcp & ms & Hms & Hlen & _).
  cbn [claims_percentage mack_mse app] in Hcp, Hms.
  rewrite Hms, Hcp, Hlen. split; [done|]. split; [done|].
  rewrite Hms in Hk. split; [done|].
  destruct (DetectorFacts.max_drop_index_spec ms) as (k' & Hk' & Hr & _).
  { rewrite Hlen. unfold interval. lia. }
  rewrite Hk in Hk'. injection Hk' as <-. rewrite Hlen in Hr.
  split; [lia|].
  unfold Detector.loc in Hv. rewrite Hcp in Hv.
  rewrite list_lookup_fmap, lookup_seq_lt in Hv by lia.
  cbn in Hv. by injection Hv as <-.
Qed.

(** C4, as the code has it.  What a segment's pass stores under the
    segment's key is the claims percentage [1 - 0.01 k] at the index [k]
    the detector chose, [1 <= k <= 30], and nothing else: no amount is
    looked up at that index.  The gross amount of the claim at sorted
    position [cut - 1] does not rise as the step grows. *)
Theorem threshold_is_percentage_only `{CL : ChainLadder}
    (sort_values : list ClaimRecord → list ClaimRecord)
    (combined_df : list ClaimRecord) (paid_data ocr_data : list Transaction)
    (seg : string) (r : segment_run) :
  run_segment sort_values combined_df paid_data ocr_data seg = Ok r →
  (1 ≤ max_drop_index r ≤ interval)%nat
  ∧ threshold r = percentage_at (max_drop_index r)
  ∧ (∀ rest tp,
       segment_loop sort_values combined_df paid_data ocr_data
         (seg :: rest) tp
       = segment_loop sort_values combined_df paid_data ocr_data rest
           (<["Rwanda " +:+ seg := percentage_at (max_drop_index r)]> tp))
  ∧ (sort_contract sort_values →
     ∀ (k k' : nat) (a a' : ClaimRecord),
       (k ≤ k')%nat →
       0 < cut_index
             (length (sort_values (segment_rows segment seg combined_df))) k →
       sort_values (segment_rows segment seg combined_df)
         !! (Z.to_nat
               (cut_index
                  (length (sort_values
                             (segment_rows segment seg combined_df))) k)
             - 1)%nat = Some a →
       sort_values (segment_rows segment seg combined_df)
         !! (Z.to_nat
               (cut_index
                  (length (sort_values
                             (segment_rows segment seg combined_df))) k')
             - 1)%nat = Some a' →
       gross_amount a' ≤ gross_amount a).
Proof.
  intros H.
  destruct (run_segment_Ok _ _ _ _ _ _ H) as (_ & _ & _ & Hk & Hv).
  split; [done|]. split; [done|]. split.
  - intros rest tp. cbn [segment_loop]. rewrite H. by rewrite Hv.
  - intros [_ Hsorted] k k' a a' Hkk Hcut Ha Ha'.
    pose proof (cut_index_mono
                  (length (sort_values
                             (segment_rows segment seg combined_df)))
                  k k' Hkk).
    eapply (StronglySorted_lookup_le ge_gross); [|
      |exact Ha|exact Ha'].
    + apply Sorted_StronglySorted; [apply _|apply Hsorted].
    + lia.
Qed.

Lemma threshold_is_percentage_only_witness :
  ∃ r, run_segment sort_merge
         (Aggregator.combined_df motor_ocr motor_paid)
         motor_paid motor_ocr "Motor" = Ok r
     ∧ threshold r = percentage_at (max_drop_index r).
Proof.
  destruct (run_segment sort_merge
              (Aggregator.combined_df motor_ocr motor_paid)
              motor_paid motor_ocr "Motor") as [r|e] eqn:E.
  - exists r. split; [reflexivity|].
    exact (proj1 (proj2 (threshold_is_percentage_only _ _ _ _ _ r E))).
  - vm_compute in E. discriminate E.
Defined.

(** C4 as stated fails on the motor segment: the detector chooses step 10,
    the entry stored is the percentage 0.90 and no amount, the claim at
    sorted position [cut - 1] of that step has gross amount 1000, and the
    only amounts looked up after the sweep, the rows [large_claims], are
    cut at the last step and end at gross amount 90. *)
Lemma dollar_cutoff_counterexample :
  ∃ r,
    run_segment sort_merge (Aggregator.combined_df motor_ocr motor_paid)
      motor_paid motor_ocr "Motor" = Ok r
    ∧ max_drop_index r = 10%nat
    ∧ notebook sort_merge motor_paid motor_ocr
      = ({["Rwanda Motor" := (90 # 100)%Q]}, None)
    ∧ gross_amount
        <$> sort_merge (Aggregator.combined_df motor_ocr motor_paid)
              !! (Z.to_nat (cut_index 10 10) - 1)%nat = Some 1000
    ∧ gross_amount <$> last (large_claims r) = Some 90.
Proof.
  destruct (run_segment sort_merge
              (Aggregator.combined_df motor_ocr motor_paid)
              motor_paid motor_ocr "Motor") as [r|e] eqn:E.
  - exists r. split; [reflexivity|].
    vm_compute in E. injection E as <-.
    split; [reflexivity|]. split; [vm_compute; reflexivity|].
    split; vm_compute; reflexivity.
  - vm_compute in E. discriminate E.
Qed.

(** C6, as the code has it.  When the triangles or the fit of a step raise,
    the exception leaves the loop: the pass of the segment ends with it,
    no metric is recorded for the step, no entry is stored for the
    segment, and the segments after it are not run. *)
Theorem step_failure_aborts `{CL : ChainLadder}
    (sort_values : list ClaimRecord → list ClaimRecord)
    (combined_df : list ClaimRecord) (paid_data ocr_data : list Transaction)
    (seg : string) (i : nat) (e : exn) :
  (i ≤ interval)%nat →
  (∀ j, (j < i)%nat → ∃ m,
     adapt
       (sets_at sort_values (segment_rows segment seg combined_df)
          (segment_rows t_segment seg paid_data,
           segment_rows t_segment seg ocr_data) j).1
       (sets_at sort_values (segment_rows segment seg combined_df)
          (segment_rows t_segment seg paid_data,
           segment_rows t_segment seg ocr_data) j).2 = Ok m) →
  adapt
    (sets_at sort_values (segment_rows segment seg combined_df)
       (segment_rows t_segment seg paid_data,
        segment_rows t_segment seg ocr_data) i).1
    (sets_at sort_values (segment_rows segment seg combined_df)
       (segment_rows t_segment seg paid_data,
        segment_rows t_segment seg ocr_data) i).2 = Raise e →
  run_segment sort_values combined_df paid_data ocr_data seg = Raise e
  ∧ ∀ rest tp,
      segment_loop sort_values combined_df paid_data ocr_data
        (seg :: rest) tp = (tp, Some e).
Proof.
  intros Hi Hok Hbad.
  assert (Hrun : run_segment sort_values combined_df paid_data ocr_data seg
                 = Raise e).
  { unfold run_segment. cbn zeta.
    erewrite (for_each_body_Raise _ _ (interval + 1) 0 i); [done|lia| |].
    - intros j Hj. destruct (Hok j Hj) as (m & Hm). by exists m.
    - exact Hbad. }
  split; [done|]. intros rest tp. cbn [segment_loop]. by rewrite Hrun.
Qed.

Lemma step_failure_aborts_witness :
  run_segment sort_merge (Aggregator.combined_df motor_ocr_top motor_paid)
    motor_paid motor_ocr_top "Motor"
  = Raise (LibraryError "empty triangle").
Proof.
  refine (proj1 (step_failure_aborts sort_merge
                   (Aggregator.combined_df motor_ocr_top motor_paid)
                   motor_paid motor_ocr_top "Motor" 10
                   (LibraryError "empty triangle") _ _ _)).
  - unfold interval. lia.
  - intros j Hj.
    assert (Hc : j ∈ seq 0 10) by (apply elem_of_seq; lia).
    clear Hj. revert j Hc. apply Forall_forall.
    repeat (constructor; [eexists; vm_compute; reflexivity|]).
    constructor.
  - vm_compute. reflexivity.
Defined.

(** C6 as stated fails on the motor segment with a reserve on the largest
    claim only: step 9 yields a metric, at step 10 the OCR triangle has no
    row left and raises, and instead of an undefined point followed by the
    remaining steps the whole run ends with the exception and an empty
    dictionary. *)
Lemma undefined_step_counterexample :
  adapt
    (sets_at sort_merge (Aggregator.combined_df motor_ocr_top motor_paid)
       (motor_paid, motor_ocr_top) 9).1
    (sets_at sort_merge (Aggregator.combined_df motor_ocr_top motor_paid)
       (motor_paid, motor_ocr_top) 9).2 = Ok 1540%Q
  ∧ adapt
      (sets_at sort_merge (Aggregator.combined_df motor_ocr_top motor_paid)
         (motor_paid, motor_ocr_top) 10).1
      (sets_at sort_merge (Aggregator.combined_df motor_ocr_top motor_paid)
         (motor_paid, motor_ocr_top) 10).2
    = Raise (LibraryError "empty triangle")
  ∧ run_segment sort_merge
      (Aggregator.combined_df motor_ocr_top motor_paid)
      motor_paid motor_ocr_top "Motor"
    = Raise (LibraryError "empty triangle")
  ∧ notebook sort_merge motor_paid motor_ocr_top
    = (∅, Some (LibraryError "empty triangle")).
Proof. repeat split; by vm_compute. Qed.

(** ** The order of the group rows *)

Module KeyOrder.
Import Aggregator.

Lemma ascii_compare_refl (a : Ascii.ascii) : Ascii.compare a a = Eq.
Proof. apply N.compare_refl. Qed.

Lemma ascii_lt_trans (a b c : Ascii.ascii) :
  Ascii.compare a b = Lt → Ascii.compare b c = Lt → Ascii.compare a c = Lt.
Proof.
  unfold Ascii.compare. rewrite !N.compare_lt_iff. apply N.lt_trans.
Qed.

Lemma string_lt_trans (s1 s2 s3 : string) :
  String.compare s1 s2 = Lt → String.compare s2 s3 = Lt →
  String.compare s1 s3 = Lt.
Proof.
  revert s2 s3. induction s1 as [|a s1 IH]; intros [|b s2] [|c s3]; cbn;
    try done.
  destruct (Ascii.compare a b) eqn:Hab; try done;
    destruct (Ascii.compare b c) eqn:Hbc; try done; intros H1 H2.
  - apply Ascii.compare_eq_iff in Hab, Hbc. subst.
    rewrite ascii_compare_refl. by apply (IH s2).
  - apply Ascii.compare_eq_iff in Hab. subst. by rewrite Hbc.
  - apply Ascii.compare_eq_iff in Hbc. subst. by rewrite Hab.
  - by rewrite (ascii_lt_trans a b c).
Qed.

Lemma string_compare_refl (s : string) : String.compare s s = Eq.
Proof.
  induction s as [|a s IH]; [done|]. cbn. by rewrite ascii_compare_refl.
Qed.

Lemma string_leb_refl (s : string) : String.leb s s = true.
Proof. unfold String.leb. by rewrite string_compare_refl. Qed.

Lemma string_leb_trans (s1 s2 s3 : string) :
  String.leb s1 s2 = true → String.leb s2 s3 = true →
  String.leb s1 s3 = true.
Proof.
  unfold String.leb.
  destruct (String.compare s1 s2) eqn:H12; try done;
    destruct (String.compare s2 s3) eqn:H23; try done; intros _ _.
  - apply String.compare_eq_iff in H12. subst s2. by rewrite H23.
  - apply String.compare_eq_iff in H12. subst s2. by rewrite H23.
  - apply String.compare_eq_iff in H23. subst s3. by rewrite H12.
  - by rewrite (string_lt_trans s1 s2 s3).
Qed.

Lemma date_leb_total (a b : option Z) :
  date_leb a b = true ∨ date_leb b a = true.
Proof. destruct a, b; cbn; auto. lia. Qed.

Lemma date_leb_antisym (a b : option Z) :
  date_leb a b = true → date_leb b a = true → a = b.
Proof. destruct a, b; cbn; try done. intros. f_equal. lia. Qed.

Lemma date_leb_trans (a b c : option Z) :
  date_leb a b = true → date_leb b c = true → date_leb a c = true.
Proof. destruct a, b, c; cbn; try done. lia. Qed.

#[global] Instance key_le_total : Total key_le.
Proof.
  intros [[a1 a2] a3] [[b1 b2] b3]. unfold key_le, key_leb. cbn.
  repeat case_decide; subst; try done;
    auto using String.leb_total, date_leb_total.
Qed.

#[global] Instance key_le_antisym : AntiSymm (=) key_le.
Proof.
  intros [[a1 a2] a3] [[b1 b2] b3]. unfold key_le, key_leb. cbn.
  repeat case_decide; subst; try done; intros Hab Hba.
  - f_equal. by apply date_leb_antisym.
  - by rewrite (String.leb_antisym _ _ Hab Hba) in *.
  - by rewrite (String.leb_antisym _ _ Hab Hba) in *.
Qed.

#[global] Instance key_le_trans : Transitive key_le.
Proof.
  intros [[a1 a2] a3] [[b1 b2] b3] [[c1 c2] c3]. unfold key_le, key_leb. cbn.
  intros Hab Hbc.
  repeat match goal with
    | H : context [decide (?x = ?y)] |- _ =>
        destruct (decide (x = y)); [subst|]
    | |- context [decide (?x = ?y)] =>
        destruct (decide (x = y)); [subst|]
    end; try done;
    eauto using date_leb_trans, string_leb_trans;
    match goal with
    | H1 : String.leb ?x ?y = true, H2 : String.leb ?y ?x = true |- _ =>
        pose proof (String.leb_antisym _ _ H1 H2); congruence
    end.
Qed.

End KeyOrder.

(** ** The claim aggregator *)

Module AggregatorFacts.
Import Aggregator KeyOrder.

Section Unique.
Context {A : Type} `{EqDecision A}.

Lemma elem_of_unique (l : list A) (x : A) : x ∈ unique l ↔ x ∈ l.
Proof.
  induction l as [|y l IH]; [done|]. cbn [unique].
  rewrite !elem_of_cons, list_elem_of_filter, IH.
  destruct (decide (x = y)); tauto.
Qed.

Lemma NoDup_unique (l : list A) : NoDup (unique l).
Proof.
  induction l as [|y l IH]; cbn [unique]; constructor.
  - rewrite list_elem_of_filter. tauto.
  - by apply NoDup_filter.
Qed.

Lemma unique_filter (P : A → Prop) `{∀ x, Decision (P x)} (l : list A) :
  unique (filter P l) = filter P (unique l).
Proof.
  induction l as [|y l IH]; [done|]. cbn [unique]. rewrite !filter_cons.
  destruct (decide (P y)) as [HPy|HPy]; cbn [unique]; rewrite IH.
  - f_equal. rewrite !list_filter_filter. apply list_filter_iff.
    intros x. tauto.
  - rewrite !list_filter_filter. apply list_filter_iff.
    intros x. split; [|tauto]. intros HP. split; [done|].
    by intros ->.
Qed.

End Unique.

Lemma StronglySorted_filter {A : Type} (R : relation A) (P : A → Prop)
    `{∀ x, Decision (P x)} (l : list A) :
  StronglySorted R l → StronglySorted R (filter P l).
Proof.
  induction 1 as [|x l Hs IH Hx]; [constructor|].
  rewrite filter_cons. destruct (decide (P x)); [|done].
  constructor; [done|]. rewrite Forall_forall in Hx |- *.
  intros y Hy. apply list_elem_of_filter in Hy as [_ Hy]. by apply Hx.
Qed.

Lemma filter_none {A : Type} (P : A → Prop) `{∀ x, Decision (P x)}
    (l : list A) :
  (∀ x, x ∈ l → ¬ P x) → filter P l = [].
Proof.
  induction l as [|x l IH]; intros Hl; [done|].
  rewrite filter_cons, decide_False by (apply Hl; left).
  apply IH. intros y Hy. apply Hl. by right.
Qed.

Lemma NoDup_group_keys (ks : list key) : NoDup (group_keys ks).
Proof.
  unfold group_keys. rewrite merge_sort_Permutation. apply NoDup_unique.
Qed.

Lemma elem_of_group_keys (ks : list key) (k : key) :
  k ∈ group_keys ks ↔ k ∈ ks.
Proof.
  unfold group_keys. rewrite merge_sort_Permutation. apply elem_of_unique.
Qed.

Lemma group_keys_sorted (ks : list key) :
  StronglySorted key_le (group_keys ks).
Proof. apply (StronglySorted_merge_sort key_le). Qed.

(** The group rows are ordered by their keys only: grouping a part of the
    rows gives that part of the groups, and the order of the rows grouped
    does not matter. *)
Lemma group_keys_filter (P : key → Prop) `{∀ k, Decision (P k)}
    (ks : list key) :
  group_keys (filter P ks) = filter P (group_keys ks).
Proof.
  apply (StronglySorted_unique key_le).
  - apply group_keys_sorted.
  - apply StronglySorted_filter, group_keys_sorted.
  - unfold group_keys. rewrite !merge_sort_Permutation.
    by rewrite unique_filter.
Qed.

Lemma group_keys_perm (ks ks' : list key) :
  ks ≡ₚ ks' → group_keys ks = group_keys ks'.
Proof.
  intros Hp. apply (StronglySorted_unique key_le);
    [apply group_keys_sorted..|].
  apply NoDup_Permutation; [apply NoDup_group_keys..|].
  intros k. rewrite !elem_of_group_keys. by rewrite Hp.
Qed.

Lemma claim_key_mk (k : key) (g n : Z) :
  claim_key (mkClaim k.1.1 k.1.2 k.2 g n) = k.
Proof. by destruct k as [[??]?]. Qed.

(** In a frame with one row per key, the rows of a key. *)
Lemma filter_key_NoDup {B K : Type} `{EqDecision K} (f : B → K)
    (l : list B) (x : B) :
  NoDup (f <$> l) → x ∈ l → filter (λ y, f y = f x) l = [x].
Proof.
  induction l as [|y l IH]; intros Hnd Hx; [by apply elem_of_nil in Hx|].
  rewrite fmap_cons in Hnd. apply NoDup_cons in Hnd as [Hy Hnd].
  rewrite filter_cons. apply elem_of_cons in Hx as [->|Hx].
  - rewrite decide_True by done. f_equal.
    apply filter_none. intros z Hz Heq.
    apply Hy. rewrite <- Heq. apply list_elem_of_fmap. eauto.
  - rewrite decide_False; [by apply IH|].
    intros Heq. apply Hy. rewrite Heq. apply list_elem_of_fmap. eauto.
Qed.

Lemma filter_key_absent {B K : Type} `{EqDecision K} (f : B → K)
    (l : list B) (k : K) :
  k ∉ f <$> l → filter (λ y, f y = k) l = [].
Proof.
  intros Hk. apply filter_none. intros z Hz Heq.
  apply Hk. rewrite <- Heq. apply list_elem_of_fmap. eauto.
Qed.

Lemma fmap_filter_comm {A B : Type} (f : A → B) (P : B → Prop)
    `{∀ y, Decision (P y)} (l : list A) :
  f <$> filter (λ x, P (f x)) l = filter P (f <$> l).
Proof.
  induction l as [|x l IH]; [done|].
  rewrite fmap_cons, !filter_cons. destruct (decide (P (f x))); [|done].
  by rewrite fmap_cons, IH.
Qed.

Lemma NoDup_fmap_filter {A B : Type} (f : A → B) (P : A → Prop)
    `{∀ x, Decision (P x)} (l : list A) :
  NoDup (f <$> l) → NoDup (f <$> filter P l).
Proof.
  induction l as [|x l IH]; [done|]. rewrite fmap_cons, filter_cons.
  intros [Hx Hl]%NoDup_cons. destruct (decide (P x)); [|by apply IH].
  rewrite fmap_cons. apply NoDup_cons. split; [|by apply IH].
  intros Hin. apply Hx. apply list_elem_of_fmap in Hin as (y & -> & Hy).
  apply list_elem_of_filter in Hy as [_ Hy]. apply list_elem_of_fmap. eauto.
Qed.

Lemma claim_key_group_row (AGG : list Z → Z) (rows : list Transaction)
    (k : key) :
  claim_key (group_row AGG rows k) = k.
Proof. apply claim_key_mk. Qed.

Lemma claim_key_sum_row (rows : list ClaimRecord) (k : key) :
  claim_key (sum_row rows k) = k.
Proof. apply claim_key_mk. Qed.

Lemma fmap_claim_key_rows (row : key → ClaimRecord) (ks : list key) :
  (∀ k, claim_key (row k) = k) → claim_key <$> (row <$> ks) = ks.
Proof.
  intros H. rewrite <- list_fmap_compose.
  rewrite <- (list_fmap_id ks) at 2. apply list_fmap_ext. intros ? k _. apply H.
Qed.

(** [ocr_claims] and [paid_claims]: one row per key with a loss date. *)
Lemma dropna_group_rows (AGG : list Z → Z) (rows : list Transaction)
    (ks : list key) :
  dropna (group_row AGG rows <$> ks)
  = group_row AGG rows <$> filter (λ k, is_Some k.2) ks.
Proof.
  unfold dropna. induction ks as [|k ks IH]; [done|].
  rewrite fmap_cons, !filter_cons, IH. cbn [loss_date group_row].
  by destruct (decide (is_Some k.2)).
Qed.

Lemma aggregated_rows (AGG : list Z → Z) (rows : list Transaction) :
  dropna (sql_group_by AGG rows)
  = group_row AGG rows
    <$> filter (λ k, is_Some k.2) (group_keys (txn_key <$> rows)).
Proof. apply dropna_group_rows. Qed.

Lemma aggregated_keys (AGG : list Z → Z) (rows : list Transaction) :
  claim_key <$> dropna (sql_group_by AGG rows)
  = filter (λ k, is_Some k.2) (group_keys (txn_key <$> rows)).
Proof.
  rewrite aggregated_rows. apply fmap_claim_key_rows.
  apply claim_key_group_row.
Qed.

Lemma aggregated_NoDup (AGG : list Z → Z) (rows : list Transaction) :
  NoDup (claim_key <$> dropna (sql_group_by AGG rows)).
Proof. rewrite aggregated_keys. apply NoDup_filter, NoDup_group_keys. Qed.

Lemma elem_of_aggregated (AGG : list Z → Z) (rows : list Transaction)
    (c : ClaimRecord) :
  c ∈ dropna (sql_group_by AGG rows)
  ↔ c = group_row AGG rows (claim_key c)
    ∧ is_Some (loss_date c)
    ∧ claim_key c ∈ txn_key <$> rows.
Proof.
  rewrite aggregated_rows, list_elem_of_fmap. split.
  - intros (k & -> & Hk). apply list_elem_of_filter in Hk as [Hd Hk].
    rewrite elem_of_group_keys in Hk. rewrite claim_key_group_row.
    split; [done|]. split; [exact Hd|done].
  - intros (Hc & Hd & Hk). exists (claim_key c). split; [done|].
    apply list_elem_of_filter. split; [exact Hd|].
    by apply elem_of_group_keys.
Qed.

(** Rows without a loss date leave no trace in the aggregated frames. *)
Lemma aggregated_ignores_blank (AGG : list Z → Z) (rows : list Transaction) :
  dropna (sql_group_by AGG (filter has_loss_date rows))
  = dropna (sql_group_by AGG rows).
Proof.
  rewrite !aggregated_rows.
  assert (Hkeys : txn_key <$> filter has_loss_date rows
                  = filter (λ k, is_Some k.2) (txn_key <$> rows))
    by exact (fmap_filter_comm txn_key (λ k, is_Some k.2) rows).
  rewrite Hkeys, group_keys_filter, list_filter_filter.
  rewrite (list_filter_iff _ (λ k : key, is_Some k.2)) by tauto.
  apply list_fmap_ext. intros i k Hk.
  apply list_elem_of_lookup_2, list_elem_of_filter in Hk as [Hd _].
  unfold group_row. rewrite !list_filter_filter.
  rewrite (list_filter_iff _ (λ t, txn_key t = k)); [done|].
  intros t. split; [tauto|]. intros <-. done.
Qed.

Lemma dropna_id (rows : list ClaimRecord) :
  (∀ c, c ∈ rows → is_Some (loss_date c)) → dropna rows = rows.
Proof.
  intros H. unfold dropna. induction rows as [|c l IH]; [done|].
  rewrite filter_cons, decide_True by (apply H; left).
  f_equal. apply IH. intros ??. apply H. by right.
Qed.

Lemma SUM_cons (x : Z) (l : list Z) : SUM (x :: l) = x + SUM l.
Proof. reflexivity. Qed.

Lemma SUM_app (l1 l2 : list Z) : SUM (l1 ++ l2) = SUM l1 + SUM l2.
Proof.
  unfold SUM. induction l1 as [|x l1 IH]; cbn; [done|]. rewrite IH. lia.
Qed.

(** The amount a frame with one row per key adds to the sum of a key. *)
Lemma SUM_of_key (AGG : list Z → Z) (rows : list Transaction) (k : key) :
  is_Some k.2 →
  AGG [] = 0 →
  SUM (gross_amount
       <$> filter (λ c, claim_key c = k) (dropna (sql_group_by AGG rows)))
  = AGG (t_gross <$> filter (λ t, txn_key t = k) rows).
Proof.
  intros Hd H0.
  destruct (decide (k ∈ txn_key <$> rows)) as [Hin|Hout].
  - assert (Hc : group_row AGG rows k ∈ dropna (sql_group_by AGG rows)).
    { apply elem_of_aggregated. rewrite claim_key_group_row. done. }
    pose proof (filter_key_NoDup claim_key _ _ (aggregated_NoDup AGG rows) Hc)
      as Hf.
    rewrite claim_key_group_row in Hf. rewrite Hf. cbn. lia.
  - rewrite filter_key_absent.
    + rewrite (filter_key_absent txn_key rows k Hout). cbn. by rewrite H0.
    + rewrite aggregated_keys. intros Hk.
      apply list_elem_of_filter in Hk as [_ Hk].
      by rewrite elem_of_group_keys in Hk.
Qed.

Lemma aggregated_concat_dated (ocr_data paid_data : list Transaction)
    (c : ClaimRecord) :
  c ∈ ocr_claims ocr_data ++ paid_claims paid_data → is_Some (loss_date c).
Proof.
  intros [Hc|Hc]%elem_of_app; apply elem_of_aggregated in Hc; tauto.
Qed.

Lemma combined_rows (ocr_data paid_data : list Transaction) :
  combined_df ocr_data paid_data
  = sum_row (ocr_claims ocr_data ++ paid_claims paid_data)
    <$> group_keys
          (claim_key <$> (ocr_claims ocr_data ++ paid_claims paid_data)).
Proof.
  unfold combined_df, groupby_sum. cbn zeta.
  by rewrite dropna_id by apply aggregated_concat_dated.
Qed.

Lemma combined_keys (ocr_data paid_data : list Transaction) :
  claim_key <$> combined_df ocr_data paid_data
  = group_keys
      (claim_key <$> (ocr_claims ocr_data ++ paid_claims paid_data)).
Proof.
  rewrite combined_rows. apply fmap_claim_key_rows.
  apply claim_key_sum_row.
Qed.

Lemma elem_of_combined_keys (ocr_data paid_data : list Transaction)
    (k : key) :
  k ∈ claim_key <$> combined_df ocr_data paid_data
  ↔ is_Some k.2
    ∧ (k ∈ txn_key <$> ocr_data ∨ k ∈ txn_key <$> paid_data).
Proof.
  rewrite combined_keys, elem_of_group_keys, fmap_app, elem_of_app.
  unfold ocr_claims, paid_claims. rewrite !aggregated_keys.
  rewrite !list_elem_of_filter, !elem_of_group_keys. tauto.
Qed.

Lemma combined_amount (ocr_data paid_data : list Transaction)
    (c : ClaimRecord) :
  c ∈ combined_df ocr_data paid_data →
  gross_amount c
  = paid_total (claim_key c) paid_data + max_reserve (claim_key c) ocr_data.
Proof.
  intros Hc.
  assert (Hk : claim_key c ∈ claim_key <$> combined_df ocr_data paid_data)
    by (apply list_elem_of_fmap; eauto).
  apply elem_of_combined_keys in Hk as [Hd _].
  rewrite combined_rows in Hc.
  apply list_elem_of_fmap in Hc as (k & -> & _).
  rewrite claim_key_sum_row in *. cbn [gross_amount sum_row].
  rewrite filter_app, fmap_app, SUM_app.
  unfold ocr_claims, paid_claims, paid_total, max_reserve.
  rewrite !SUM_of_key by done. lia.
Qed.

(** Rows without a loss date leave no trace in [combined_df]. *)
Lemma combined_ignores_blank (ocr_data paid_data : list Transaction) :
  combined_df (filter has_loss_date ocr_data)
    (filter has_loss_date paid_data)
  = combined_df ocr_data paid_data.
Proof.
  unfold combined_df, ocr_claims, paid_claims.
  by rewrite !aggregated_ignores_blank.
Qed.

(** The aggregated frames do not depend on the order of the input rows. *)
Lemma SUM_perm (l l' : list Z) : l ≡ₚ l' → SUM l = SUM l'.
Proof.
  unfold SUM. induction 1 as [|x l l' _ IH|x y l|l l' l'' _ IH1 _ IH2];
    cbn; [done|by rewrite IH|lia|by rewrite IH1].
Qed.

Lemma foldr_max_swap (a b : Z) (l : list Z) :
  Z.max b (foldr Z.max a l) = Z.max a (foldr Z.max b l).
Proof. induction l as [|x l IH]; cbn; lia. Qed.

Lemma MAX_perm (l l' : list Z) : l ≡ₚ l' → MAX l = MAX l'.
Proof.
  induction 1 as [|x l l' Hp IH|x y l|l l' l'' _ IH1 _ IH2];
    [done| | |by rewrite IH1].
  - cbn. clear IH. induction Hp as [|z l l' _ IH|z w l|l l' l'' _ IH1 _ IH2];
      cbn; [done|by rewrite IH|lia|by rewrite IH1].
  - cbn. apply foldr_max_swap.
Qed.

Lemma aggregated_perm (AGG : list Z → Z) (rows rows' : list Transaction) :
  (∀ l l', l ≡ₚ l' → AGG l = AGG l') →
  rows ≡ₚ rows' →
  dropna (sql_group_by AGG rows) = dropna (sql_group_by AGG rows').
Proof.
  intros HAGG Hp. unfold sql_group_by.
  rewrite (group_keys_perm (txn_key <$> rows) (txn_key <$> rows'))
    by (by rewrite Hp).
  f_equal. apply list_fmap_ext. intros i k _. unfold group_row. cbn zeta.
  f_equal; apply HAGG; by rewrite Hp.
Qed.

Lemma combined_perm (ocr_data ocr_data' paid_data paid_data'
    : list Transaction) :
  ocr_data ≡ₚ ocr_data' → paid_data ≡ₚ paid_data' →
  combined_df ocr_data' paid_data' = combined_df ocr_data paid_data.
Proof.
  intros Ho Hp. unfold combined_df, ocr_claims, paid_claims.
  rewrite (aggregated_perm MAX ocr_data ocr_data' MAX_perm Ho).
  by rewrite (aggregated_perm SUM paid_data paid_data' SUM_perm Hp).
Qed.

(** The groups of a part of the keys are built from the rows of that
    part alone. *)
Section Restrict.

Variable P : key → Prop.
Context `{∀ k, Decision (P k)}.

Lemma filter_key_rows (row : key → ClaimRecord) (ks : list key) :
  (∀ k, claim_key (row k) = k) →
  filter (λ c, P (claim_key c)) (row <$> ks) = row <$> filter P ks.
Proof.
  intros Hrow. induction ks as [|k ks IH]; [done|].
  rewrite fmap_cons, !filter_cons, IH, Hrow.
  by destruct (decide (P k)).
Qed.

Lemma aggregated_restrict (AGG : list Z → Z) (rows : list Transaction) :
  dropna (sql_group_by AGG (filter (λ t, P (txn_key t)) rows))
  = filter (λ c, P (claim_key c)) (dropna (sql_group_by AGG rows)).
Proof.
  rewrite !aggregated_rows.
  rewrite filter_key_rows by apply claim_key_group_row.
  rewrite (fmap_filter_comm txn_key P rows), group_keys_filter.
  rewrite !list_filter_filter.
  rewrite (list_filter_iff (λ k : key, is_Some k.2 ∧ P k)
             (λ k : key, P k ∧ is_Some k.2)) by tauto.
  apply list_fmap_ext. intros i k Hk.
  apply list_elem_of_lookup_2, list_elem_of_filter in Hk as [[HP _] _].
  unfold group_row. cbn zeta. rewrite !list_filter_filter.
  rewrite (list_filter_iff _ (λ t, txn_key t = k)); [done|].
  intros t. split; [tauto|]. by intros <-.
Qed.

Lemma combined_restrict (ocr_data paid_data : list Transaction) :
  combined_df (filter (λ t, P (txn_key t)) ocr_data)
    (filter (λ t, P (txn_key t)) paid_data)
  = filter (λ c, P (claim_key c)) (combined_df ocr_data paid_data).
Proof.
  rewrite !combined_rows.
  rewrite filter_key_rows by apply claim_key_sum_row.
  unfold ocr_claims, paid_claims. rewrite !aggregated_restrict.
  rewrite <- filter_app.
  set (rows := dropna (sql_group_by MAX ocr_data)
               ++ dropna (sql_group_by SUM paid_data)).
  rewrite (fmap_filter_comm claim_key P rows), group_keys_filter.
  apply list_fmap_ext. intros i k Hk.
  apply list_elem_of_lookup_2, list_elem_of_filter in Hk as [HP _].
  unfold sum_row. cbn zeta. rewrite !list_filter_filter.
  rewrite (list_filter_iff _ (λ c, claim_key c = k)); [done|].
  intros c. split; [tauto|]. by intros <-.
Qed.

End Restrict.

End AggregatorFacts.

(** ** Rows without a loss date in the sweep *)

Lemma repeat_rows_filter_comm (m : string → nat) (P : Transaction → Prop)
    `{∀ t, Decision (P t)} (l : list Transaction) :
  repeat_rows m (filter P l) = filter P (repeat_rows m l).
Proof.
  induction l as [|t l IH]; [done|].
  rewrite repeat_rows_cons, filter_app, filter_cons, filter_replicate, <- IH.
  destruct (decide (P t)); [|done]. by rewrite repeat_rows_cons.
Qed.

Section BlankRows.

Context `{CL : ChainLadder}.
Hypothesis engine_drops_blank : drops_blank_origin.
Variable sort_values : list ClaimRecord → list ClaimRecord.

Lemma adapt_blank (paid ocr : list Transaction) :
  adapt (filter has_loss_date paid) (filter has_loss_date ocr)
  = adapt paid ocr.
Proof using engine_drops_blank.
  unfold adapt.
  rewrite (engine_drops_blank paid), (engine_drops_blank ocr).
  rewrite <- !engine_drops_blank. reflexivity.
Qed.

Lemma filter_step_blank (segment_df : list ClaimRecord) (j : nat)
    (paid ocr : list Transaction) :
  filter_step sort_values segment_df j
    (filter has_loss_date paid, filter has_loss_date ocr)
  = (filter has_loss_date (filter_step sort_values segment_df j (paid, ocr)).1,
     filter has_loss_date (filter_step sort_values segment_df j (paid, ocr)).2).
Proof using Type.
  rewrite !filter_step_repeat. cbn [fst snd].
  by rewrite !repeat_rows_filter_comm.
Qed.

Lemma without_blank_fields (st : loop_state) :
  segment_paid (without_blank st) = filter has_loss_date (segment_paid st)
  ∧ segment_ocr (without_blank st) = filter has_loss_date (segment_ocr st)
  ∧ claims_percentage (without_blank st) = claims_percentage st
  ∧ mack_mse (without_blank st) = mack_mse st.
Proof using Type. done. Qed.

Lemma without_blank_mk (p o : list Transaction) (cp ms : list Q) (k : Z)
    (a : list ClaimRecord) :
  without_blank (mkState p o cp ms k a)
  = mkState (filter has_loss_date p) (filter has_loss_date o) cp ms k a.
Proof using Type. reflexivity. Qed.

Lemma sweep_body_blank (segment_df : list ClaimRecord) (i : nat)
    (st : loop_state) :
  sweep_body sort_values segment_df i (without_blank st)
  = without_blank <$> sweep_body sort_values segment_df i st.
Proof using engine_drops_blank.
  rewrite !sweep_body_eq.
  destruct (without_blank_fields st) as (-> & -> & -> & ->).
  rewrite (filter_step_blank segment_df i (segment_paid st) (segment_ocr st)).
  generalize (filter_step sort_values segment_df i
                (segment_paid st, segment_ocr st)),
             (cut_index (length (sort_values segment_df)) i),
             (retained sort_values segment_df i).
  intros p k a. cbn [fst snd]. rewrite adapt_blank.
  destruct (adapt _ _) as [m|e];
    cbn [mbind result_bind fmap result_fmap]; [|reflexivity].
  by rewrite without_blank_mk.
Qed.

Lemma for_each_blank (segment_df : list ClaimRecord) (xs : list nat)
    (st : loop_state) :
  for_each (sweep_body sort_values segment_df) xs (without_blank st)
  = without_blank <$> for_each (sweep_body sort_values segment_df) xs st.
Proof using engine_drops_blank.
  revert st. induction xs as [|i xs IH]; intros st; [done|].
  cbn [for_each]. rewrite sweep_body_blank.
  destruct (sweep_body sort_values segment_df i st) as [st'|e]; [|done].
  cbn. apply IH.
Qed.

Lemma segment_rows_blank (seg : string) (rows : list Transaction) :
  segment_rows t_segment seg (filter has_loss_date rows)
  = filter has_loss_date (segment_rows t_segment seg rows).
Proof using Type.
  unfold segment_rows. rewrite !list_filter_filter.
  apply list_filter_iff. tauto.
Qed.

Lemma run_segment_blank (combined_df : list ClaimRecord)
    (paid_data ocr_data : list Transaction) (seg : string) :
  run_segment sort_values combined_df (filter has_loss_date paid_data)
    (filter has_loss_date ocr_data) seg
  = run_without_blank
    <$> run_segment sort_values combined_df paid_data ocr_data seg.
Proof using engine_drops_blank.
  unfold run_segment. cbn zeta. rewrite !segment_rows_blank.
  pose proof (for_each_blank (segment_rows segment seg combined_df)
                (seq 0 (interval + 1))
                (mkState (segment_rows t_segment seg paid_data)
                   (segment_rows t_segment seg ocr_data) [] [] 0 [])) as H.
  unfold without_blank at 1 in H.
  cbn [segment_paid segment_ocr claims_percentage mack_mse one_percent_index
       attritional_claims] in H.
  rewrite H. clear H.
  destruct (for_each _ _ _) as [st|e];
    cbn [fmap result_fmap mbind result_bind mret result_ret without_blank
         mack_mse claims_percentage one_percent_index]; [|reflexivity].
  destruct (Detector.max_drop_index (mack_mse st)) as [k|e];
    cbn [fmap result_fmap mbind result_bind]; [|reflexivity].
  destruct (Detector.mack_mse_diff (mack_mse st) !! k) as [d|];
    cbn [fmap result_fmap mbind result_bind]; [|reflexivity].
  destruct (Detector.loc k (claims_percentage st)) as [v|e]; reflexivity.
Qed.

Lemma segment_loop_blank (combined_df : list ClaimRecord)
    (paid_data ocr_data : list Transaction) (segs : list string)
    (tp : gmap string Q) :
  segment_loop sort_values combined_df (filter has_loss_date paid_data)
    (filter has_loss_date ocr_data) segs tp
  = segment_loop sort_values combined_df paid_data ocr_data segs tp.
Proof using engine_drops_blank.
  revert tp. induction segs as [|seg segs IH]; intros tp; [done|].
  cbn [segment_loop]. rewrite run_segment_blank.
  destruct (run_segment sort_values combined_df paid_data ocr_data seg)
    as [r|e]; [|done].
  cbn. apply IH.
Qed.

Lemma notebook_blank (paid_data ocr_data : list Transaction) :
  notebook sort_values (filter has_loss_date paid_data)
    (filter has_loss_date ocr_data)
  = notebook sort_values paid_data ocr_data.
Proof using engine_drops_blank.
  unfold notebook, segment_list, Aggregator.ocr_claims.
  rewrite AggregatorFacts.combined_ignores_blank.
  rewrite AggregatorFacts.aggregated_ignores_blank.
  apply segment_loop_blank.
Qed.

End BlankRows.

Lemma stub_drops_blank : @drops_blank_origin stub.
Proof.
  intros data o d cols cum. cbn. unfold stub_total.
  assert (H : filter (λ t, is_Some (t_loss_date t))
                (filter has_loss_date data)
              = filter (λ t, is_Some (t_loss_date t)) data).
  { rewrite list_filter_filter. apply list_filter_iff.
    intros t. unfold has_loss_date. tauto. }
  by rewrite H.
Qed.



(** ** Sorting and ties *)

(** Two sorting routines agree on a frame in which no two rows have the
    same gross amount, whatever the order of its rows. *)
Lemma sorted_frame_unique (sort1 sort2 : list ClaimRecord → list ClaimRecord)
    (df df' : list ClaimRecord) :
  sort_contract sort1 → sort_contract sort2 →
  df ≡ₚ df' →
  (∀ a b, a ∈ df → b ∈ df → gross_amount a = gross_amount b → a = b) →
  sort2 df' = sort1 df.
Proof.
  intros [Hp1 Hs1] [Hp2 Hs2] Hperm Hties.
  apply (Sorted_unique_strong ge_gross); [|apply Hs2|apply Hs1|].
  - intros a b Ha Hb Hab Hba. apply Hties.
    + by rewrite Hp2, <- Hperm in Ha.
    + by rewrite Hp1 in Hb.
    + unfold ge_gross in *. lia.
  - by rewrite Hp1, Hp2.
Qed.

Lemma for_each_ext {X S : Type} (body body' : X → S → result S)
    (xs : list X) (st : S) :
  (∀ x s, body x s = body' x s) →
  for_each body xs st = for_each body' xs st.
Proof.
  intros H. revert st. induction xs as [|x xs IH]; intros st; [done|].
  cbn [for_each]. rewrite H. destruct (body' x st); cbn; [apply IH|done].
Qed.

(** The pass of a segment sees the claim frame through its sorted form
    only. *)
Lemma run_segment_sorted `{CL : ChainLadder}
    (sort1 sort2 : list ClaimRecord → list ClaimRecord)
    (cdf cdf' : list ClaimRecord) (paid_data ocr_data : list Transaction)
    (seg : string) :
  sort2 (segment_rows segment seg cdf') = sort1 (segment_rows segment seg cdf) →
  run_segment sort2 cdf' paid_data ocr_data seg
  = run_segment sort1 cdf paid_data ocr_data seg.
Proof.
  intros H. unfold run_segment. cbn zeta. rewrite H.
  rewrite (for_each_ext
             (sweep_body sort2 (segment_rows segment seg cdf'))
             (sweep_body sort1 (segment_rows segment seg cdf))); [done|].
  intros i st. unfold sweep_body, filter_step, retained. cbn zeta.
  by rewrite H.
Qed.

(** ** The order of the transaction rows in the sweep *)

Section RowOrder.

Context `{CL : ChainLadder}.
Hypothesis engine_order_insensitive : order_insensitive.
Variable sort_values : list ClaimRecord → list ClaimRecord.

Lemma adapt_perm (paid paid' ocr ocr' : list Transaction) :
  paid ≡ₚ paid' → ocr ≡ₚ ocr' → adapt paid ocr = adapt paid' ocr'.
Proof using engine_order_insensitive.
  intros Hp Ho. unfold adapt.
  rewrite (engine_order_insensitive paid paid' _ _ _ _ Hp).
  by rewrite (engine_order_insensitive ocr ocr' _ _ _ _ Ho).
Qed.

Lemma filter_step_perm (segment_df : list ClaimRecord) (j : nat)
    (sets sets' : list Transaction * list Transaction) :
  sets.1 ≡ₚ sets'.1 → sets.2 ≡ₚ sets'.2 →
  (filter_step sort_values segment_df j sets).1
    ≡ₚ (filter_step sort_values segment_df j sets').1
  ∧ (filter_step sort_values segment_df j sets).2
      ≡ₚ (filter_step sort_values segment_df j sets').2.
Proof using Type.
  intros H1 H2. rewrite !filter_step_repeat. cbn [fst snd].
  unfold repeat_rows. by rewrite H1, H2.
Qed.

Lemma for_each_perm (segment_df : list ClaimRecord) (xs : list nat)
    (st st' : loop_state) :
  same_rows st st' →
  match for_each (sweep_body sort_values segment_df) xs st,
        for_each (sweep_body sort_values segment_df) xs st' with
  | Ok s, Ok s' => same_rows s s'
  | Raise e, Raise e' => e = e'
  | _, _ => False
  end.
Proof using engine_order_insensitive.
  revert st st'. induction xs as [|i xs IH]; intros st st' Hst; [done|].
  cbn [for_each]. rewrite !sweep_body_eq.
  destruct Hst as (Hp & Ho & Hcp & Hm & Hi & Ha).
  destruct (filter_step_perm segment_df i
              (segment_paid st, segment_ocr st)
              (segment_paid st', segment_ocr st') Hp Ho) as [Hp' Ho'].
  rewrite (adapt_perm _ _ _ _ Hp' Ho').
  destruct (adapt _ _) as [m|e]; cbn [mbind result_bind mret result_ret];
    [|done].
  apply IH. unfold same_rows. cbn. by rewrite Hcp, Hm.
Qed.

Lemma run_segment_perm (combined_df : list ClaimRecord)
    (paid_data paid_data' ocr_data ocr_data' : list Transaction)
    (seg : string) :
  paid_data ≡ₚ paid_data' → ocr_data ≡ₚ ocr_data' →
  same_outcome
    (run_segment sort_values combined_df paid_data ocr_data seg)
    (run_segment sort_values combined_df paid_data' ocr_data' seg).
Proof using engine_order_insensitive.
  intros Hp Ho. unfold run_segment. cbn zeta.
  assert (Hinit : same_rows
            (mkState (segment_rows t_segment seg paid_data)
               (segment_rows t_segment seg ocr_data) [] [] 0 [])
            (mkState (segment_rows t_segment seg paid_data')
               (segment_rows t_segment seg ocr_data') [] [] 0 [])).
  { unfold same_rows, segment_rows. cbn. by rewrite Hp, Ho. }
  pose proof (for_each_perm (segment_rows segment seg combined_df)
                (seq 0 (interval + 1)) _ _ Hinit) as H.
  clear Hinit.
  destruct (for_each _ _ (mkState (segment_rows t_segment seg paid_data) _
                            _ _ _ _)) as [st|e];
    destruct (for_each _ _ (mkState (segment_rows t_segment seg paid_data') _
                              _ _ _ _)) as [st'|e'];
    cbn [mbind result_bind]; try done.
  destruct H as (Hp' & Ho' & Hcp & Hm & Hi & Ha).
  rewrite <- Hm, <- Hcp, <- Hi.
  destruct (Detector.max_drop_index (mack_mse st)) as [k|e];
    cbn [mbind result_bind]; [|done].
  destruct (Detector.mack_mse_diff (mack_mse st) !! k) as [d|];
    cbn [mbind result_bind]; [|done].
  destruct (Detector.loc k (claims_percentage st)) as [v|e];
    cbn [mbind result_bind mret result_ret same_outcome]; [|done].
  cbn. unfold same_rows. done.
Qed.

Lemma segment_loop_perm (combined_df : list ClaimRecord)
    (paid_data paid_data' ocr_data ocr_data' : list Transaction)
    (segs : list string) (tp : gmap string Q) :
  paid_data ≡ₚ paid_data' → ocr_data ≡ₚ ocr_data' →
  segment_loop sort_values combined_df paid_data' ocr_data' segs tp
  = segment_loop sort_values combined_df paid_data ocr_data segs tp.
Proof using engine_order_insensitive.
  intros Hp Ho. revert tp.
  induction segs as [|seg segs IH]; intros tp; [done|].
  cbn [segment_loop].
  pose proof (run_segment_perm combined_df _ _ _ _ seg Hp Ho) as H.
  destruct (run_segment sort_values combined_df paid_data ocr_data seg)
    as [r|e];
    destruct (run_segment sort_values combined_df paid_data' ocr_data' seg)
    as [r'|e']; cbn in H; try done.
  - destruct H as (_ & _ & _ & <- & _). apply IH.
  - by subst.
Qed.

Lemma notebook_perm (paid_data paid_data' ocr_data ocr_data'
    : list Transaction) :
  paid_data ≡ₚ paid_data' → ocr_data ≡ₚ ocr_data' →
  notebook sort_values paid_data' ocr_data'
  = notebook sort_values paid_data ocr_data.
Proof using engine_order_insensitive.
  intros Hp Ho. unfold notebook, segment_list, Aggregator.ocr_claims.
  rewrite (AggregatorFacts.combined_perm _ _ _ _ Ho Hp).
  rewrite (AggregatorFacts.aggregated_perm Aggregator.MAX ocr_data' ocr_data
             AggregatorFacts.MAX_perm) by done.
  by apply segment_loop_perm.
Qed.

End RowOrder.

Lemma stub_order_insensitive : @order_insensitive stub.
Proof.
  intros data data' o d cols cum Hp. cbn. unfold stub_total.
  rewrite (AggregatorFacts.SUM_perm
             (t_gross <$> filter (λ t, is_Some (t_loss_date t)) data)
             (t_gross <$> filter (λ t, is_Some (t_loss_date t)) data'))
    by (by rewrite Hp).
  destruct (decide (filter _ data = [])) as [He|Hne];
    destruct (decide (filter _ data' = [])) as [He'|Hne']; try done.
  - exfalso. apply Hne'. apply Permutation_nil_r. by rewrite <- He, Hp.
  - exfalso. apply Hne. apply Permutation_nil_r. by rewrite <- He', Hp.
Qed.

Lemma no_ties_of_NoDup (df : list ClaimRecord) :
  NoDup (gross_amount <$> df) →
  ∀ a b, a ∈ df → b ∈ df → gross_amount a = gross_amount b → a = b.
Proof.
  induction df as [|c df IH]; intros Hnd a b Ha Hb Hab.
  - by apply elem_of_nil in Ha.
  - rewrite fmap_cons in Hnd. apply NoDup_cons in Hnd as [Hc Hnd].
    apply elem_of_cons in Ha as [->|Ha], Hb as [->|Hb]; [done| | |by apply IH].
    + exfalso. apply Hc. rewrite Hab. apply list_elem_of_fmap. eauto.
    + exfalso. apply Hc. rewrite <- Hab. apply list_elem_of_fmap. eauto.
Qed.




(** ** The loop over the segments *)

Section SegmentLoop.

Context `{CL : ChainLadder}.
Variable sort_values : list ClaimRecord → list ClaimRecord.

Lemma segment_loop_Ok (combined_df : list ClaimRecord)
    (paid_data ocr_data : list Transaction) (segs : list string)
    (tp m : gmap string Q) :
  segment_loop sort_values combined_df paid_data ocr_data segs tp = (m, None) →
  ∀ key : string,
    ((key ∉ (λ seg, "Rwanda " +:+ seg) <$> segs) ∧ m !! key = tp !! key)
    ∨ ∃ seg r,
        seg ∈ segs ∧ key = "Rwanda " +:+ seg
        ∧ run_segment sort_values combined_df paid_data ocr_data seg = Ok r
        ∧ m !! key = Some (threshold r).
Proof.
  revert tp. induction segs as [|seg segs IH]; intros tp Hloop key.
  - cbn in Hloop. injection Hloop as <-. left. split; [|done].
    apply not_elem_of_nil.
  - cbn [segment_loop] in Hloop.
    destruct (run_segment sort_values combined_df paid_data ocr_data seg)
      as [r|e] eqn:Hrun; [|done].
    destruct (IH _ Hloop key) as [[Hout Hm]|(seg' & r' & Hin & -> & Hr' & Hm)].
    + destruct (decide (key = "Rwanda " +:+ seg)) as [->|Hne].
      * right. exists seg, r. rewrite lookup_insert_eq in Hm.
        split; [left|done].
      * left. rewrite lookup_insert_ne in Hm by done. split; [|done].
        rewrite fmap_cons. intros [?|?]%elem_of_cons; done.
    + right. exists seg', r'. split; [by right|done].
Qed.

(** The pass of a segment reads the rows of that segment only. *)
Lemma run_segment_own_rows (paid_data ocr_data : list Transaction)
    (seg : string) :
  run_segment sort_values (Aggregator.combined_df ocr_data paid_data)
    paid_data ocr_data seg
  = run_segment sort_values
      (Aggregator.combined_df (segment_rows t_segment seg ocr_data)
         (segment_rows t_segment seg paid_data))
      (segment_rows t_segment seg paid_data)
      (segment_rows t_segment seg ocr_data) seg.
Proof.
  assert (Hdf : segment_rows segment seg
                  (Aggregator.combined_df ocr_data paid_data)
                = Aggregator.combined_df (segment_rows t_segment seg ocr_data)
                    (segment_rows t_segment seg paid_data)).
  { symmetry.
    exact (AggregatorFacts.combined_restrict (λ k, k.1.2 = seg)
             ocr_data paid_data). }
  assert (Hidem : ∀ {A : Type} (f : A → string) (l : list A),
            segment_rows f seg (segment_rows f seg l) = segment_rows f seg l).
  { intros A f l. unfold segment_rows. rewrite list_filter_filter.
    apply list_filter_iff. tauto. }
  unfold run_segment. cbn zeta. by rewrite !Hidem, <- Hdf, Hidem.
Qed.

End SegmentLoop.

(** C9, as the code has it.  The sweep and the detector are run for the
    first four segments, in order of first appearance, of the aggregated
    OCR claims, and for no other.  When no pass raises, the dictionary
    holds for each of them, under ["Rwanda " + segment], the percentage its
    pass selected, and nothing else; the pass of a segment is the pass on
    the rows of that segment alone. *)
Theorem orchestrator_first_four `{CL : ChainLadder}
    (sort_values : list ClaimRecord → list ClaimRecord)
    (paid_data ocr_data : list Transaction) (m : gmap string Q) :
  notebook sort_values paid_data ocr_data = (m, None) →
  (length (take 4 (segment_list ocr_data)) ≤ 4)%nat
  ∧ (∀ seg, seg ∈ take 4 (segment_list ocr_data) →
       ∃ r,
         run_segment sort_values
           (Aggregator.combined_df (segment_rows t_segment seg ocr_data)
              (segment_rows t_segment seg paid_data))
           (segment_rows t_segment seg paid_data)
           (segment_rows t_segment seg ocr_data) seg = Ok r
         ∧ m !! ("Rwanda " +:+ seg) = Some (threshold r))
  ∧ (∀ key, is_Some (m !! key) →
       ∃ seg, seg ∈ take 4 (segment_list ocr_data)
              ∧ key = "Rwanda " +:+ seg).
Proof.
  intros Hrun. unfold notebook in Hrun.
  pose proof (segment_loop_Ok sort_values _ _ _ _ _ _ Hrun) as Hkeys.
  split; [rewrite length_take; lia|]. split.
  - intros seg Hseg.
    destruct (Hkeys ("Rwanda " +:+ seg))
      as [[Hout _]|(seg' & r & Hin & Heq & Hr & Hm)].
    + exfalso. apply Hout. apply list_elem_of_fmap. eauto.
    + apply (inj (String.app "Rwanda ")) in Heq. subst seg'.
      exists r. split; [|done]. by rewrite <- run_segment_own_rows.
  - intros key [v Hv].
    destruct (Hkeys key) as [[_ Hm]|(seg & r & Hin & -> & _ & _)].
    + rewrite Hm, lookup_empty in Hv. done.
    + by exists seg.
Qed.

Lemma orchestrator_first_four_witness :
  ∃ seg, seg ∈ take 4 (segment_list five_ocr)
         ∧ "Rwanda Fire" = "Rwanda " +:+ seg.
Proof.
  refine (proj2 (proj2 (orchestrator_first_four sort_merge
                          five_paid five_ocr
                          (notebook sort_merge five_paid five_ocr).1 _))
            "Rwanda Fire" _).
  - vm_compute. reflexivity.
  - exists (99 # 100)%Q. vm_compute. reflexivity.
Defined.

(** C9 as stated fails on five segments: the segments of the aggregated
    OCR claims are Cargo, Fire, Health, Motor and Travel (the group rows
    come in key order), the run ends without an
    exception, and the dictionary has entries for the first four and none
    for Travel. *)
Lemma fifth_segment_counterexample :
  segment_list five_ocr = ["Cargo"; "Fire"; "Health"; "Motor"; "Travel"]
  ∧ notebook sort_merge five_paid five_ocr
    = ({["Rwanda Motor" := (99 # 100)%Q; "Rwanda Fire" := (99 # 100)%Q;
         "Rwanda Cargo" := (99 # 100)%Q; "Rwanda Health" := (99 # 100)%Q]},
       None)
  ∧ (notebook sort_merge five_paid five_ocr).1 !! "Rwanda Travel" = None.
Proof. repeat split; by vm_compute. Qed.

(** ** Bounds on the row cut *)

Module F64Bounds.
Import F64 F64Facts.

(** The rounding error is at most half a unit of the last place kept: a
    relative error of at most [2 ^ -53]. *)
Lemma round53_error (m : Z) :
  0 ≤ m → - m ≤ 2 ^ 53 * (round53 m - m) ≤ m.
Proof.
  intros H0. destruct (decide (m < 2 ^ 53)) as [Hs|Hb].
  { rewrite round53_small by done. lia. }
  destruct (round53_big m) as (Hk & Hq & E); [lia|].
  set (k := Z.log2 m - 52) in *.
  assert (HP : 0 < 2 ^ (k - 1)) by (apply Z.pow_pos_nonneg; lia).
  assert (H2 : 2 ^ k = 2 * 2 ^ (k - 1)).
  { rewrite <- Z.pow_succ_r by lia. f_equal. lia. }
  pose proof (Z.div_mod m (2 ^ k) ltac:(lia)) as Hdm.
  pose proof (Z.mod_pos_bound m (2 ^ k) ltac:(lia)) as Hr.
  rewrite E. unfold nearest_even.
  set (q := m / 2 ^ k) in *. set (r := m mod 2 ^ k) in *.
  set (h := 2 ^ (k - 1)) in *.
  assert (Hm : 2 ^ 53 * h ≤ m) by nia.
  repeat case_match; nia.
Qed.

(** A double is its own rounding. *)
Lemma round53_exact (a e : Z) :
  0 ≤ a < 2 ^ 53 → 0 ≤ e → round53 (a * 2 ^ e) = a * 2 ^ e.
Proof.
  intros Ha He.
  destruct (decide (a * 2 ^ e < 2 ^ 53)) as [Hs|Hb];
    [by apply round53_small|].
  assert (HPe : 0 < 2 ^ e) by (apply Z.pow_pos_nonneg; lia).
  assert (Hapos : 0 < a) by nia.
  destruct (round53_big (a * 2 ^ e)) as (Hk & Hq & E); [lia|].
  set (k := Z.log2 (a * 2 ^ e) - 52) in *.
  assert (Hke : k ≤ e).
  { unfold k. rewrite Z.log2_mul_pow2 by lia.
    assert (Z.log2 a < 53) by (apply Z.log2_lt_pow2; lia). lia. }
  assert (Hsplit : a * 2 ^ e = (a * 2 ^ (e - k)) * 2 ^ k).
  { rewrite <- Z.mul_assoc, <- Z.pow_add_r by lia. do 2 f_equal. lia. }
  assert (HPk : 0 < 2 ^ k) by (apply Z.pow_pos_nonneg; lia).
  assert (HPh : 0 < 2 ^ (k - 1)) by (apply Z.pow_pos_nonneg; lia).
  rewrite E. rewrite Hsplit at 1 2.
  rewrite Z.div_mul, Z.mod_mul by lia.
  unfold nearest_even. rewrite (proj2 (Z.ltb_lt 0 _) HPh). lia.
Qed.

End F64Bounds.

Lemma half_percent_index_eq (len : nat) :
  half_percent_index len
  = F64.round53 (F64.round53 (Z.of_nat len) * 5764607523034235) / 2 ^ 60.
Proof. reflexivity. Qed.

Lemma half_percent_index_exact (len : nat) :
  Z.of_nat len < 2 ^ 32 →
  half_percent_index len = Z.of_nat len / 200.
Proof.
  intros Hlen. rewrite half_percent_index_eq.
  rewrite (F64Facts.round53_small (Z.of_nat len)) by lia.
  set (n := Z.of_nat len) in *. set (q := n / 200).
  assert (Hn : 0 ≤ n) by (unfold n; lia).
  pose proof (Z.div_mod n 200 ltac:(lia)) as Hdm.
  pose proof (Z.mod_pos_bound n 200 ltac:(lia)) as Hr. fold q in Hdm.
  assert (Hq : 0 ≤ q < 2 ^ 32) by (unfold q; split;
    [apply Z.div_pos; lia|apply Z.div_lt_upper_bound; lia]).
  symmetry. apply Z.div_unique_pos with
    (r := F64.round53 (n * 5764607523034235) - q * 2 ^ 60) .
  2: lia.
  split.
  - pose proof (F64Facts.round53_mono (q * 2 ^ 60) (n * 5764607523034235)
                  ltac:(lia) ltac:(lia)) as Hm.
    rewrite F64Bounds.round53_exact in Hm by lia. lia.
  - pose proof (F64Bounds.round53_error (n * 5764607523034235) ltac:(lia)).
    lia.
Qed.

(** The mantissa of the double that the sweep truncates, against the exact
    quotient [q] and remainder of [len * i] by 100. *)
Lemma cut_index_window (len i : nat) :
  Z.of_nat len < 2 ^ 32 → (i ≤ 100)%nat →
  let r2 := F64.round53
              (F64.round53 (F64.round53 (Z.of_nat len) * 5764607523034235)
               * F64.round53 (Z.of_nat i)) in
  let q := Z.of_nat len * Z.of_nat i / 100 in
  (q - 1) * 2 ^ 59 ≤ r2 < (q + 1) * 2 ^ 59
  ∧ (Z.of_nat len * Z.of_nat i mod 100 ≠ 0 → q * 2 ^ 59 ≤ r2).
Proof.
  intros Hlen Hi.
  rewrite (F64Facts.round53_small (Z.of_nat len)) by lia.
  rewrite (F64Facts.round53_small (Z.of_nat i)) by lia.
  set (n := Z.of_nat len) in *. set (j := Z.of_nat i).
  assert (Hn : 0 ≤ n) by (unfold n; lia).
  assert (Hj : 0 ≤ j ≤ 100) by (unfold j; lia).
  set (r1 := F64.round53 (n * 5764607523034235)).
  pose proof (F64Bounds.round53_error (n * 5764607523034235) ltac:(lia)) as E1.
  fold r1 in E1.
  assert (Hr1 : 0 ≤ r1) by (apply F64Facts.round53_nonneg; lia).
  pose proof (F64Bounds.round53_error (r1 * j) ltac:(nia)) as E2.
  set (r2 := F64.round53 (r1 * j)) in *.
  set (X := n * j).
  assert (HX : 0 ≤ X < 100 * 2 ^ 32) by (unfold X; nia).
  pose proof (Z.div_mod X 100 ltac:(lia)) as Hdm.
  pose proof (Z.mod_pos_bound X 100 ltac:(lia)) as Hr.
  set (q := X / 100) in *. set (s := X mod 100) in *.
  assert (Hq : 0 ≤ q < 2 ^ 32) by (unfold q; split;
    [apply Z.div_pos; lia|apply Z.div_lt_upper_bound; lia]).
  (* two roundings, on the scale of [2 ^ 106] *)
  assert (Hup : 2 ^ 106 * r2 ≤ (2 ^ 53 + 1) * (2 ^ 53 + 1)
                                * (X * 5764607523034235)).
  { unfold X. nia. }
  assert (Hlo : (2 ^ 53 - 1) * (2 ^ 53 - 1) * (X * 5764607523034235)
                ≤ 2 ^ 106 * r2).
  { unfold X. nia. }
  cbn zeta. split; [lia|]. intros Hs. lia.
Qed.

(** A frame whose length is a multiple of 100 is cut exactly. *)
Lemma cut_index_hundreds (len i : nat) :
  Z.of_nat len < 2 ^ 32 → (i ≤ 100)%nat →
  Z.of_nat len mod 100 = 0 →
  Z.of_nat len * Z.of_nat i / 100 * 2 ^ 59
  ≤ F64.round53
      (F64.round53 (F64.round53 (Z.of_nat len) * 5764607523034235)
       * F64.round53 (Z.of_nat i)).
Proof.
  intros Hlen Hi Hmod.
  rewrite (F64Facts.round53_small (Z.of_nat len)) by lia.
  rewrite (F64Facts.round53_small (Z.of_nat i)) by lia.
  set (n := Z.of_nat len) in *. set (j := Z.of_nat i).
  assert (Hj : 0 ≤ j ≤ 100) by (unfold j; lia).
  pose proof (Z.div_mod n 100 ltac:(lia)) as Hdm. rewrite Hmod in Hdm.
  set (k := n / 100) in *.
  assert (Hk : 0 ≤ k < 2 ^ 32) by (unfold n in *; lia).
  assert (Hq : n * j / 100 = k * j).
  { rewrite Hdm, Z.add_0_r, <- Z.mul_assoc, Z.mul_comm, Z.div_mul; lia. }
  rewrite Hq.
  pose proof (F64Facts.round53_mono (k * 2 ^ 59) (n * 5764607523034235)
                ltac:(lia) ltac:(lia)) as H1.
  rewrite F64Bounds.round53_exact in H1 by lia.
  set (r1 := F64.round53 (n * 5764607523034235)) in *.
  pose proof (F64Facts.round53_mono (k * j * 2 ^ 59) (r1 * j)
                ltac:(nia) ltac:(nia)) as H2.
  rewrite F64Bounds.round53_exact in H2 by nia. exact H2.
Qed.

(** X1.  The cut [int(len * 0.01 * i)] of a sweep step, for a frame of
    fewer than [2 ^ 32] rows and a step up to 100, is the exact quotient
    [len * i / 100] rounded down or one less than it, never more; it is the
    exact quotient whenever [len * i] is not a multiple of 100, and
    whenever [len] is a multiple of 100. *)
Theorem cut_index_within_one_of_floor (len i : nat) :
  Z.of_nat len < 2 ^ 32 → (i ≤ 100)%nat →
  Z.of_nat len * Z.of_nat i / 100 - 1 ≤ cut_index len i
  ∧ cut_index len i ≤ Z.of_nat len * Z.of_nat i / 100
  ∧ (Z.of_nat len * Z.of_nat i mod 100 ≠ 0 →
     cut_index len i = Z.of_nat len * Z.of_nat i / 100)
  ∧ (Z.of_nat len mod 100 = 0 →
     cut_index len i = Z.of_nat len * Z.of_nat i / 100).
Proof.
  intros Hlen Hi. rewrite cut_index_eq.
  destruct (cut_index_window len i Hlen Hi) as [[Hge Hlt] Hex].
  pose proof (cut_index_hundreds len i Hlen Hi) as Hhun.
  set (r2 := F64.round53 _) in *.
  set (q := Z.of_nat len * Z.of_nat i / 100) in *.
  split; [apply Z.div_le_lower_bound; lia|].
  split; [apply Z.lt_succ_r, Z.div_lt_upper_bound; lia|].
  split; intros Hs; [specialize (Hex Hs)|specialize (Hhun Hs)];
    symmetry; apply Z.div_unique_pos with (r := r2 - q * 2 ^ 59); lia.
Qed.

Lemma cut_index_within_one_of_floor_witness :
  29 - 1 ≤ cut_index 116 25 ≤ 29
  ∧ cut_index 117 25 = 29
  ∧ cut_index 200 25 = 50.
Proof.
  destruct (cut_index_within_one_of_floor 116 25) as (H1 & H2 & _);
    [reflexivity|lia|].
  destruct (cut_index_within_one_of_floor 117 25) as (_ & _ & H3 & _);
    [reflexivity|lia|].
  destruct (cut_index_within_one_of_floor 200 25) as (_ & _ & _ & H4);
    [reflexivity|lia|].
  split; [exact (conj H1 H2)|]. split; [apply H3; discriminate|].
  apply H4. reflexivity.
Defined.

Lemma cut_index_le_exact (len i : nat) :
  Z.of_nat len < 2 ^ 32 → (i ≤ 100)%nat →
  cut_index len i ≤ Z.of_nat len * Z.of_nat i / 100.
Proof.
  intros Hlen Hi. rewrite cut_index_eq.
  destruct (cut_index_window len i Hlen Hi) as [[_ Hlt] _].
  apply Z.lt_succ_r, Z.div_lt_upper_bound; lia.
Qed.

(** X2.  At every step of the sweep ([i <= 30]) the claims retained are
    at least seven tenths of the claims of the segment, so a segment with a
    claim never has all its claims cut. *)
Theorem sweep_keeps_seventy_percent
    (sort_values : list ClaimRecord → list ClaimRecord)
    (segment_df : list ClaimRecord) (i : nat) :
  sort_values segment_df ≡ₚ segment_df →
  Z.of_nat (length segment_df) < 2 ^ 32 →
  (i ≤ interval)%nat →
  (7 * length segment_df
   ≤ 10 * length (retained sort_values segment_df i))%nat
  ∧ (segment_df ≠ [] → retained sort_values segment_df i ≠ []).
Proof.
  intros Hperm Hlen Hi.
  destruct (retained_count sort_values segment_df i Hperm) as [_ Hcount].
  pose proof (cut_index_le_exact (length segment_df) i Hlen
                ltac:(unfold interval in Hi; lia)) as Hcut.
  pose proof (cut_index_nonneg (length segment_df) i) as H0.
  assert (Hq : Z.of_nat (length segment_df) * Z.of_nat i / 100
               ≤ 3 * Z.of_nat (length segment_df) / 10).
  { unfold interval in Hi.
    apply Z.div_le_lower_bound; [lia|].
    pose proof (Z.mul_div_le (Z.of_nat (length segment_df) * Z.of_nat i) 100
                  ltac:(lia)).
    nia. }
  assert (H7 : (7 * length segment_df
                ≤ 10 * length (retained sort_values segment_df i))%nat).
  { rewrite Hcount.
    pose proof (Z.mul_div_le (3 * Z.of_nat (length segment_df)) 10 ltac:(lia)).
    lia. }
  split; [done|]. intros Hne Hnil. rewrite Hnil in H7.
  destruct segment_df; [done|]. cbn [length] in H7. lia.
Qed.

Lemma sweep_keeps_seventy_percent_witness :
  (7 * length (numbered_claims 116)
   ≤ 10 * length (retained sort_merge (numbered_claims 116) 30))%nat.
Proof.
  refine (proj1 (sweep_keeps_seventy_percent sort_merge (numbered_claims 116)
                   30 _ _ _)).
  - apply merge_sort_Permutation.
  - reflexivity.
  - unfold interval. lia.
Defined.

(** X3.  The cut [int(len(ordered_df) * 0.005)] taken on the whole
    aggregated frame after the segment loop is exactly [len / 200] rounded
    down (no rounding slip here), [ordered_df] is the sorted frame without
    its first [len / 200] rows, and each row left out has a gross amount
    at least that of each row kept. *)
Theorem ordered_df_drops_top_half_percent
    (sort_values : list ClaimRecord → list ClaimRecord)
    (combined_df : list ClaimRecord) :
  sort_contract sort_values →
  Z.of_nat (length combined_df) < 2 ^ 32 →
  half_percent_index (length combined_df)
  = Z.of_nat (length combined_df) / 200
  ∧ ∃ large,
      sort_values combined_df = large ++ ordered_df sort_values combined_df
      ∧ Z.of_nat (length large) = Z.of_nat (length combined_df) / 200
      ∧ ∀ a b, a ∈ large → b ∈ ordered_df sort_values combined_df →
               gross_amount b ≤ gross_amount a.
Proof.
  intros [Hperm Hsorted] Hlen.
  pose proof (half_percent_index_exact (length combined_df) Hlen) as Hcut.
  split; [done|].
  assert (H0 : 0 ≤ Z.of_nat (length combined_df) / 200)
    by (apply Z.div_pos; lia).
  assert (Hle : Z.of_nat (length combined_df) / 200
                ≤ Z.of_nat (length combined_df))
    by (apply Z.div_le_upper_bound; lia).
  set (k := Z.to_nat (Z.of_nat (length combined_df) / 200)).
  assert (Hl : length (sort_values combined_df) = length combined_df)
    by (by rewrite Hperm).
  assert (Hord : ordered_df sort_values combined_df
                 = drop k (sort_values combined_df)).
  { unfold ordered_df, iloc_from. cbn zeta. rewrite Hl, Hcut.
    case_match; [done|lia]. }
  exists (take k (sort_values combined_df)).
  rewrite Hord, take_drop. split; [done|]. split.
  - rewrite length_take, Hl. unfold k. lia.
  - intros a b Ha Hb.
    specialize (Hsorted combined_df).
    apply Sorted_StronglySorted in Hsorted; [|apply _].
    rewrite <- (take_drop k (sort_values combined_df)) in Hsorted.
    apply StronglySorted_app in Hsorted as (Hcross & _ & _).
    by apply Hcross.
Qed.

Lemma ordered_df_drops_top_half_percent_witness :
  half_percent_index (length (numbered_claims 400)) = 2.
Proof.
  exact (proj1 (ordered_df_drops_top_half_percent sort_merge
                  (numbered_claims 400) sort_merge_contract eq_refl)).
Defined.

(** Cross-checks in the binary64 numbers of the kernel. *)
Module Binary64Facts.
Import PrimFloat.

(** The half-percent cut is what the kernel's product truncates to, on
    frames of up to 2000 rows. *)
Lemma half_percent_index_binary64 :
  forallb (λ len,
    Binary64.truncates_to
      (Binary64.of_nat len * 0x1.47ae147ae147bp-8)%float
      (Z.to_nat (half_percent_index len)))
    (seq 0 2001) = true.
Proof. vm_compute. reflexivity. Qed.

(** [int(round((start_point-end_point)/increment,0))] in the binary64
    numbers of the kernel: the quotient lies strictly between 29.5 and
    30.5, so it rounds to 30. *)
Lemma interval_binary64 :
  (let x := (1 - 0x1.6666666666666p-1) / Binary64.lit_0_01 in
   PrimFloat.ltb 29.5 x && PrimFloat.ltb x 30.5)%float = true
  ∧ interval = 30%nat.
Proof. split; [vm_compute|]; reflexivity. Qed.

End Binary64Facts.

(** ** The detector at its edges *)

Module DetectorEdges.
Import Detector DetectorFacts.

Lemma max_drop_index_short (mack_mse : list Q) :
  (length mack_mse < 2)%nat →
  max_drop_index mack_mse
  = Raise (ValueError "attempt to get argmax of an empty sequence").
Proof.
  intros H. destruct mack_mse as [|m [|m1 l]]; cbn [length] in H; try lia;
    reflexivity.
Qed.

(** The entry of [mack_mse_diff] at a label past the first. *)
Lemma mack_mse_diff_lookup (mack_mse : list Q) (k : nat) :
  (1 ≤ k < length mack_mse)%nat →
  mack_mse_diff mack_mse !! k = Some (k, Some (delta mack_mse k)).
Proof.
  intros Hk. destruct mack_mse as [|m l]; cbn [length] in Hk; [lia|].
  pose proof (searched_series m l) as Hs. unfold from_1 in Hs.
  destruct k as [|k]; [lia|].
  replace (mack_mse_diff (m :: l) !! S k)
    with (drop 1 (mack_mse_diff (m :: l)) !! k)
    by (rewrite lookup_drop; f_equal).
  rewrite Hs, list_lookup_fmap, lookup_seq_lt by lia. reflexivity.
Qed.

(** Series with the same labels and equal values have the same [idxmax]. *)
Lemma idxmax_from_Qeq (d d' : nat → Q) (ks : list nat) (best : nat) :
  (∀ j, j ∈ best :: ks → (d j == d' j)%Q) →
  idxmax_from best (d best) ((λ k, (k, Some (d k))) <$> ks)
  = idxmax_from best (d' best) ((λ k, (k, Some (d' k))) <$> ks).
Proof.
  revert best. induction ks as [|i ks IH]; intros best Hd; [done|].
  rewrite !fmap_cons. cbn [idxmax_from].
  rewrite (Qcompare_comp (d best) (d' best) (Hd best ltac:(left))
             (d i) (d' i) (Hd i ltac:(right; left))).
  destruct (d' best ?= d' i)%Q; apply IH; intros j Hj; apply Hd;
    rewrite elem_of_cons in Hj; rewrite !elem_of_cons; tauto.
Qed.

Lemma delta_opp (mack_mse : list Q) (k : nat) :
  (1 ≤ k < length mack_mse)%nat →
  (delta (Qopp <$> mack_mse) k == delta mack_mse k)%Q.
Proof.
  intros Hk. unfold delta.
  assert (Hn : ∀ j, (j < length mack_mse)%nat →
            nth j (Qopp <$> mack_mse) 0%Q = (- nth j mack_mse 0)%Q).
  { intros j Hj.
    rewrite (nth_indep _ 0%Q (- 0)%Q) by (rewrite length_fmap; lia).
    apply (map_nth Qopp). }
  rewrite !Hn by lia.
  rewrite <- (Qabs_opp (nth k mack_mse 0 - nth (k - 1) mack_mse 0)%Q).
  apply Qabs_wd. ring.
Qed.

Lemma max_drop_index_eq (m m1 : Q) (l : list Q) :
  max_drop_index (m :: m1 :: l)
  = Ok (idxmax_from 1 (delta (m :: m1 :: l) 1)
          ((λ k, (k, Some (delta (m :: m1 :: l) k))) <$> seq 2 (length l))).
Proof. unfold max_drop_index. rewrite searched_series. reflexivity. Qed.

Lemma max_drop_index_opp (mack_mse : list Q) :
  max_drop_index (Qopp <$> mack_mse) = max_drop_index mack_mse.
Proof.
  destruct mack_mse as [|m [|m1 l]]; [done..|].
  rewrite !fmap_cons, !max_drop_index_eq, length_fmap, <- !fmap_cons.
  f_equal. apply idxmax_from_Qeq.
  intros j Hj. apply delta_opp.
  change (1%nat :: seq 2 (length l)) with (seq 1 (S (length l))) in Hj.
  apply elem_of_seq in Hj. cbn [length]. lia.
Qed.

End DetectorEdges.

(** X4.  The detector raises [ValueError] (the [idxmax] of an empty
    series) exactly when it is given fewer than two metrics: the first
    difference is NaN and is sliced away, so one point leaves nothing to
    search. *)
Theorem detector_needs_two_points (claims_percentage mack_mse : list Q) :
  (Detector.max_drop_index mack_mse
   = Raise (ValueError "attempt to get argmax of an empty sequence")
   ↔ (length mack_mse < 2)%nat)
  ∧ (Detector.selected claims_percentage mack_mse
     = Raise (ValueError "attempt to get argmax of an empty sequence")
     ↔ (length mack_mse < 2)%nat).
Proof.
  destruct (decide (length mack_mse < 2)%nat) as [Hlt|Hge].
  - pose proof (DetectorEdges.max_drop_index_short mack_mse Hlt) as Hs.
    unfold Detector.selected. rewrite Hs. done.
  - destruct (DetectorFacts.max_drop_index_spec mack_mse ltac:(lia))
      as (k & Hk & _).
    unfold Detector.selected. rewrite Hk. cbn [mbind result_bind].
    unfold Detector.loc. split; (split; [|lia]); [done|].
    by destruct (claims_percentage !! k).
Qed.

(** X5.  The detector looks at the size of a change only, not at its
    direction: with every metric negated (each drop turned into a rise of
    the same size) it selects the same index and returns the same
    percentage. *)
Theorem detector_ignores_direction (claims_percentage mack_mse : list Q) :
  Detector.max_drop_index (Qopp <$> mack_mse)
  = Detector.max_drop_index mack_mse
  ∧ Detector.selected claims_percentage (Qopp <$> mack_mse)
    = Detector.selected claims_percentage mack_mse.
Proof.
  unfold Detector.selected.
  rewrite DetectorEdges.max_drop_index_opp. done.
Qed.

(** ** The end of a segment's pass *)

Section SweepEnd.

Context `{CL : ChainLadder}.
Variable sort_values : list ClaimRecord → list ClaimRecord.
Variable segment_df : list ClaimRecord.

#[local] Abbreviation step := (filter_step sort_values segment_df).
#[local] Abbreviation body := (sweep_body sort_values segment_df).
#[local] Abbreviation cut :=
  (cut_index (length (sort_values segment_df))).

Lemma sweep_body_last (i : nat) (st st1 : loop_state) :
  body i st = Ok st1 →
  one_percent_index st1 = cut i
  ∧ attritional_claims st1 = retained sort_values segment_df i.
Proof.
  rewrite sweep_body_eq. destruct (adapt _ _) as [m|e]; [|done].
  cbn [mbind result_bind]. by intros [= <-].
Qed.

(** The index and the rows left in the loop variables are those of the
    last step. *)
Lemma for_each_last (n a : nat) (st0 st : loop_state) :
  for_each body (seq a (S n)) st0 = Ok st →
  one_percent_index st = cut (a + n)%nat
  ∧ attritional_claims st = retained sort_values segment_df (a + n).
Proof.
  revert a st0. induction n as [|n IH]; intros a st0 H.
  - cbn [seq for_each] in H. apply bind_Ok in H as (st1 & H1 & [= <-]).
    rewrite Nat.add_0_r. by apply sweep_body_last in H1.
  - change (seq a (S (S n))) with (a :: seq (S a) (S n)) in H.
    cbn [for_each] in H. apply bind_Ok in H as (st1 & _ & H).
    apply IH in H. by rewrite <- Nat.add_succ_comm.
Qed.

(** A step that cuts nothing leaves the frames alone. *)
Lemma filter_step_no_cut (i : nat)
    (sets : list Transaction * list Transaction) :
  cut i = 0 → step i sets = sets.
Proof. intros H. unfold filter_step. cbn zeta. by rewrite H. Qed.

Lemma sets_at_no_cut (sets0 : list Transaction * list Transaction)
    (i : nat) :
  cut i = 0 → sets_at sort_values segment_df sets0 i = sets0.
Proof.
  intros H. induction i as [|i IH].
  - rewrite sets_at_0. by apply filter_step_no_cut.
  - rewrite sets_at_S, filter_step_no_cut by done. apply IH.
    pose proof (cut_index_mono (length (sort_values segment_df)) i (S i)
                  ltac:(lia)).
    pose proof (cut_index_nonneg (length (sort_values segment_df)) i). lia.
Qed.

End SweepEnd.

Lemma run_segment_inv `{CL : ChainLadder}
    (sort_values : list ClaimRecord → list ClaimRecord)
    (combined_df : list ClaimRecord) (paid_data ocr_data : list Transaction)
    (seg : string) (r : segment_run) :
  run_segment sort_values combined_df paid_data ocr_data seg = Ok r →
  for_each (sweep_body sort_values (segment_rows segment seg combined_df))
    (seq 0 (interval + 1))
    (mkState (segment_rows t_segment seg paid_data)
       (segment_rows t_segment seg ocr_data) [] [] 0 [])
  = Ok (run_state r)
  ∧ Detector.max_drop_index (mack_mse (run_state r)) = Ok (max_drop_index r)
  ∧ (λ d, d.2) <$> Detector.mack_mse_diff (mack_mse (run_state r))
                     !! max_drop_index r = Some (largest_drop r)
  ∧ large_claims r
    = iloc_to (one_percent_index (run_state r))
        (sort_values (segment_rows segment seg combined_df)).
Proof.
  intros H. unfold run_segment in H. cbn zeta in H.
  apply bind_Ok in H as (st & Hloop & H).
  apply bind_Ok in H as (k & Hk & H). apply bind_Ok in H as (d & Hd & H).
  apply bind_Ok in H as (v & Hv & H). injection H as <-.
  cbn [run_state max_drop_index largest_drop large_claims].
  split; [done|]. split; [done|]. split; [|done].
  destruct (Detector.mack_mse_diff (mack_mse st) !! k); [|done].
  by injection Hd as <-.
Qed.

(** X6.  When a segment's pass ends, [one_percent_index] still holds the
    cut of the last step (30 percent), whatever index the detector chose:
    [large_claims] are the rows of the sorted frame before that cut,
    [attritional_claims] the rows after it, and each large claim has a gross
    amount at least that of each attritional claim. *)
Theorem large_claims_cut_at_last_step `{CL : ChainLadder}
    (sort_values : list ClaimRecord → list ClaimRecord)
    (combined_df : list ClaimRecord) (paid_data ocr_data : list Transaction)
    (seg : string) (r : segment_run) :
  sort_contract sort_values →
  run_segment sort_values combined_df paid_data ocr_data seg = Ok r →
  one_percent_index (run_state r)
  = cut_index (length (segment_rows segment seg combined_df)) interval
  ∧ sort_values (segment_rows segment seg combined_df)
    = large_claims r ++ attritional_claims (run_state r)
  ∧ (∀ a b, a ∈ large_claims r → b ∈ attritional_claims (run_state r) →
            gross_amount b ≤ gross_amount a).
Proof.
  intros [Hperm Hsorted] H.
  apply run_segment_inv in H as (Hloop & _ & _ & Hlarge).
  set (segment_df := segment_rows segment seg combined_df) in *.
  apply (for_each_last sort_values segment_df 30 0) in Hloop as [Hidx Hatt].
  change (0 + 30)%nat with interval in Hidx, Hatt.
  destruct (retained_count sort_values segment_df interval (Hperm _))
    as [Hsplit _].
  rewrite Hlarge, Hidx, Hatt.
  assert (Hl : length (sort_values segment_df) = length segment_df)
    by (by rewrite Hperm).
  split; [by rewrite Hl|]. split; [done|].
  intros a b Ha Hb.
  specialize (Hsorted segment_df).
  apply Sorted_StronglySorted in Hsorted; [|apply _].
  rewrite Hsplit in Hsorted.
  apply StronglySorted_app in Hsorted as (Hcross & _ & _).
  by apply Hcross.
Qed.

Lemma large_claims_cut_at_last_step_witness :
  ∃ r,
    run_segment sort_merge (Aggregator.combined_df motor_ocr motor_paid)
      motor_paid motor_ocr "Motor" = Ok r
    ∧ sort_merge (segment_rows segment "Motor"
                     (Aggregator.combined_df motor_ocr motor_paid))
      = large_claims r ++ attritional_claims (run_state r).
Proof.
  destruct (run_segment sort_merge
              (Aggregator.combined_df motor_ocr motor_paid)
              motor_paid motor_ocr "Motor") as [r|e] eqn:E.
  - exists r. split; [reflexivity|].
    exact (proj1 (proj2 (large_claims_cut_at_last_step _ _ _ _ _ r
                           sort_merge_contract E))).
  - vm_compute in E. discriminate E.
Defined.

(** Frames of up to three claims are never cut. *)
Lemma cut_index_small (len i : nat) :
  (len ≤ 3)%nat → (i ≤ interval)%nat → cut_index len i = 0.
Proof.
  unfold interval. intros Hlen Hi.
  pose proof (cut_index_nonneg len i).
  pose proof (cut_index_le_exact len i ltac:(lia) ltac:(lia)) as Hle.
  assert (Z.of_nat len * Z.of_nat i / 100 ≤ 0); [|lia].
  apply Z.lt_succ_r, Z.div_lt_upper_bound; [lia|]. nia.
Qed.

(** A constant metric: the first change is the largest. *)
Lemma max_drop_index_flat (m : Q) (n : nat) :
  Detector.max_drop_index (replicate (S (S n)) m) = Ok 1%nat.
Proof.
  destruct (DetectorFacts.max_drop_index_spec (replicate (S (S n)) m))
    as (k & Hk & Hr & _ & Hfirst).
  { rewrite length_replicate. lia. }
  rewrite Hk. f_equal.
  destruct (decide (k = 1%nat)) as [|Hne]; [done|]. exfalso.
  specialize (Hfirst 1%nat ltac:(lia)).
  rewrite length_replicate in Hr.
  unfold Detector.delta in Hfirst.
  assert (Hn : ∀ j, (j < S (S n))%nat → nth j (replicate (S (S n)) m) 0%Q = m).
  { intros j Hj. apply nth_lookup_Some, lookup_replicate. done. }
  rewrite !Hn in Hfirst by lia.
  by apply Qlt_irrefl in Hfirst.
Qed.

(** With one aggregated row per claim id, a step whose cut is that of the
    step before hands the same frames to the triangles. *)
Lemma sets_at_plateau (sort_values : list ClaimRecord → list ClaimRecord)
    (segment_df : list ClaimRecord)
    (sets0 : list Transaction * list Transaction) (i : nat) :
  sort_values segment_df ≡ₚ segment_df →
  NoDup (claim_id <$> segment_df) →
  cut_index (length (sort_values segment_df)) (S i)
  = cut_index (length (sort_values segment_df)) i →
  sets_at sort_values segment_df sets0 (S i)
  = sets_at sort_values segment_df sets0 i.
Proof.
  intros Hperm Hnd Hcut.
  pose proof (cut_index_nonneg (length (sort_values segment_df)) i) as H0.
  destruct (decide (cut_index (length (sort_values segment_df)) i = 0))
    as [Hz|Hnz].
  - rewrite sets_at_S. apply filter_step_no_cut. by rewrite Hcut.
  - rewrite !sets_at_copies. 
    assert (Hext : ∀ c, copies sort_values segment_df (S i) c
                        = copies sort_values segment_df i c).
    { intros c.
      rewrite !(copies_single sort_values segment_df Hperm Hnd) by lia.
      by rewrite !retained_drop, Hcut. }
    f_equal; apply repeat_rows_ext; intros t _; apply Hext.
Qed.

(** X7.  A segment of at most three aggregated claims is never cut: every
    step of the sweep sees the frames of the segment unchanged, the 31
    metrics are one and the same value, the detector selects index 1 and
    the percentage stored is [1 - 0.01 * 1]; [large_claims] is empty. *)
Theorem small_segment_selects_first_step `{CL : ChainLadder}
    (sort_values : list ClaimRecord → list ClaimRecord)
    (combined_df : list ClaimRecord) (paid_data ocr_data : list Transaction)
    (seg : string) (r : segment_run) :
  sort_values (segment_rows segment seg combined_df)
    ≡ₚ segment_rows segment seg combined_df →
  (length (segment_rows segment seg combined_df) ≤ 3)%nat →
  run_segment sort_values combined_df paid_data ocr_data seg = Ok r →
  max_drop_index r = 1%nat
  ∧ threshold r = percentage_at 1
  ∧ (∃ m, mack_mse (run_state r) = replicate (interval + 1) m)
  ∧ segment_paid (run_state r) = segment_rows t_segment seg paid_data
  ∧ segment_ocr (run_state r) = segment_rows t_segment seg ocr_data
  ∧ large_claims r = [].
Proof.
  intros Hperm Hsmall H.
  destruct (run_segment_Ok _ _ _ _ _ _ H) as (_ & _ & _ & _ & Hv).
  apply run_segment_inv in H as (Hloop & Hk & _ & Hlarge).
  set (segment_df := segment_rows segment seg combined_df) in *.
  assert (Hcut : ∀ i, (i ≤ interval)%nat →
            cut_index (length (sort_values segment_df)) i = 0).
  { intros i Hi. apply cut_index_small; [by rewrite Hperm|done]. }
  pose proof Hloop as Hlast.
  apply (for_each_last sort_values segment_df 30 0) in Hlast as [Hidx _].
  rewrite (Hcut (0 + 30)%nat) in Hidx by (unfold interval; lia).
  apply for_each_body_Ok in Hloop as (Hsets & _ & ms & Hms & Hlen & Hstep).
  cbn [segment_paid segment_ocr mack_mse app] in Hsets, Hms, Hstep.
  change (foldl _ ?s (seq 0 (interval + 1)))
    with (sets_at sort_values segment_df s interval) in Hsets.
  rewrite sets_at_no_cut in Hsets by (by apply Hcut).
  injection Hsets as Hp Ho.
  destruct (Hstep 0%nat ltac:(unfold interval; lia)) as (m0 & _ & Hm0).
  assert (Hall : ms = replicate (interval + 1) m0).
  { apply list_eq. intros j.
    destruct (decide (j < interval + 1)%nat) as [Hj|Hj].
    - destruct (Hstep j Hj) as (m & -> & Hm).
      change (foldl _ ?s (seq 0 (S j)))
        with (sets_at sort_values segment_df s j) in Hm.
      change (foldl _ ?s (seq 0 1))
        with (sets_at sort_values segment_df s 0) in Hm0.
      rewrite sets_at_no_cut in Hm, Hm0
        by (apply Hcut; unfold interval in *; lia).
      rewrite Hm0 in Hm. injection Hm as <-.
      symmetry. by apply lookup_replicate_2.
    - rewrite (lookup_ge_None_2 ms) by lia.
      symmetry. apply lookup_ge_None_2. rewrite length_replicate. lia. }
  rewrite Hms, Hall in Hk.
  change (interval + 1)%nat with (S (S 29)) in Hk.
  rewrite max_drop_index_flat in Hk. injection Hk as Hk.
  split; [done|]. split; [by rewrite Hv, <- Hk|].
  split; [exists m0; by rewrite Hms, Hall|].
  split; [done|]. split; [done|].
  by rewrite Hlarge, Hidx.
Qed.

Lemma small_segment_selects_first_step_witness :
  ∃ r,
    run_segment sort_merge (Aggregator.combined_df five_ocr five_paid)
      five_paid five_ocr "Motor" = Ok r
    ∧ max_drop_index r = 1%nat.
Proof.
  destruct (run_segment sort_merge
              (Aggregator.combined_df five_ocr five_paid)
              five_paid five_ocr "Motor") as [r|e] eqn:E.
  - exists r. split; [reflexivity|].
    refine (proj1 (small_segment_selects_first_step _ _ _ _ _ r _ _ E)).
    + apply merge_sort_Permutation.
    + vm_compute. lia.
  - vm_compute in E. discriminate E.
Defined.

(** X8.  With one aggregated row per claim id in the segment, two
    successive steps that have the same cut hand the same frames to the
    triangles; so when the largest change found is not zero, the step the
    detector selects cuts more claims than the step before it. *)
Theorem selected_step_moves_the_cut `{CL : ChainLadder}
    (sort_values : list ClaimRecord → list ClaimRecord)
    (combined_df : list ClaimRecord) (paid_data ocr_data : list Transaction)
    (seg : string) (r : segment_run) (d : Q) :
  sort_values (segment_rows segment seg combined_df)
    ≡ₚ segment_rows segment seg combined_df →
  NoDup (claim_id <$> segment_rows segment seg combined_df) →
  run_segment sort_values combined_df paid_data ocr_data seg = Ok r →
  largest_drop r = Some d →
  (0 < d)%Q →
  cut_index (length (segment_rows segment seg combined_df))
    (max_drop_index r - 1)
  < cut_index (length (segment_rows segment seg combined_df))
      (max_drop_index r).
Proof.
  intros Hperm Hnd H Hd Hpos.
  destruct (run_segment_Ok _ _ _ _ _ _ H) as (_ & Hlen31 & _ & Hk & _).
  apply run_segment_inv in H as (Hloop & _ & Hdrop & _).
  set (segment_df := segment_rows segment seg combined_df) in *.
  set (k := max_drop_index r) in *.
  rewrite DetectorEdges.mack_mse_diff_lookup in Hdrop by lia.
  cbn in Hdrop. rewrite Hd in Hdrop. injection Hdrop as Hdelta.
  apply for_each_body_Ok in Hloop as (_ & _ & ms & Hms & Hlen & Hstep).
  cbn [segment_paid segment_ocr mack_mse app] in Hms, Hstep.
  rewrite Hms in Hdelta.
  destruct k as [|k']; [lia|].
  replace (S k' - 1)%nat with k' in * by lia.
  pose proof (cut_index_mono (length segment_df) k' (S k') ltac:(lia)) as Hm.
  destruct (decide (cut_index (length segment_df) k'
                    < cut_index (length segment_df) (S k'))) as [|Hflat];
    [done|exfalso].
  assert (Heq : cut_index (length (sort_values segment_df)) (S k')
                = cut_index (length (sort_values segment_df)) k')
    by (rewrite Hperm; lia).
  destruct (Hstep (S k') ltac:(unfold interval in *; lia)) as (m & Hl & Ha).
  destruct (Hstep k' ltac:(unfold interval in *; lia)) as (m' & Hl' & Ha').
  change (foldl _ ?s (seq 0 (S ?j)))
    with (sets_at sort_values segment_df s j) in Ha, Ha'.
  rewrite (sets_at_plateau _ _ _ _ Hperm Hnd Heq), Ha' in Ha.
  injection Ha as <-.
  unfold Detector.delta in Hdelta.
  replace (S k' - 1)%nat with k' in Hdelta by lia.
  rewrite (nth_lookup_Some _ _ _ _ Hl), (nth_lookup_Some _ _ _ _ Hl')
    in Hdelta.
  rewrite <- Hdelta in Hpos.
  assert (Hz : (Qabs (m' - m') == 0)%Q).
  { rewrite (Qabs_wd (m' - m') 0) by ring. reflexivity. }
  rewrite Hz in Hpos. by apply Qlt_irrefl in Hpos.
Qed.

Lemma selected_step_moves_the_cut_witness :
  ∃ r,
    run_segment sort_merge (Aggregator.combined_df motor_ocr motor_paid)
      motor_paid motor_ocr "Motor" = Ok r
    ∧ cut_index 10 (max_drop_index r - 1) < cut_index 10 (max_drop_index r).
Proof.
  destruct (run_segment sort_merge
              (Aggregator.combined_df motor_ocr motor_paid)
              motor_paid motor_ocr "Motor") as [r|e] eqn:E.
  - exists r. split; [reflexivity|].
    destruct (largest_drop r) as [d|] eqn:Ed.
    + refine (selected_step_moves_the_cut sort_merge
                (Aggregator.combined_df motor_ocr motor_paid)
                motor_paid motor_ocr "Motor" r d _ _ E Ed _).
      * apply merge_sort_Permutation.
      * apply (bool_decide_unpack _). vm_compute. exact I.
      * vm_compute in E. injection E as <-. vm_compute in Ed.
        injection Ed as <-. reflexivity.
    + vm_compute in E. injection E as <-. discriminate Ed.
  - vm_compute in E. discriminate E.
Defined.

Section PassOutcome.

Context `{CL : ChainLadder}.
Variable sort_values : list ClaimRecord → list ClaimRecord.
Variable segment_df : list ClaimRecord.

#[local] Abbreviation step := (filter_step sort_values segment_df).
#[local] Abbreviation body := (sweep_body sort_values segment_df).

(** A loop that ends with an exception met it in the triangles or the fit
    of some step, the steps before having gone through. *)
Lemma for_each_body_Raise_inv (n a : nat) (st0 : loop_state) (e : exn) :
  for_each body (seq a n) st0 = Raise e →
  ∃ i, (i < n)%nat
    ∧ adapt
        (foldl (λ s j, step j s) (segment_paid st0, segment_ocr st0)
           (seq a (S i))).1
        (foldl (λ s j, step j s) (segment_paid st0, segment_ocr st0)
           (seq a (S i))).2 = Raise e
    ∧ ∀ j, (j < i)%nat → ∃ m,
        adapt
          (foldl (λ s j, step j s) (segment_paid st0, segment_ocr st0)
             (seq a (S j))).1
          (foldl (λ s j, step j s) (segment_paid st0, segment_ocr st0)
             (seq a (S j))).2 = Ok m.
Proof.
  revert a st0. induction n as [|n IH]; intros a st0 H; [done|].
  cbn [seq for_each] in H.
  destruct (adapt (step a (segment_paid st0, segment_ocr st0)).1
                  (step a (segment_paid st0, segment_ocr st0)).2)
    as [m|e'] eqn:Ha.
  - destruct (sweep_body_Ok _ _ _ _ _ Ha) as (st1 & Hb & Hst1).
    rewrite Hb in H. cbn [mbind result_bind] in H.
    apply IH in H as (i & Hi & Hbad & Hok). rewrite Hst1 in Hbad, Hok.
    exists (S i). split; [lia|]. split; [by rewrite foldl_seq_cons|].
    intros [|j] Hj.
    + exists m. by rewrite foldl_seq_cons, foldl_seq_nil.
    + destruct (Hok j ltac:(lia)) as (m' & Hm'). exists m'.
      by rewrite foldl_seq_cons.
  - rewrite (sweep_body_Raise _ _ _ _ _ Ha) in H.
    cbn [mbind result_bind] in H. injection H as <-.
    exists 0%nat. split; [lia|].
    split; [by rewrite foldl_seq_cons, foldl_seq_nil|]. intros j Hj. lia.
Qed.

End PassOutcome.

(** Once the loop is through, the detector and the two look-ups do not
    raise. *)
Lemma run_segment_after_loop `{CL : ChainLadder}
    (sort_values : list ClaimRecord → list ClaimRecord)
    (combined_df : list ClaimRecord) (paid_data ocr_data : list Transaction)
    (seg : string) (st : loop_state) :
  for_each (sweep_body sort_values (segment_rows segment seg combined_df))
    (seq 0 (interval + 1))
    (mkState (segment_rows t_segment seg paid_data)
       (segment_rows t_segment seg ocr_data) [] [] 0 [])
  = Ok st →
  ∃ r, run_segment sort_values combined_df paid_data ocr_data seg = Ok r
       ∧ run_state r = st.
Proof.
  intros Hloop. unfold run_segment. cbn zeta. rewrite Hloop.
  cbn [mbind result_bind].
  apply for_each_body_Ok in Hloop as (_ & Hcp & ms & Hms & Hlen & _).
  cbn [claims_percentage mack_mse app] in Hcp, Hms.
  destruct (DetectorFacts.max_drop_index_spec (mack_mse st))
    as (k & Hk & Hr & _).
  { rewrite Hms, Hlen. unfold interval. lia. }
  rewrite Hk. cbn [mbind result_bind].
  rewrite DetectorEdges.mack_mse_diff_lookup by done.
  cbn [mbind result_bind].
  unfold Detector.loc. rewrite Hcp, list_lookup_fmap, lookup_seq_lt
    by (rewrite Hms, Hlen in Hr; lia).
  cbn. eexists. split; reflexivity.
Qed.




(** ** Totals through the aggregator *)

Module AggregatorTotals.
Import Aggregator AggregatorFacts.

Section Groups.
Context {B K : Type} `{EqDecision K}.
Variable key : B → K.
Variable f : B → Z.

(** One more row adds its value to the group of its key. *)
Lemma SUM_groups_cons (r : B) (rows : list B) (ks : list K) :
  NoDup ks →
  SUM ((λ k, SUM (f <$> filter (λ x, key x = k) (r :: rows))) <$> ks)
  = (if decide (key r ∈ ks) then f r else 0)
    + SUM ((λ k, SUM (f <$> filter (λ x, key x = k) rows)) <$> ks).
Proof.
  induction 1 as [|k ks Hk Hnd IH]; [done|].
  rewrite !fmap_cons, !SUM_cons, IH, filter_cons.
  destruct (decide (key r = k)) as [Heq|Hne].
  - subst k. rewrite (decide_False (P := key r ∈ ks)) by done.
    rewrite (decide_True (P := key r ∈ key r :: ks)) by left.
    rewrite fmap_cons, SUM_cons. lia.
  - destruct (decide (key r ∈ ks)) as [Hin|Hout].
    + rewrite (decide_True (P := key r ∈ k :: ks)) by (by right). lia.
    + rewrite (decide_False (P := key r ∈ k :: ks)); [lia|].
      intros [?|?]%elem_of_cons; done.
Qed.

(** The totals of the groups add up to the total of the rows. *)
Lemma SUM_groups (rows : list B) (ks : list K) :
  NoDup ks →
  (∀ r, r ∈ rows → key r ∈ ks) →
  SUM ((λ k, SUM (f <$> filter (λ x, key x = k) rows)) <$> ks)
  = SUM (f <$> rows).
Proof.
  intros Hnd. induction rows as [|r rows IH]; intros Hin.
  - clear. induction ks as [|k ks IHk]; [done|].
    rewrite fmap_cons, SUM_cons, IHk. reflexivity.
  - rewrite SUM_groups_cons by done.
    rewrite decide_True by (apply Hin; left).
    rewrite IH by (intros x Hx; apply Hin; by right).
    by rewrite fmap_cons, SUM_cons.
Qed.

End Groups.

Lemma paid_claims_total (f : Transaction → Z) (g : ClaimRecord → Z)
    (paid_data : list Transaction) :
  (∀ k, g (group_row SUM paid_data k)
        = SUM (f <$> filter (λ t, txn_key t = k) paid_data)) →
  SUM (g <$> paid_claims paid_data)
  = SUM (f <$> filter has_loss_date paid_data).
Proof.
  intros Hg. unfold paid_claims. rewrite aggregated_rows.
  rewrite <- list_fmap_compose.
  rewrite (list_fmap_ext _
             (λ k, SUM (f <$> filter (λ t, txn_key t = k)
                                (filter has_loss_date paid_data)))).
  2: { intros i k Hk. cbn. rewrite Hg.
       apply list_elem_of_lookup_2, list_elem_of_filter in Hk as [Hd _].
       rewrite list_filter_filter. do 2 f_equal.
       apply list_filter_iff.
       intros t. split; [|tauto]. intros <-. done. }
  apply SUM_groups.
  - apply NoDup_filter, NoDup_group_keys.
  - intros r Hr. apply list_elem_of_filter in Hr as [Hd Hr].
    apply list_elem_of_filter. split; [exact Hd|].
    apply elem_of_group_keys, list_elem_of_fmap. eauto.
Qed.

Lemma combined_total (g : ClaimRecord → Z)
    (ocr_data paid_data : list Transaction) :
  (∀ rows k, g (sum_row rows k)
             = SUM (g <$> filter (λ c, claim_key c = k) rows)) →
  SUM (g <$> combined_df ocr_data paid_data)
  = SUM (g <$> ocr_claims ocr_data) + SUM (g <$> paid_claims paid_data).
Proof.
  intros Hg. rewrite combined_rows, <- list_fmap_compose.
  rewrite (list_fmap_ext _
             (λ k, SUM (g <$> filter (λ c, claim_key c = k)
                                (ocr_claims ocr_data
                                 ++ paid_claims paid_data)))).
  2: { intros i k _. apply Hg. }
  rewrite SUM_groups.
  - by rewrite fmap_app, SUM_app.
  - apply NoDup_group_keys.
  - intros r Hr. apply elem_of_group_keys, list_elem_of_fmap. eauto.
Qed.

End AggregatorTotals.


(** X12.  [segment_list] holds each segment once, and a segment is in it
    exactly when some OCR row of the segment has a loss date (a segment
    seen in the paid data only is not); every segment in it has at least
    one row in [combined_df]. *)
Theorem segment_list_spec (ocr_data paid_data : list Transaction)
    (seg : string) :
  NoDup (segment_list ocr_data)
  ∧ (seg ∈ segment_list ocr_data
     ↔ ∃ t, t ∈ ocr_data ∧ t_segment t = seg ∧ has_loss_date t)
  ∧ (seg ∈ segment_list ocr_data →
     segment_rows segment seg (Aggregator.combined_df ocr_data paid_data)
     ≠ []).
Proof.
  assert (Hin : seg ∈ segment_list ocr_data
                ↔ ∃ t, t ∈ ocr_data ∧ t_segment t = seg ∧ has_loss_date t).
  { unfold segment_list.
    rewrite AggregatorFacts.elem_of_unique, list_elem_of_fmap. split.
    - intros (c & -> & Hc). apply AggregatorFacts.elem_of_aggregated in Hc
        as (_ & Hd & Hk).
      apply list_elem_of_fmap in Hk as (t & Hk & Ht).
      exists t. split; [done|]. unfold has_loss_date.
      destruct c as [c s d g n], t as [tc ts td tt tg tn].
      cbn in *. by injection Hk as -> -> ->.
    - intros (t & Ht & <- & Hd).
      exists (Aggregator.group_row Aggregator.MAX ocr_data
                (Aggregator.txn_key t)).
      split; [done|]. apply AggregatorFacts.elem_of_aggregated.
      rewrite AggregatorFacts.claim_key_group_row.
      split; [done|]. split; [exact Hd|].
      apply list_elem_of_fmap. eauto. }
  split; [apply AggregatorFacts.NoDup_unique|]. split; [exact Hin|].
  intros (t & Ht & <- & Hd)%Hin Hnil.
  assert (Hk : Aggregator.txn_key t
               ∈ Aggregator.claim_key
                 <$> Aggregator.combined_df ocr_data paid_data).
  { apply AggregatorFacts.elem_of_combined_keys. split; [exact Hd|].
    left. apply list_elem_of_fmap. eauto. }
  apply list_elem_of_fmap in Hk as (c & Hc & Hin').
  assert (Hrow : c ∈ segment_rows segment (t_segment t)
                       (Aggregator.combined_df ocr_data paid_data)).
  { apply list_elem_of_filter. split; [|done].
    destruct c as [c s d g n], t as [tc ts td tt tg tn].
    cbn in *. by injection Hc as -> -> ->. }
  rewrite Hnil in Hrow. by apply elem_of_nil in Hrow.
Qed.

(** ** Segment labels *)

Module TitleFacts.
Import Ingest.

Ltac by_cases_on c := destruct c as [[] [] [] [] [] [] [] []]; reflexivity.

Lemma to_lower_idem (c : Ascii.ascii) : to_lower (to_lower c) = to_lower c.
Proof. by_cases_on c. Qed.

Lemma to_upper_idem (c : Ascii.ascii) : to_upper (to_upper c) = to_upper c.
Proof. by_cases_on c. Qed.

Lemma to_upper_lower (c : Ascii.ascii) : to_upper (to_lower c) = to_upper c.
Proof. by_cases_on c. Qed.

Lemma is_cased_lower (c : Ascii.ascii) : is_cased (to_lower c) = is_cased c.
Proof. by_cases_on c. Qed.

Lemma is_cased_upper (c : Ascii.ascii) : is_cased (to_upper c) = is_cased c.
Proof. by_cases_on c. Qed.

Lemma title_from_lower (b : bool) (s : string) :
  title_from b (lower s) = title_from b s.
Proof.
  revert b. induction s as [|c r IH]; intros b; [done|].
  cbn [lower title_from].
  rewrite to_lower_idem, to_upper_lower, is_cased_lower, IH. reflexivity.
Qed.

Lemma title_from_idem (b : bool) (s : string) :
  title_from b (title_from b s) = title_from b s.
Proof.
  revert b. induction s as [|c r IH]; intros b; [done|].
  cbn [title_from]. destruct b.
  - by rewrite to_lower_idem, is_cased_lower, IH.
  - by rewrite to_upper_idem, is_cased_upper, IH.
Qed.

Lemma title_from_length (b : bool) (s : string) :
  String.length (title_from b s) = String.length s.
Proof.
  revert b. induction s as [|c r IH]; intros b; [done|].
  cbn [title_from String.length]. by rewrite IH.
Qed.

Lemma title_of_lower (s s' : string) :
  lower s = lower s' → title s = title s'.
Proof.
  intros H. unfold title.
  by rewrite <- (title_from_lower false s), H, title_from_lower.
Qed.

End TitleFacts.

(** X13.  On ASCII labels, where [title] is Python's [str.title]: putting
    a label in title case twice is putting it once, the label keeps its
    length, and two labels that differ in letter case only get the same
    title-cased label. *)
Theorem title_normalises_labels (s s' : string) :
  Ingest.is_ascii s = true →
  Ingest.is_ascii s' = true →
  Ingest.title (Ingest.title s) = Ingest.title s
  ∧ String.length (Ingest.title s) = String.length s
  ∧ (Ingest.lower s = Ingest.lower s' → Ingest.title s = Ingest.title s').
Proof.
  intros _ _. split; [apply TitleFacts.title_from_idem|].
  split; [apply TitleFacts.title_from_length|].
  apply TitleFacts.title_of_lower.
Qed.

Lemma title_normalises_labels_witness :
  Ingest.title "mOTOR third-party" = Ingest.title "Motor Third-PARTY".
Proof.
  exact (proj2 (proj2 (title_normalises_labels "mOTOR third-party"
                         "Motor Third-PARTY" eq_refl eq_refl)) eq_refl).
Defined.

(** ** The loss date of the earliest transaction *)

Module IngestFacts.
Import Ingest.

(** Of the rows with one key, [drop_duplicates] keeps the first. *)
Lemma filter_drop_duplicates {A K : Type} `{EqDecision K} (key : A → K)
    (l : list A) (k : K) :
  filter (λ y, key y = k) (drop_duplicates key l)
  = option_list (head (filter (λ y, key y = k) l)).
Proof.
  induction l as [|x r IH]; [done|].
  cbn [drop_duplicates]. rewrite !filter_cons.
  destruct (decide (key x = k)) as [Hx|Hx].
  - cbn [head]. change (option_list (Some x)) with [x]. f_equal.
    apply AggregatorFacts.filter_none. intros y Hy Hk.
    apply list_elem_of_filter in Hy as [Hne _]. congruence.
  - rewrite list_filter_filter, <- IH. apply list_filter_iff.
    intros y. split; [tauto|]. intros Hy. split; congruence.
Qed.

Lemma set_loss_date_claim (d : option Z) (t : Transaction) :
  t_claim_id (set_loss_date d t) = t_claim_id t.
Proof. reflexivity. Qed.

Lemma set_loss_date_twice (d d' : option Z) (t : Transaction) :
  set_loss_date d (set_loss_date d' t) = set_loss_date d t.
Proof. reflexivity. Qed.

Section Correction.

Variable sort_rows : list Transaction → list Transaction.

(** The correction row by row: the row with the loss date of its claim's
    first row in the sorted frame. *)
Lemma correct_loss_dates_eq (ocr_data : list Transaction) :
  correct_loss_dates sort_rows ocr_data
  = (λ t, set_loss_date
            (earliest_loss_date sort_rows ocr_data (t_claim_id t)) t)
    <$> ocr_data.
Proof.
  unfold correct_loss_dates, merge_left, ocr_data_sorted,
    earliest_loss_date.
  generalize (sort_rows ocr_data). intros sorted.
  induction ocr_data as [|t l IH]; [done|].
  rewrite bind_cons, fmap_cons, IH. clear IH.
  rewrite <- (AggregatorFacts.fmap_filter_comm
                (λ t, (t_claim_id t, t_loss_date t))
                (λ r, r.1 = t_claim_id t)).
  cbn [fst]. rewrite filter_drop_duplicates.
  destruct (head (filter (λ y, t_claim_id y = t_claim_id t) sorted))
    as [t0|]; reflexivity.
Qed.

Lemma elem_of_corrected (ocr_data : list Transaction) (t : Transaction) :
  t ∈ correct_loss_dates sort_rows ocr_data →
  t_loss_date t = earliest_loss_date sort_rows ocr_data (t_claim_id t)
  ∧ ∃ t0, t0 ∈ ocr_data ∧ t = set_loss_date (t_loss_date t) t0.
Proof.
  rewrite correct_loss_dates_eq, list_elem_of_fmap.
  intros (t0 & -> & Ht0). split; [done|]. exists t0. done.
Qed.

(** The loss dates written are those of the frame itself: a second
    correction finds, for each claim, the date the first one wrote. *)
Lemma earliest_loss_date_corrected (ocr_data : list Transaction)
    (t : Transaction) :
  sort_rows (correct_loss_dates sort_rows ocr_data)
    ≡ₚ correct_loss_dates sort_rows ocr_data →
  t ∈ ocr_data →
  earliest_loss_date sort_rows (correct_loss_dates sort_rows ocr_data)
    (t_claim_id t)
  = earliest_loss_date sort_rows ocr_data (t_claim_id t).
Proof.
  intros Hperm Ht.
  set (l' := correct_loss_dates sort_rows ocr_data) in *.
  unfold earliest_loss_date at 1.
  destruct (head (filter (λ u, t_claim_id u = t_claim_id t) (sort_rows l')))
    as [u|] eqn:Hu.
  - apply head_Some_elem_of, list_elem_of_filter in Hu as [Hc Hin].
    rewrite Hperm in Hin. apply elem_of_corrected in Hin as [Hd _].
    cbn. by rewrite Hd, Hc.
  - exfalso. apply head_None in Hu.
    assert (Hin : set_loss_date
                    (earliest_loss_date sort_rows ocr_data (t_claim_id t)) t
                  ∈ filter (λ u, t_claim_id u = t_claim_id t) (sort_rows l')).
    { apply list_elem_of_filter. split; [done|]. rewrite Hperm.
      unfold l'. rewrite correct_loss_dates_eq.
      apply list_elem_of_fmap. eauto. }
    rewrite Hu in Hin. by apply elem_of_nil in Hin.
Qed.

End Correction.

#[global] Instance claim_date_le_refl : Reflexive claim_date_le.
Proof.
  intros a. unfold claim_date_le, claim_date_leb.
  rewrite decide_True by done. lia.
Qed.

#[global] Instance claim_date_le_total : Total claim_date_le.
Proof.
  intros a b. unfold claim_date_le, claim_date_leb.
  repeat case_decide; try congruence; [lia|apply String.leb_total].
Qed.

#[global] Instance claim_date_le_trans : Transitive claim_date_le.
Proof.
  intros a b c. unfold claim_date_le, claim_date_leb. intros Hab Hbc.
  repeat match goal with
    | H : context [decide (?x = ?y)] |- _ => destruct (decide (x = y))
    | |- context [decide (?x = ?y)] => destruct (decide (x = y))
    end; try congruence; try lia;
    try (eapply KeyOrder.string_leb_trans; eassumption).
  all: match goal with
    | e : t_claim_id ?x = t_claim_id ?y |- _ => rewrite e in *
    end;
    match goal with
    | H1 : String.leb ?x ?y = true, H2 : String.leb ?y ?x = true |- _ =>
        pose proof (String.leb_antisym _ _ H1 H2); congruence
    end.
Qed.

Lemma sort_rows_merge_contract : rows_sort_contract sort_rows_merge.
Proof.
  split; intros l.
  - apply merge_sort_Permutation.
  - apply (Sorted_merge_sort claim_date_le).
Qed.

(** The first row of a sorted frame comes before all its rows. *)
Lemma head_StronglySorted {A : Type} (R : relation A) `{!Reflexive R}
    (l : list A) (x y : A) :
  StronglySorted R l → head l = Some x → y ∈ l → R x y.
Proof.
  intros Hs Hx Hy. destruct l as [|x' l]; [done|]. injection Hx as ->.
  apply StronglySorted_inv in Hs as [_ Hall].
  apply elem_of_cons in Hy as [->|Hy]; [done|].
  rewrite Forall_forall in Hall. by apply Hall.
Qed.

End IngestFacts.

(** X14.  The correction of the loss dates changes no other column and
    neither drops, adds nor moves a row, whichever routine sorts the frame;
    the loss date it writes on a row is the one of the first row of the
    row's claim in the sorted frame. *)
Theorem loss_date_correction_keeps_rows
    (sort_rows : list Transaction → list Transaction)
    (ocr_data : list Transaction) :
  Ingest.set_loss_date None <$> Ingest.correct_loss_dates sort_rows ocr_data
  = Ingest.set_loss_date None <$> ocr_data
  ∧ length (Ingest.correct_loss_dates sort_rows ocr_data) = length ocr_data
  ∧ t_loss_date <$> Ingest.correct_loss_dates sort_rows ocr_data
    = (λ t, Ingest.earliest_loss_date sort_rows ocr_data (t_claim_id t))
      <$> ocr_data.
Proof.
  rewrite IngestFacts.correct_loss_dates_eq.
  rewrite length_fmap, <- !list_fmap_compose. done.
Qed.

(** X15.  Under a sort by claim id and then transaction date, the
    corrected frame has one loss date per claim id, and it is the loss
    date (blank or not) of a row of the claim whose transaction date is
    the earliest of the claim. *)
Theorem one_loss_date_per_claim
    (sort_rows : list Transaction → list Transaction)
    (ocr_data : list Transaction) :
  Ingest.rows_sort_contract sort_rows →
  (∀ t t', t ∈ Ingest.correct_loss_dates sort_rows ocr_data →
           t' ∈ Ingest.correct_loss_dates sort_rows ocr_data →
           t_claim_id t = t_claim_id t' → t_loss_date t = t_loss_date t')
  ∧ (∀ t, t ∈ Ingest.correct_loss_dates sort_rows ocr_data →
       ∃ t0, t0 ∈ ocr_data
         ∧ t_claim_id t0 = t_claim_id t
         ∧ t_loss_date t0 = t_loss_date t
         ∧ ∀ t1, t1 ∈ ocr_data → t_claim_id t1 = t_claim_id t →
                 t_transaction_date t0 ≤ t_transaction_date t1).
Proof.
  intros [Hperm Hsorted]. split.
  - intros t t' Ht Ht' Hc.
    apply IngestFacts.elem_of_corrected in Ht as [-> _], Ht' as [-> _].
    by rewrite Hc.
  - intros t Ht.
    apply IngestFacts.elem_of_corrected in Ht as [Hd (u & Hu & Hset)].
    assert (Hcu : t_claim_id u = t_claim_id t) by (by rewrite Hset).
    unfold Ingest.earliest_loss_date in Hd.
    assert (Hss : StronglySorted Ingest.claim_date_le
                    (filter (λ x, t_claim_id x = t_claim_id t)
                       (sort_rows ocr_data))).
    { apply AggregatorFacts.StronglySorted_filter.
      apply Sorted_StronglySorted; [apply _|apply Hsorted]. }
    destruct (head (filter (λ x, t_claim_id x = t_claim_id t)
                      (sort_rows ocr_data))) as [t0|] eqn:Hh.
    + pose proof (head_Some_elem_of _ _ Hh) as Hin.
      apply list_elem_of_filter in Hin as [Hc0 Hin]. rewrite Hperm in Hin.
      exists t0. split; [done|]. split; [done|]. split; [by rewrite Hd|].
      intros t1 Ht1 Hc1.
      assert (Hle : Ingest.claim_date_le t0 t1).
      { apply (IngestFacts.head_StronglySorted _ _ _ _ Hss Hh).
        apply list_elem_of_filter. split; [done|]. by rewrite Hperm. }
      unfold Ingest.claim_date_le, Ingest.claim_date_leb in Hle.
      rewrite decide_True in Hle by congruence. lia.
    + exfalso. apply head_None in Hh.
      assert (Hin : u ∈ filter (λ x, t_claim_id x = t_claim_id t)
                          (sort_rows ocr_data)).
      { apply list_elem_of_filter. split; [done|]. by rewrite Hperm. }
      rewrite Hh in Hin. by apply elem_of_nil in Hin.
Qed.

Lemma one_loss_date_per_claim_witness :
  ∃ t0, t0 ∈ ocr_sheet
    ∧ t_claim_id t0 = "L1"
    ∧ t_loss_date t0 = Some 10
    ∧ t_transaction_date t0 ≤ 30.
Proof.
  destruct (proj2 (one_loss_date_per_claim Ingest.sort_rows_merge ocr_sheet
                     IngestFacts.sort_rows_merge_contract)
              (mkTransaction "L1" "Motor" (Some 10) 30 90 90))
    as (t0 & H1 & H2 & H3 & H4).
  { apply (bool_decide_unpack _). vm_compute. exact I. }
  exists t0. split; [done|]. split; [done|]. split; [done|].
  apply (H4 (mkTransaction "L1" "Motor" (Some 12) 30 90 90)); [|done].
  apply (bool_decide_unpack _). vm_compute. exact I.
Defined.

(** X16.  Correcting the loss dates a second time changes nothing. *)
Theorem loss_date_correction_idempotent
    (sort_rows : list Transaction → list Transaction)
    (ocr_data : list Transaction) :
  Ingest.rows_sort_contract sort_rows →
  Ingest.correct_loss_dates sort_rows
    (Ingest.correct_loss_dates sort_rows ocr_data)
  = Ingest.correct_loss_dates sort_rows ocr_data.
Proof.
  intros [Hperm _].
  set (l' := Ingest.correct_loss_dates sort_rows ocr_data).
  rewrite (IngestFacts.correct_loss_dates_eq sort_rows l').
  transitivity
    ((λ t, Ingest.set_loss_date
             (Ingest.earliest_loss_date sort_rows ocr_data (t_claim_id t)) t)
     <$> l').
  - apply list_fmap_ext. intros i t Ht. f_equal.
    apply list_elem_of_lookup_2, IngestFacts.elem_of_corrected in Ht
      as [_ (t0 & Ht0 & ->)].
    rewrite IngestFacts.set_loss_date_claim.
    by apply IngestFacts.earliest_loss_date_corrected.
  - unfold l'. rewrite IngestFacts.correct_loss_dates_eq.
    rewrite <- list_fmap_compose. by apply list_fmap_ext.
Qed.

Lemma loss_date_correction_idempotent_witness :
  Ingest.correct_loss_dates Ingest.sort_rows_merge
    (Ingest.correct_loss_dates Ingest.sort_rows_merge ocr_sheet)
  = Ingest.correct_loss_dates Ingest.sort_rows_merge ocr_sheet.
Proof.
  exact (loss_date_correction_idempotent Ingest.sort_rows_merge ocr_sheet
           IngestFacts.sort_rows_merge_contract).
Defined.

(** X17.  After the correction [ocr_claims] has at most one row per claim
    id and segment, and a claim id is in it exactly when the claim has a
    row and the loss date of its first row in the sorted frame is not
    blank: a claim whose earliest row has a blank loss date is left out
    with all its rows. *)
Theorem corrected_claims_have_one_row
    (sort_rows : list Transaction → list Transaction)
    (ocr_data : list Transaction) :
  NoDup ((λ c, (claim_id c, segment c))
         <$> Aggregator.ocr_claims
               (Ingest.correct_loss_dates sort_rows ocr_data))
  ∧ ∀ c, c ∈ claim_id
             <$> Aggregator.ocr_claims
                   (Ingest.correct_loss_dates sort_rows ocr_data)
         ↔ c ∈ t_claim_id <$> ocr_data
           ∧ is_Some (Ingest.earliest_loss_date sort_rows ocr_data c).
Proof.
  set (corrected := Ingest.correct_loss_dates sort_rows ocr_data).
  assert (Hkey : ∀ r, r ∈ Aggregator.ocr_claims corrected →
            is_Some (loss_date r)
            ∧ loss_date r
              = Ingest.earliest_loss_date sort_rows ocr_data (claim_id r)
            ∧ claim_id r ∈ t_claim_id <$> ocr_data).
  { intros r Hr. apply AggregatorFacts.elem_of_aggregated in Hr
      as (_ & Hd & Hk).
    apply list_elem_of_fmap in Hk as (t & Hk & Ht).
    apply IngestFacts.elem_of_corrected in Ht as [Hdt (t0 & Ht0 & Ht)].
    destruct r as [c s d g n]. cbn in *.
    injection Hk as -> -> ->. split; [done|]. split; [done|].
    apply list_elem_of_fmap. exists t0. split; [by rewrite Ht|done]. }
  split.
  - unfold Aggregator.ocr_claims.
    pose proof (AggregatorFacts.aggregated_NoDup Aggregator.MAX corrected)
      as Hnd.
    rewrite (list_fmap_compose Aggregator.claim_key (λ k, (k.1.1, k.1.2))).
    apply NoDup_fmap_2_strong; [|done].
    intros k k' Hk Hk' Heq.
    apply list_elem_of_fmap in Hk as (r & -> & Hr).
    apply list_elem_of_fmap in Hk' as (r' & -> & Hr').
    apply Hkey in Hr as (_ & Hd & _), Hr' as (_ & Hd' & _).
    destruct r as [c s d g n], r' as [c' s' d' g' n']. cbn in *.
    injection Heq as -> ->. by rewrite Hd, Hd'.
  - intros c. split.
    + intros (r & -> & Hr)%list_elem_of_fmap.
      apply Hkey in Hr as (Hs & Hd & Hin). split; [done|]. by rewrite <- Hd.
    + intros [(t0 & -> & Ht0)%list_elem_of_fmap Hs].
      set (t := Ingest.set_loss_date
                  (Ingest.earliest_loss_date sort_rows ocr_data
                     (t_claim_id t0)) t0).
      assert (Ht : t ∈ corrected).
      { unfold corrected. rewrite IngestFacts.correct_loss_dates_eq.
        apply list_elem_of_fmap. eauto. }
      apply list_elem_of_fmap.
      exists (Aggregator.group_row Aggregator.MAX corrected
                (Aggregator.txn_key t)).
      split; [done|]. apply AggregatorFacts.elem_of_aggregated.
      rewrite AggregatorFacts.claim_key_group_row.
      split; [done|]. split; [exact Hs|].
      apply list_elem_of_fmap. eauto.
Qed.

(** ** The check on blank loss dates *)

Lemma SUM_blank_split (g : list Transaction) :
  Aggregator.SUM
    ((λ t, match t_loss_date t with None => t_gross t | Some _ => 0 end)
     <$> g)
  + Aggregator.SUM
      ((λ t, match t_loss_date t with Some _ => t_gross t | None => 0 end)
       <$> g)
  = Aggregator.SUM (t_gross <$> g).
Proof.
  induction g as [|t g IH]; [done|].
  rewrite !fmap_cons, !AggregatorFacts.SUM_cons.
  destruct (t_loss_date t); lia.
Qed.

Lemma SUM_blank_none (g : list Transaction) :
  (∀ t, t ∈ g → has_loss_date t) →
  Aggregator.SUM
    ((λ t, match t_loss_date t with None => t_gross t | Some _ => 0 end)
     <$> g) = 0.
Proof.
  induction g as [|t g IH]; intros H; [done|].
  rewrite fmap_cons, AggregatorFacts.SUM_cons, IH
    by (intros u Hu; apply H; by right).
  destruct (H t ltac:(left)) as [d Hd]. by rewrite Hd.
Qed.

(** X18.  The report on blank loss dates has one row for each segment of
    the OCR table, those whose rows all lack a loss date included; in a
    row the two amounts add up to the total [gross_ocr] of the segment,
    the blank amount is zero when every row of the segment has a loss
    date, and the proportion is NULL exactly when that total is zero,
    and otherwise is the blank amount over the total. *)
Theorem blank_loss_date_report_spec (ocr_data : list Transaction) :
  NoDup (Ingest.blank_segment <$> Ingest.blank_loss_date_report ocr_data)
  ∧ (∀ seg, seg ∈ Ingest.blank_segment
                    <$> Ingest.blank_loss_date_report ocr_data
            ↔ seg ∈ t_segment <$> ocr_data)
  ∧ ∀ r, r ∈ Ingest.blank_loss_date_report ocr_data →
      let total :=
        Aggregator.SUM
          (t_gross
           <$> filter (λ t, t_segment t = Ingest.blank_segment r) ocr_data) in
      Ingest.ocr_amount_blank_loss_date r
      + Ingest.ocr_amount_non_blank_loss_date r = total
      ∧ ((∀ t, t ∈ ocr_data → t_segment t = Ingest.blank_segment r →
               has_loss_date t) →
         Ingest.ocr_amount_blank_loss_date r = 0)
      ∧ (Ingest.proportion_blank_to_all r = None ↔ total = 0)
      ∧ (∀ p, Ingest.proportion_blank_to_all r = Some p →
              (p * inject_Z total
               == inject_Z (Ingest.ocr_amount_blank_loss_date r))%Q).
Proof.
  unfold Ingest.blank_loss_date_report.
  set (segs := merge_sort Ingest.string_le
                 (Aggregator.unique (t_segment <$> ocr_data))).
  assert (Hsegs : Ingest.blank_segment <$> (Ingest.blank_row_of ocr_data <$> segs)
                  = segs).
  { rewrite <- list_fmap_compose. rewrite <- (list_fmap_id segs) at 2.
    by apply list_fmap_ext. }
  rewrite Hsegs. split; [|split].
  - unfold segs. rewrite merge_sort_Permutation.
    apply AggregatorFacts.NoDup_unique.
  - intros seg. unfold segs. rewrite merge_sort_Permutation.
    apply AggregatorFacts.elem_of_unique.
  - intros r (seg & -> & _)%list_elem_of_fmap.
    cbn [Ingest.blank_row_of Ingest.blank_segment
           Ingest.ocr_amount_blank_loss_date
           Ingest.ocr_amount_non_blank_loss_date
           Ingest.proportion_blank_to_all].
    set (g := filter (λ t, t_segment t = seg) ocr_data).
    split; [apply SUM_blank_split|]. split.
    { intros H. apply SUM_blank_none. intros t Ht.
      apply list_elem_of_filter in Ht as [Hs Ht]. by apply H. }
    split.
    + case_decide; [done|]. split; [done|]. intros Hz. done.
    + intros p Hp. case_decide; [done|]. injection Hp as <-.
      field. intros Hz. unfold Qeq in Hz. cbn in Hz. lia.
Qed.

(** ** The letter case of the segment labels *)

Lemma title_segments_case (rows rows' : list Transaction) :
  same_up_to_case rows rows' →
  Ingest.title_segments rows = Ingest.title_segments rows'.
Proof.
  induction 1 as [|t t' l l' [Hrest Hlow] _ IH]; [done|].
  unfold Ingest.title_segments in *. rewrite !fmap_cons, IH. f_equal.
  rewrite (TitleFacts.title_of_lower _ _ Hlow).
  destruct t, t'. cbn in *. by injection Hrest as -> -> -> -> ->.
Qed.

(** X19.  The thresholds do not depend on the letter case in which the
    two sheets write the segment labels (ASCII labels): sheets that differ
    in the case of the labels only give the same dictionary and the same
    exception, if any. *)
Theorem pipeline_ignores_label_case `{CL : ChainLadder}
    (sort_rows : list Transaction → list Transaction)
    (sort_values : list ClaimRecord → list ClaimRecord)
    (paid_sheet paid_sheet' ocr_sheet ocr_sheet' : list Transaction) :
  Forall (λ t, Ingest.is_ascii (t_segment t) = true)
    (paid_sheet ++ paid_sheet' ++ ocr_sheet ++ ocr_sheet') →
  same_up_to_case paid_sheet paid_sheet' →
  same_up_to_case ocr_sheet ocr_sheet' →
  pipeline sort_rows sort_values paid_sheet ocr_sheet
  = pipeline sort_rows sort_values paid_sheet' ocr_sheet'.
Proof.
  intros _ Hp Ho. unfold pipeline.
  by rewrite (title_segments_case _ _ Hp), (title_segments_case _ _ Ho).
Qed.

Lemma pipeline_ignores_label_case_witness :
  pipeline Ingest.sort_rows_merge sort_merge paid_sheet ocr_sheet
  = pipeline Ingest.sort_rows_merge sort_merge (lower_segments paid_sheet)
      (lower_segments ocr_sheet).
Proof.
  apply pipeline_ignores_label_case.
  - apply (bool_decide_unpack _). vm_compute. exact I.
  - unfold paid_sheet, lower_segments. cbn [fmap list_fmap].
    repeat constructor.
  - unfold ocr_sheet, lower_segments. cbn [fmap list_fmap].
    repeat constructor.
Defined.

(** X20.  After the correction a row of [ocr_claims] carries the largest
    gross (net) reserve over all the OCR rows of its claim id and segment,
    whatever loss dates the sheet gave to these rows, and its loss date is
    the one of the claim's first row in the sorted frame. *)
Theorem corrected_reserve_is_claim_maximum
    (sort_rows : list Transaction → list Transaction)
    (ocr_data : list Transaction) (r : ClaimRecord) :
  r ∈ Aggregator.ocr_claims (Ingest.correct_loss_dates sort_rows ocr_data) →
  gross_amount r
  = Aggregator.MAX
      (t_gross <$> filter (λ t, t_claim_id t = claim_id r
                                ∧ t_segment t = segment r) ocr_data)
  ∧ net_amount r
    = Aggregator.MAX
        (t_net <$> filter (λ t, t_claim_id t = claim_id r
                                ∧ t_segment t = segment r) ocr_data)
  ∧ loss_date r
    = Ingest.earliest_loss_date sort_rows ocr_data (claim_id r).
Proof.
  intros Hr. apply AggregatorFacts.elem_of_aggregated in Hr as (Hrow & _ & Hk).
  apply list_elem_of_fmap in Hk as (t & Hk & Ht).
  apply IngestFacts.elem_of_corrected in Ht as [Hdt _].
  assert (Hd : loss_date r
               = Ingest.earliest_loss_date sort_rows ocr_data (claim_id r)).
  { destruct r, t. cbn in *. by injection Hk as -> -> ->. }
  assert (Hg : ∀ f : Transaction → Z,
            (∀ d u, f (Ingest.set_loss_date d u) = f u) →
            f <$> filter (λ u, Aggregator.txn_key u = Aggregator.claim_key r)
                    (Ingest.correct_loss_dates sort_rows ocr_data)
            = f <$> filter (λ u, t_claim_id u = claim_id r
                                 ∧ t_segment u = segment r) ocr_data).
  { intros f Hf. rewrite IngestFacts.correct_loss_dates_eq.
    rewrite <- (AggregatorFacts.fmap_filter_comm
                  (λ u, Ingest.set_loss_date
                          (Ingest.earliest_loss_date sort_rows ocr_data
                             (t_claim_id u)) u)
                  (λ u, Aggregator.txn_key u = Aggregator.claim_key r)).
    rewrite <- list_fmap_compose.
    rewrite (list_fmap_ext _ f) by (intros; apply Hf). f_equal.
    apply list_filter_iff. intros u.
    unfold Aggregator.txn_key, Aggregator.claim_key. cbn. rewrite Hd.
    split.
    - by intros [= -> ->].
    - by intros [-> ->]. }
  rewrite Hrow at 1 2. cbn [gross_amount net_amount Aggregator.group_row].
  rewrite (Hg t_gross), (Hg t_net) by done. done.
Qed.

Lemma corrected_reserve_is_claim_maximum_witness :
  mkClaim "L1" "Motor" (Some 10) 100 100
    ∈ Aggregator.ocr_claims
        (Ingest.correct_loss_dates Ingest.sort_rows_merge
           (Ingest.title_segments ocr_sheet))
  ∧ Aggregator.MAX
      (t_gross <$> filter (λ t, t_claim_id t = "L1" ∧ t_segment t = "Motor")
                     (Ingest.title_segments ocr_sheet)) = 100.
Proof.
  assert (H : mkClaim "L1" "Motor" (Some 10) 100 100
                ∈ Aggregator.ocr_claims
                    (Ingest.correct_loss_dates Ingest.sort_rows_merge
                       (Ingest.title_segments ocr_sheet))).
  { apply (bool_decide_unpack _). vm_compute. exact I. }
  split; [exact H|]. symmetry.
  exact (proj1 (corrected_reserve_is_claim_maximum _ _ _ H)).
Defined.

(** ** The premium frames and their merge *)

Module PremiumFacts.
Import Premiums.

Lemma length_melt (s : sheet) :
  length (melt s)
  = (length (segment_columns s) * length (accident_period s))%nat.
Proof.
  unfold melt. induction (segment_columns s) as [|col cols IH]; [done|].
  rewrite bind_cons, length_app, IH, length_imap. cbn [length]. lia.
Qed.

Lemma elem_of_melt (s : sheet) (p : premium) :
  p ∈ melt s
  ↔ ∃ col i, col ∈ segment_columns s
      ∧ accident_period s !! i = Some (p_loss_date p)
      ∧ p_segment p = col.1
      ∧ p_amount p = mjoin (col.2 !! i).
Proof.
  unfold melt. rewrite list_elem_of_bind. split.
  - intros (col & Hp & Hcol).
    apply list_elem_of_lookup in Hp as [i Hp].
    rewrite list_lookup_imap in Hp.
    destruct (accident_period s !! i) as [d|] eqn:Hd; [|done].
    injection Hp as <-. exists col, i. done.
  - intros (col & i & Hcol & Hd & Hs & Ha). exists col. split; [|done].
    apply list_elem_of_lookup. exists i.
    rewrite list_lookup_imap, Hd. cbn. f_equal.
    destruct p. cbn in *. by subst.
Qed.

(** Rows of one frame with one key. *)
Lemma matches_key {A K : Type} `{EqDecision K} (f : A → K) (l : list A)
    (k : K) :
  NoDup (f <$> l) →
  length (filter (λ y, f y = k) l)
  = if decide (k ∈ f <$> l) then 1%nat else 0%nat.
Proof.
  intros Hnd. destruct (decide (k ∈ f <$> l)) as [Hin|Hout].
  - apply list_elem_of_fmap in Hin as (x & -> & Hx).
    by rewrite (AggregatorFacts.filter_key_NoDup f l x Hnd Hx).
  - by rewrite (AggregatorFacts.filter_key_absent f l k Hout).
Qed.

Lemma length_merge_ep (gep_data nep_data : list premium) :
  NoDup (ep_key <$> nep_data) →
  length (merge_ep gep_data nep_data)
  = length (filter (λ g, ep_key g ∈ ep_key <$> nep_data) gep_data).
Proof.
  intros Hnd. unfold merge_ep.
  induction gep_data as [|g l IH]; [done|].
  rewrite bind_cons, length_app, IH, length_fmap, filter_cons.
  rewrite (matches_key ep_key nep_data (ep_key g) Hnd).
  by destruct (decide (ep_key g ∈ ep_key <$> nep_data)).
Qed.

Lemma filter_all_length {A : Type} (P : A → Prop) `{∀ x, Decision (P x)}
    (l : list A) :
  length (filter P l) = length l → ∀ x, x ∈ l → P x.
Proof.
  induction l as [|y l IH]; intros Hlen x Hx; [by apply elem_of_nil in Hx|].
  rewrite filter_cons in Hlen. pose proof (length_filter P l) as Hle.
  destruct (decide (P y)) as [Hy|Hy]; cbn [length] in Hlen; [|lia].
  apply elem_of_cons in Hx as [->|Hx]; [done|]. apply IH; [lia|done].
Qed.

Lemma filter_all {A : Type} (P : A → Prop) `{∀ x, Decision (P x)}
    (l : list A) :
  (∀ x, x ∈ l → P x) → filter P l = l.
Proof.
  induction l as [|y l IH]; intros Hl; [done|].
  rewrite filter_cons, decide_True by (apply Hl; left).
  f_equal. apply IH. intros x Hx. apply Hl. by right.
Qed.

Lemma ep_data_keys (s : sheet) :
  ep_key <$> ep_data s
  = col ← segment_columns s;
    (λ p, (p, Ingest.title col.1)) <$> accident_period s.
Proof.
  unfold ep_data, melt.
  induction (segment_columns s) as [|col cols IH]; [done|].
  rewrite !bind_cons, !fmap_app, IH. f_equal.
  apply list_eq. intros i.
  rewrite !list_lookup_fmap, list_lookup_imap.
  by destruct (accident_period s !! i).
Qed.

Lemma ep_data_keys_NoDup (s : sheet) :
  NoDup (accident_period s) →
  NoDup (Ingest.title <$> (fst <$> segment_columns s)) →
  NoDup (ep_key <$> ep_data s).
Proof.
  intros Hp. rewrite ep_data_keys.
  induction (segment_columns s) as [|col cols IH]; intros Hc;
    [constructor|].
  rewrite !fmap_cons in Hc. apply NoDup_cons in Hc as [Hcol Hc].
  rewrite bind_cons. apply NoDup_app. split; [|split; [|by apply IH]].
  - apply NoDup_fmap_2; [|done]. intros p p' [=]. done.
  - intros k (p & -> & _)%list_elem_of_fmap Hin.
    apply list_elem_of_bind in Hin as (col' & Hk & Hcol').
    apply list_elem_of_fmap in Hk as (p' & [= _ Ht] & _).
    apply Hcol. rewrite Ht.
    apply list_elem_of_fmap. exists col'.1. split; [done|].
    apply list_elem_of_fmap. eauto.
Qed.

(** With every left key matched once, the merge is the left frame with the
    premium of the matching right row beside each row. *)
Lemma merge_ep_matched (gep_data nep_data : list premium) :
  NoDup (ep_key <$> nep_data) →
  (∀ g, g ∈ gep_data → ep_key g ∈ ep_key <$> nep_data) →
  Forall2 (λ g r,
    ep_loss_date r = p_loss_date g
    ∧ ep_segment r = p_segment g
    ∧ gep r = p_amount g
    ∧ ∃ n, n ∈ nep_data ∧ ep_key n = ep_key g ∧ nep r = p_amount n)
    gep_data (merge_ep gep_data nep_data).
Proof.
  intros Hnd. unfold merge_ep.
  induction gep_data as [|g l IH]; intros Hin; [constructor|].
  rewrite bind_cons.
  pose proof (Hin g ltac:(left)) as Hm.
  apply list_elem_of_fmap in Hm as (n & Hk & Hn).
  rewrite Hk, (AggregatorFacts.filter_key_NoDup ep_key nep_data n Hnd Hn).
  cbn [fmap list_fmap app]. constructor.
  - cbn. split; [done|]. split; [done|]. split; [done|]. exists n. done.
  - apply IH. intros g' Hg'. apply Hin. by right.
Qed.

End PremiumFacts.

(** X21.  The melted premium frame has one row for each cell of the sheet
    (every segment column against every accident period, column by
    column), with the segment label in title case; its (period, segment)
    keys are distinct when the periods are and the headers still differ
    once in title case. *)
Theorem premium_rows_one_per_cell (s : Premiums.sheet) :
  length (Premiums.ep_data s)
  = (length (Premiums.segment_columns s)
     * length (Premiums.accident_period s))%nat
  ∧ Premiums.ep_key <$> Premiums.ep_data s
    = (col ← Premiums.segment_columns s;
       (λ p, (p, Ingest.title col.1)) <$> Premiums.accident_period s)
  ∧ (NoDup (Premiums.accident_period s) →
     NoDup (Ingest.title <$> (fst <$> Premiums.segment_columns s)) →
     NoDup (Premiums.ep_key <$> Premiums.ep_data s)).
Proof.
  split; [|split].
  - unfold Premiums.ep_data. rewrite length_fmap.
    apply PremiumFacts.length_melt.
  - apply PremiumFacts.ep_data_keys.
  - apply PremiumFacts.ep_data_keys_NoDup.
Qed.

(** X22.  When no (period, segment) key occurs twice in either premium
    frame, the two assertions pass exactly when the two frames have the
    same keys; [combined_ep] then has the rows of [gep_data], in their
    order, each with the net premium of the [nep_data] row of the same
    period and segment. *)
Theorem combined_ep_checks_cells (gep_data nep_data : list Premiums.premium) :
  NoDup (Premiums.ep_key <$> gep_data) →
  NoDup (Premiums.ep_key <$> nep_data) →
  (is_Some (Premiums.combined_ep gep_data nep_data)
   ↔ Premiums.ep_key <$> gep_data ≡ₚ Premiums.ep_key <$> nep_data)
  ∧ ∀ c, Premiums.combined_ep gep_data nep_data = Some c →
      Forall2 (λ g r,
        Premiums.ep_loss_date r = Premiums.p_loss_date g
        ∧ Premiums.ep_segment r = Premiums.p_segment g
        ∧ Premiums.gep r = Premiums.p_amount g
        ∧ ∃ n, n ∈ nep_data
            ∧ Premiums.ep_key n = Premiums.ep_key g
            ∧ Premiums.nep r = Premiums.p_amount n) gep_data c.
Proof.
  intros Hg Hn.
  pose proof (PremiumFacts.length_merge_ep gep_data nep_data Hn) as Hlen.
  assert (Hpass : ∀ c, Premiums.combined_ep gep_data nep_data = Some c →
            length gep_data = length nep_data
            ∧ c = Premiums.merge_ep gep_data nep_data
            ∧ ∀ g, g ∈ gep_data →
                Premiums.ep_key g ∈ Premiums.ep_key <$> nep_data).
  { intros c Hc. unfold Premiums.combined_ep in Hc. cbn zeta in Hc.
    repeat case_decide; try done. injection Hc as <-.
    split; [done|]. split; [done|].
    apply (PremiumFacts.filter_all_length
             (λ g, Premiums.ep_key g ∈ Premiums.ep_key <$> nep_data)).
    congruence. }
  split; [split|].
  - intros [c Hc]. destruct (Hpass c Hc) as (Hl & _ & Hin).
    apply submseteq_length_Permutation; [|by rewrite !length_fmap, Hl].
    apply NoDup_submseteq; [done|].
    intros k (g & -> & Hgin)%list_elem_of_fmap. by apply Hin.
  - intros Hperm.
    assert (Hl : length gep_data = length nep_data).
    { rewrite <- (length_fmap Premiums.ep_key gep_data),
        <- (length_fmap Premiums.ep_key nep_data). by rewrite Hperm. }
    unfold Premiums.combined_ep. cbn zeta.
    rewrite decide_True by done. rewrite decide_True; [done|].
    rewrite Hlen, PremiumFacts.filter_all; [done|].
    intros g Hgin. rewrite <- Hperm. apply list_elem_of_fmap. eauto.
  - intros c Hc. destruct (Hpass c Hc) as (_ & -> & Hin).
    by apply PremiumFacts.merge_ep_matched.
Qed.

Lemma combined_ep_checks_cells_witness :
  Premiums.ep_key <$> Premiums.ep_data Premiums.gep_sheet
  ≡ₚ Premiums.ep_key <$> Premiums.ep_data Premiums.nep_sheet.
Proof.
  refine (proj1 (proj1 (combined_ep_checks_cells
                          (Premiums.ep_data Premiums.gep_sheet)
                          (Premiums.ep_data Premiums.nep_sheet) _ _)) _).
  - apply (bool_decide_unpack _). vm_compute. exact I.
  - apply (bool_decide_unpack _). vm_compute. exact I.
  - vm_compute. eexists. reflexivity.
Defined.
